(** * Local bitmaps: a shallow embedding of indra/newview/lllocalbitmaps.cpp

    The unit class [LLLocalBitmap] watches one image file, decodes it and
    publishes it under a fresh texture id; [replaceIDs] retargets the
    consumers of the previous id (faces of world objects, sculpt parameters,
    local textures of worn wearables); the manager [LLLocalBitmapMgr] keeps
    the registry of units, refreshes them on a timer and batches the avatar
    rebake.

    The collaborators the file calls into (file system, image decoders, UUID
    generator, object list, agent wearables, avatar, texture list) are not
    part of the file: what the code reads from them is a field of [Env] or
    of [State], and every call that changes them is recorded, in order, in
    the [calls] log of the state. *)

From Stdlib Require Import ZArith Lia.
From stdpp Require Import base decidable option list numbers strings.

Open Scope Z_scope.
Open Scope nat_scope.

(** ** Identifiers *)

(** [LLUUID]: a 128-bit identifier, [LLUUID::null] is the all-zero one. *)
Abbreviation LLUUID := N.

Definition LLUUID_null : LLUUID := 0%N.

Definition isNull (id : LLUUID) : bool := bool_decide (id = LLUUID_null).

(** ** Enumerations

    The headers that declare the enumerations are not among the sources.
    Each type below has the enumerators that lllocalbitmaps.cpp names, and
    one more constructor that stands for every enumerator the file does not
    name (they only ever reach a [default:] label). *)

Module LLWearableType.
Inductive EType :=
| WT_ALPHA | WT_EYES | WT_GLOVES | WT_JACKET | WT_PANTS | WT_SHIRT
| WT_SHOES | WT_SKIN | WT_SKIRT | WT_SOCKS | WT_TATTOO | WT_UNDERPANTS
| WT_UNDERSHIRT
| WT_other (n : nat).

#[export] Instance EType_eq_dec : EqDecision EType.
Proof. solve_decision. Defined.
End LLWearableType.

Module LLVOAvatarDefines.
Inductive EBakedTextureIndex :=
| BAKED_HEAD | BAKED_UPPER | BAKED_LOWER | BAKED_EYES | BAKED_SKIRT
| BAKED_HAIR
| BAKED_other (n : nat).

Inductive ETextureIndex :=
| TEX_EYES_ALPHA | TEX_HAIR_ALPHA | TEX_HEAD_ALPHA | TEX_LOWER_ALPHA
| TEX_UPPER_ALPHA
| TEX_EYES_IRIS
| TEX_UPPER_GLOVES
| TEX_LOWER_JACKET | TEX_UPPER_JACKET
| TEX_LOWER_PANTS
| TEX_UPPER_SHIRT
| TEX_LOWER_SHOES
| TEX_HEAD_BODYPAINT | TEX_LOWER_BODYPAINT | TEX_UPPER_BODYPAINT
| TEX_SKIRT
| TEX_LOWER_SOCKS
| TEX_HEAD_TATTOO | TEX_LOWER_TATTOO | TEX_UPPER_TATTOO
| TEX_LOWER_UNDERPANTS
| TEX_UPPER_UNDERSHIRT
| TEX_NUM_INDICES.

#[export] Instance EBakedTextureIndex_eq_dec : EqDecision EBakedTextureIndex.
Proof. solve_decision. Defined.

#[export] Instance ETextureIndex_eq_dec : EqDecision ETextureIndex.
Proof. solve_decision. Defined.
End LLVOAvatarDefines.

Import LLWearableType LLVOAvatarDefines.

Inductive ELinkStatus := LS_ON | LS_BROKEN.

Inductive EExtensionType := ET_IMG_BMP | ET_IMG_TGA | ET_IMG_JPG | ET_IMG_PNG.

#[export] Instance ELinkStatus_eq_dec : EqDecision ELinkStatus.
Proof. solve_decision. Defined.

#[export] Instance EExtensionType_eq_dec : EqDecision EExtensionType.
Proof. solve_decision. Defined.

(** ** Constants of the file *)

Definition LL_LOCAL_SLAM_FOR_DEBUG : bool := true.
Definition LL_LOCAL_UPDATE_RETRIES : Z := 5.

(** [S32] arithmetic: the value of a 32-bit signed result. *)
Definition S32_wrap (z : Z) : Z := ((z + 2 ^ 31) mod 2 ^ 32 - 2 ^ 31)%Z.

(** ** The unit *)

Record LLLocalBitmap := mkLLLocalBitmap {
  mFilename      : string;
  mShortName     : string;
  mTrackingID    : LLUUID;
  mWorldID       : LLUUID;
  mValid         : bool;
  mLastModified  : string;          (* the LLSD, as [asString()] gives it *)
  mLinkStatus    : ELinkStatus;
  mExtension     : EExtensionType;
  mUpdateRetries : Z                (* S32 *)
}.

Definition set_mLinkStatus (s : ELinkStatus) (u : LLLocalBitmap) : LLLocalBitmap :=
  mkLLLocalBitmap (mFilename u) (mShortName u) (mTrackingID u) (mWorldID u)
    (mValid u) (mLastModified u) s (mExtension u) (mUpdateRetries u).

Definition set_mUpdateRetries (r : Z) (u : LLLocalBitmap) : LLLocalBitmap :=
  mkLLLocalBitmap (mFilename u) (mShortName u) (mTrackingID u) (mWorldID u)
    (mValid u) (mLastModified u) (mLinkStatus u) (mExtension u) r.

Definition set_published (id : LLUUID) (stamp : string) (u : LLLocalBitmap) : LLLocalBitmap :=
  mkLLLocalBitmap (mFilename u) (mShortName u) (mTrackingID u) id
    (mValid u) stamp (mLinkStatus u) (mExtension u) (mUpdateRetries u).

(** ** What the code reads from outside *)

Inductive Decoder := LLImageBMP | LLImageTGA | LLImageJPEG | LLImagePNG.

#[export] Instance Decoder_eq_dec : EqDecision Decoder.
Proof. solve_decision. Defined.

(** The file system, the decoders and the UUID generator as one update pass
    sees them, and the two placeholder ids [IMG_DEFAULT] and
    [IMG_DEFAULT_AVATAR], whose header is not among the sources. *)
Record Env := mkEnv {
  fileExists         : string -> bool;      (* gDirUtilp->fileExists *)
  last_write_time    : string -> string;    (* asctime(localtime(last_write_time)) *)
  load               : Decoder -> string -> bool;
  decode             : Decoder -> string -> bool;
  getComponents      : string -> Z;         (* of the loaded TGA image *)
  generate           : nat -> LLUUID;       (* the n-th id LLUUID::generate yields *)
  IMG_DEFAULT        : LLUUID;
  IMG_DEFAULT_AVATAR : LLUUID
}.

(** Calls on a decoder and on the raw image, in the order they are made. *)
Inductive ImageCall :=
| img_load (d : Decoder)
| img_decode (d : Decoder)
| img_biasedScaleToPowerOfTwo.

#[export] Instance ImageCall_eq_dec : EqDecision ImageCall.
Proof. solve_decision. Defined.

(** ** The state the code works on *)

(** Modelled from the spec: LLViewerObject, LLDrawable and LLFace are not
    among the sources. The spec gives a world object faces with a bound
    texture each and a sculpt parameter block. Here: [getNumFaces()], the
    faces of [mDrawable] ([None] when the object has no drawable; each face
    with the id of its texture, [None] for a null face or a face without
    texture), and the sculpt texture id of the volume when the object is
    sculpted and has one. *)
Record LLViewerObject := mkLLViewerObject {
  mNumFaces : nat;
  mDrawable : option (list (option LLUUID));
  mSculptID : option LLUUID
}.

(** Modelled from the spec: LLLocalTextureObject and LLWearable are not
    among the sources. The spec gives every worn instance local texture
    slots. Here a slot has its id ([getID()]) and the baked texture index
    of the layer set of its first texture layer; a null entry is [None]. *)
Record LLLocalTextureObject := mkLLLocalTextureObject {
  lto_ID            : LLUUID;
  lto_BakedTexIndex : EBakedTextureIndex
}.

Record LLWearable := mkLLWearable {
  getLocalTextureListSeq : list (option LLLocalTextureObject)
}.

(** Calls that change a collaborator. Objects are named by their index in
    the object list, wearables by their index within their type. *)
Inductive Call :=
| c_setTEImage (object : nat) (face : nat) (id : LLUUID)
| c_sendTEUpdate (object : nat)
| c_setParameterEntry (object : nat) (sculpt_texture : LLUUID)
| c_setLocalTexture (te : ETextureIndex) (id : LLUUID) (index : nat)
| c_wearableUpdated (type : EType)
| c_forceBakeAllTextures (slam : bool)
| c_addImage (id : LLUUID)
| c_deleteImage (id : LLUUID).

#[export] Instance Call_eq_dec : EqDecision Call.
Proof. solve_decision. Defined.

Record State := mkState {
  gObjectList     : list (option LLViewerObject);
  gAgentWearables : EType -> list (option LLWearable);
  sNeedsRebake    : bool;
  sTimerStarted   : bool;
  sGenerated      : nat;            (* ids drawn from the generator so far *)
  calls           : list Call       (* oldest first *)
}.

Definition set_gObjectList (l : list (option LLViewerObject)) (st : State) : State :=
  mkState l (gAgentWearables st) (sNeedsRebake st) (sTimerStarted st)
    (sGenerated st) (calls st).

Definition set_sNeedsRebake (b : bool) (st : State) : State :=
  mkState (gObjectList st) (gAgentWearables st) b (sTimerStarted st)
    (sGenerated st) (calls st).

Definition set_sTimerStarted (b : bool) (st : State) : State :=
  mkState (gObjectList st) (gAgentWearables st) (sNeedsRebake st) b
    (sGenerated st) (calls st).

Definition set_sGenerated (n : nat) (st : State) : State :=
  mkState (gObjectList st) (gAgentWearables st) (sNeedsRebake st)
    (sTimerStarted st) n (calls st).

Definition emit (c : Call) (st : State) : State :=
  mkState (gObjectList st) (gAgentWearables st) (sNeedsRebake st)
    (sTimerStarted st) (sGenerated st) (calls st ++ [c]).

(** ** Calls into the collaborators *)

(** Modelled from the spec: LLViewerObject::setTEImage is not among the
    sources; in the spec the call sets the bound texture of the face.
    [object->setTEImage(face_iter, getFetchedTexture(id, ...))]. *)
Definition setTEImage (object_iter face_iter : nat) (id : LLUUID) (st : State) : State :=
  match gObjectList st !! object_iter with
  | Some (Some object) =>
      let object' :=
        mkLLViewerObject (mNumFaces object)
          (fmap (M := option) (fun faces => <[face_iter := Some id]> faces) (mDrawable object))
          (mSculptID object) in
      emit (c_setTEImage object_iter face_iter id)
        (set_gObjectList (<[object_iter := Some object']> (gObjectList st)) st)
  | _ => emit (c_setTEImage object_iter face_iter id) st
  end.

Definition sendTEUpdate (object_iter : nat) (st : State) : State :=
  emit (c_sendTEUpdate object_iter) st.

(** Modelled from the spec: LLViewerObject::setParameterEntry is not among
    the sources; in the spec the sculpt-texture reference of the object is
    replaced. [object->setParameterEntry(PARAMS_SCULPT, new_params, TRUE)],
    where [new_params] is the old block after [setSculptTexture(id)]. *)
Definition setParameterEntry (object_iter : nat) (id : LLUUID) (st : State) : State :=
  match gObjectList st !! object_iter with
  | Some (Some object) =>
      let object' :=
        mkLLViewerObject (mNumFaces object) (mDrawable object) (Some id) in
      emit (c_setParameterEntry object_iter id)
        (set_gObjectList (<[object_iter := Some object']> (gObjectList st)) st)
  | _ => emit (c_setParameterEntry object_iter id) st
  end.

(** [gAgentAvatarp->setLocalTexture(te, getImage(id), FALSE, index)] and
    the calls below it go to the avatar and the texture list: they are kept
    in the log, and the worn wearables stay as the loops of
    [updateUserLayers] read them. *)
Definition setLocalTexture (te : ETextureIndex) (id : LLUUID) (index : nat) (st : State) : State :=
  emit (c_setLocalTexture te id index) st.

Definition wearableUpdated (type : EType) (st : State) : State :=
  emit (c_wearableUpdated type) st.

Definition forceBakeAllTextures (slam : bool) (st : State) : State :=
  emit (c_forceBakeAllTextures slam) st.

Definition addImage (id : LLUUID) (st : State) : State := emit (c_addImage id) st.

Definition deleteImage (id : LLUUID) (st : State) : State := emit (c_deleteImage id) st.

(** ** LLLocalBitmapTimer *)

Definition startTimer (st : State) : State := set_sTimerStarted true st.

Definition stopTimer (st : State) : State := set_sTimerStarted false st.

(** ** LLLocalBitmapMgr: the rebake flag *)

Definition setNeedsRebake (st : State) : State := set_sNeedsRebake true st.

Definition doRebake (st : State) : State :=
  if sNeedsRebake st
  then set_sNeedsRebake false (forceBakeAllTextures LL_LOCAL_SLAM_FOR_DEBUG st)
  else st.

(** ** LLLocalBitmap::decodeBitmap

    One decoder, as each [case] block uses it: [load], then [decode] when
    the load succeeded, then the extra test of the block, then the scaling
    of the raw image. The result is the value of the [if] and the calls
    made. *)
Definition try_decoder (env : Env) (d : Decoder) (filename : string) (extra : bool)
  : bool * list ImageCall :=
  if load env d filename then
    if decode env d filename then
      if extra
      then (true, [img_load d; img_decode d; img_biasedScaleToPowerOfTwo])
      else (false, [img_load d; img_decode d])
    else (false, [img_load d; img_decode d])
  else (false, [img_load d]).

(** The [case] labels of the [switch], last to first: no block ends in a
    [break], so a block whose [if] fails runs into the block below it. *)
Definition case_ET_IMG_PNG (env : Env) (filename : string) : bool * list ImageCall :=
  let '(ok, tr) := try_decoder env LLImagePNG filename true in
  if ok then (true, tr) else (false, tr).

Definition case_ET_IMG_JPG (env : Env) (filename : string) : bool * list ImageCall :=
  let '(ok, tr) := try_decoder env LLImageJPEG filename true in
  if ok then (true, tr)
  else let '(ok', tr') := case_ET_IMG_PNG env filename in (ok', tr ++ tr').

Definition case_ET_IMG_TGA (env : Env) (filename : string) : bool * list ImageCall :=
  let components := getComponents env filename in
  let '(ok, tr) :=
    try_decoder env LLImageTGA filename
      (bool_decide (components = 3%Z) || bool_decide (components = 4%Z)) in
  if ok then (true, tr)
  else let '(ok', tr') := case_ET_IMG_JPG env filename in (ok', tr ++ tr').

Definition case_ET_IMG_BMP (env : Env) (filename : string) : bool * list ImageCall :=
  let '(ok, tr) := try_decoder env LLImageBMP filename true in
  if ok then (true, tr)
  else let '(ok', tr') := case_ET_IMG_TGA env filename in (ok', tr ++ tr').

Definition decodeBitmap (env : Env) (u : LLLocalBitmap) : bool * list ImageCall :=
  match mExtension u with
  | ET_IMG_BMP => case_ET_IMG_BMP env (mFilename u)
  | ET_IMG_TGA => case_ET_IMG_TGA env (mFilename u)
  | ET_IMG_JPG => case_ET_IMG_JPG env (mFilename u)
  | ET_IMG_PNG => case_ET_IMG_PNG env (mFilename u)
  end.

(** The decoders on which [load] was called. *)
Definition attempted (tr : list ImageCall) : list Decoder :=
  omap (fun c => match c with img_load d => Some d | _ => None end) tr.

(** The decoder of a format. *)
Definition decoder_of (e : EExtensionType) : Decoder :=
  match e with
  | ET_IMG_BMP => LLImageBMP
  | ET_IMG_TGA => LLImageTGA
  | ET_IMG_JPG => LLImageJPEG
  | ET_IMG_PNG => LLImagePNG
  end.

(** ** LLLocalBitmap::getTexIndex *)

Definition getTexIndex (type : EType) (baked_texind : EBakedTextureIndex) : ETextureIndex :=
  let result := TEX_NUM_INDICES in
  match type with
  | WT_ALPHA =>
      match baked_texind with
      | BAKED_EYES => TEX_EYES_ALPHA
      | BAKED_HAIR => TEX_HAIR_ALPHA
      | BAKED_HEAD => TEX_HEAD_ALPHA
      | BAKED_LOWER => TEX_LOWER_ALPHA
      | BAKED_UPPER => TEX_UPPER_ALPHA
      | _ => result
      end
  | WT_EYES =>
      if decide (baked_texind = BAKED_EYES) then TEX_EYES_IRIS else result
  | WT_GLOVES =>
      if decide (baked_texind = BAKED_UPPER) then TEX_UPPER_GLOVES else result
  | WT_JACKET =>
      if decide (baked_texind = BAKED_LOWER) then TEX_LOWER_JACKET
      else if decide (baked_texind = BAKED_UPPER) then TEX_UPPER_JACKET
      else result
  | WT_PANTS =>
      if decide (baked_texind = BAKED_LOWER) then TEX_LOWER_PANTS else result
  | WT_SHIRT =>
      if decide (baked_texind = BAKED_UPPER) then TEX_UPPER_SHIRT else result
  | WT_SHOES =>
      if decide (baked_texind = BAKED_LOWER) then TEX_LOWER_SHOES else result
  | WT_SKIN =>
      match baked_texind with
      | BAKED_HEAD => TEX_HEAD_BODYPAINT
      | BAKED_LOWER => TEX_LOWER_BODYPAINT
      | BAKED_UPPER => TEX_UPPER_BODYPAINT
      | _ => result
      end
  | WT_SKIRT =>
      if decide (baked_texind = BAKED_SKIRT) then TEX_SKIRT else result
  | WT_SOCKS =>
      if decide (baked_texind = BAKED_LOWER) then TEX_LOWER_SOCKS else result
  | WT_TATTOO =>
      match baked_texind with
      | BAKED_HEAD => TEX_HEAD_TATTOO
      | BAKED_LOWER => TEX_LOWER_TATTOO
      | BAKED_UPPER => TEX_UPPER_TATTOO
      | _ => result
      end
  | WT_UNDERPANTS =>
      if decide (baked_texind = BAKED_LOWER) then TEX_LOWER_UNDERPANTS else result
  | WT_UNDERSHIRT =>
      if decide (baked_texind = BAKED_UPPER) then TEX_UPPER_UNDERSHIRT else result
  | WT_other _ => result
  end.

(** ** LLLocalBitmap::updateUserPrims

    One pass of the body of the face loop. The counter of the loop is a
    [U8]; [face_iter] is its value. *)
Definition face_step (old_id new_id : LLUUID) (object_iter : nat)
    (acc : State * bool) (face_iter : nat) : State * bool :=
  let '(st, update_obj) := acc in
  match gObjectList st !! object_iter with
  | Some (Some object) =>
      match mDrawable object with
      | Some faces =>
          match faces !! face_iter with
          | Some (Some id) =>
              if decide (id = old_id)
              then (setTEImage object_iter face_iter new_id st, true)
              else acc
          | _ => acc
          end
      | None => acc
      end
  | _ => acc
  end.

(** The body of the object loop. [for (U8 face_iter = 0; face_iter <
    num_faces; face_iter++)] compares a counter that wraps from 255 to 0
    with an [S32]: with more than 255 faces the loop does not end, and the
    call has no result ([None]). *)
Definition object_step_prims (old_id new_id : LLUUID) (acc : option State)
    (object_iter : nat) : option State :=
  st ← acc;
  match gObjectList st !! object_iter with
  | Some (Some object) =>
      let num_faces := mNumFaces object in
      if decide (255 < num_faces) then None
      else
        let '(st', update_obj) :=
          foldl (face_step old_id new_id object_iter) (st, false) (seq 0 num_faces) in
        Some (if update_obj then sendTEUpdate object_iter st' else st')
  | _ => Some st
  end.

Definition updateUserPrims (old_id new_id : LLUUID) (st : State) : option State :=
  let object_count := length (gObjectList st) in
  foldl (object_step_prims old_id new_id) (Some st) (seq 0 object_count).

(** ** LLLocalBitmap::updateUserSculpts *)

Definition object_step_sculpts (old_id new_id : LLUUID) (st : State)
    (object_iter : nat) : State :=
  match gObjectList st !! object_iter with
  | Some (Some object) =>
      match mSculptID object with
      | Some id =>
          if decide (id = old_id)
          then setParameterEntry object_iter new_id st
          else st
      | None => st
      end
  | _ => st
  end.

Definition updateUserSculpts (old_id new_id : LLUUID) (st : State) : State :=
  let object_count := length (gObjectList st) in
  foldl (object_step_sculpts old_id new_id) st (seq 0 object_count).

(** ** LLLocalBitmap::updateUserLayers

    The inner loop, over the local texture objects of one wearable. The
    boolean tells whether the function returned from inside the loop.
    [index] is [getWearableIndex(wearable)], the position of the wearable
    within its type. *)
Fixpoint texture_loop (old_id new_id : LLUUID) (type : EType) (index : nat)
    (texture_list : list (option LLLocalTextureObject)) (st : State) : State * bool :=
  match texture_list with
  | [] => (st, false)
  | Some lto :: rest =>
      if decide (lto_ID lto = old_id) then
        let baked_texind := lto_BakedTexIndex lto in
        let reg_texind := getTexIndex type baked_texind in
        if decide (reg_texind = TEX_NUM_INDICES)
        then (st, true)                                   (* return; *)
        else
          texture_loop old_id new_id type index rest
            (setNeedsRebake
               (wearableUpdated type
                  (setLocalTexture reg_texind new_id index st)))
      else texture_loop old_id new_id type index rest st
  | None :: rest => texture_loop old_id new_id type index rest st
  end.

(** The outer loop, over the wearables of the type from [wearable_iter] on. *)
Fixpoint wearable_loop (old_id new_id : LLUUID) (type : EType)
    (wearables : list (option LLWearable)) (wearable_iter : nat) (st : State) : State :=
  match wearables with
  | [] => st
  | None :: _ => st                                       (* return; *)
  | Some wearable :: rest =>
      let '(st', returned) :=
        texture_loop old_id new_id type wearable_iter
          (getLocalTextureListSeq wearable) st in
      if returned then st'
      else wearable_loop old_id new_id type rest (S wearable_iter) st'
  end.

Definition updateUserLayers (old_id new_id : LLUUID) (type : EType) (st : State) : State :=
  wearable_loop old_id new_id type (gAgentWearables st type) 0 st.

(** ** LLLocalBitmap::replaceIDs *)

Definition replaceIDs (env : Env) (old_id new_id : LLUUID) (st : State) : option State :=
  if decide (old_id = new_id) then Some st
  else
    st ← updateUserPrims old_id new_id st;
    let st := updateUserSculpts old_id new_id st in
    let new_id := if decide (new_id = IMG_DEFAULT env) then IMG_DEFAULT_AVATAR env else new_id in
    let st := updateUserLayers old_id new_id WT_ALPHA st in
    let st := updateUserLayers old_id new_id WT_EYES st in
    let st := updateUserLayers old_id new_id WT_GLOVES st in
    let st := updateUserLayers old_id new_id WT_JACKET st in
    let st := updateUserLayers old_id new_id WT_PANTS st in
    let st := updateUserLayers old_id new_id WT_SHIRT st in
    let st := updateUserLayers old_id new_id WT_SHOES st in
    let st := updateUserLayers old_id new_id WT_SKIN st in
    let st := updateUserLayers old_id new_id WT_SKIRT st in
    let st := updateUserLayers old_id new_id WT_SOCKS st in
    let st := updateUserLayers old_id new_id WT_TATTOO st in
    let st := updateUserLayers old_id new_id WT_UNDERPANTS st in
    let st := updateUserLayers old_id new_id WT_UNDERSHIRT st in
    Some st.

(** Modelled from the spec: LLViewerTextureList is not among the sources;
    in the spec the texture registry has register, lookup and deregister.
    [gTextureList.findImage(id)] gives the texture registered under [id],
    or NULL: the result here is whether it is not NULL. The registry holds
    the ids registered with [addImage] and not removed with [deleteImage]
    since, which is read off the history of calls: the last of these calls
    on [id] was an [addImage]. *)
Definition findImage (id : LLUUID) (st : State) : bool :=
  foldl (fun found c =>
           match c with
           | c_addImage id' => if decide (id' = id) then true else found
           | c_deleteImage id' => if decide (id' = id) then false else found
           | _ => found
           end) false (calls st).

(** ** LLLocalBitmap::updateSelf

    The result is the returned boolean, the state and the unit after the
    call; [None] when [replaceIDs] has no result, and when a refresh that
    is not the first one does not find the old texture: the code calls
    [image->unref()] on what [findImage(old_id)] returned without a null
    test. The texture objects themselves (creation, reference counts)
    belong to the texture list: the model keeps the [addImage] and
    [deleteImage] calls. *)
Definition updateSelf (env : Env) (first_update : bool) (st : State) (u : LLLocalBitmap)
  : option (bool * State * LLLocalBitmap) :=
  match mLinkStatus u with
  | LS_ON =>
      if negb (fileExists env (mFilename u))
      then Some (false, st, set_mLinkStatus LS_BROKEN u)
      else
        let new_last_modified := last_write_time env (mFilename u) in
        if decide (mLastModified u = new_last_modified)
        then Some (false, st, u)
        else if (decodeBitmap env u).1 then
          let old_id :=
            if negb first_update && negb (isNull (mWorldID u))
            then mWorldID u else LLUUID_null in
          let world_id := generate env (sGenerated st) in
          let st := set_sGenerated (S (sGenerated st)) st in
          let u := set_published world_id new_last_modified u in
          let st := addImage world_id st in
          if negb first_update then
            st ← replaceIDs env old_id world_id st;
            if findImage old_id st                 (* image != NULL *)
            then Some (true, deleteImage old_id st, u)
            else None
          else Some (true, st, u)
        else if decide (mUpdateRetries u ≠ 0%Z)
        then Some (false, st, set_mUpdateRetries (S32_wrap (mUpdateRetries u - 1)) u)
        else Some (false, st, set_mLinkStatus LS_BROKEN u)
  | LS_BROKEN => Some (false, st, u)
  end.

(** ** LLLocalBitmapMgr *)

(** The loop of [doUpdates]: [updateSelf()] on every unit, in list order. *)
Fixpoint update_all (env : Env) (sBitmapList : list LLLocalBitmap) (st : State)
  : option (State * list LLLocalBitmap) :=
  match sBitmapList with
  | [] => Some (st, [])
  | unit :: rest =>
      '(_, st, unit') ← updateSelf env false st unit;
      '(st, rest') ← update_all env rest st;
      Some (st, unit' :: rest')
  end.

Definition doUpdates (env : Env) (st : State) (sBitmapList : list LLLocalBitmap)
  : option (State * list LLLocalBitmap) :=
  let st := stopTimer st in
  let st := set_sNeedsRebake false st in
  '(st, sBitmapList') ← update_all env sBitmapList st;
  let st := doRebake st in
  Some (startTimer st, sBitmapList').

Definition getWorldID (sBitmapList : list LLLocalBitmap) (tracking_id : LLUUID) : LLUUID :=
  foldl (fun world_id unit =>
           if decide (mTrackingID unit = tracking_id) then mWorldID unit else world_id)
        LLUUID_null sBitmapList.

Definition getFilename (sBitmapList : list LLLocalBitmap) (tracking_id : LLUUID) : string :=
  foldl (fun filename unit =>
           if decide (mTrackingID unit = tracking_id) then mFilename unit else filename)
        EmptyString sBitmapList.

(** ** The lookup table and the layer step, as data *)

(** The wearable types [replaceIDs] passes to [updateUserLayers], in order. *)
Definition layer_types : list EType :=
  [WT_ALPHA; WT_EYES; WT_GLOVES; WT_JACKET; WT_PANTS; WT_SHIRT; WT_SHOES;
   WT_SKIN; WT_SKIRT; WT_SOCKS; WT_TATTOO; WT_UNDERPANTS; WT_UNDERSHIRT].

(** The pairs for which [getTexIndex] assigns [result]. *)
Definition populated_mappings : list (EType * EBakedTextureIndex) :=
  [(WT_ALPHA, BAKED_EYES); (WT_ALPHA, BAKED_HAIR); (WT_ALPHA, BAKED_HEAD);
   (WT_ALPHA, BAKED_LOWER); (WT_ALPHA, BAKED_UPPER);
   (WT_EYES, BAKED_EYES);
   (WT_GLOVES, BAKED_UPPER);
   (WT_JACKET, BAKED_LOWER); (WT_JACKET, BAKED_UPPER);
   (WT_PANTS, BAKED_LOWER);
   (WT_SHIRT, BAKED_UPPER);
   (WT_SHOES, BAKED_LOWER);
   (WT_SKIN, BAKED_HEAD); (WT_SKIN, BAKED_LOWER); (WT_SKIN, BAKED_UPPER);
   (WT_SKIRT, BAKED_SKIRT);
   (WT_SOCKS, BAKED_LOWER);
   (WT_TATTOO, BAKED_HEAD); (WT_TATTOO, BAKED_LOWER); (WT_TATTOO, BAKED_UPPER);
   (WT_UNDERPANTS, BAKED_LOWER);
   (WT_UNDERSHIRT, BAKED_UPPER)].

(** The layer step of [replaceIDs] as one loop over [layer_types]. *)
Definition layers_step (old_id new_id : LLUUID) (st : State) : State :=
  foldl (fun st type => updateUserLayers old_id new_id type st) st layer_types.

(** The wearable types of the [c_wearableUpdated] calls of a log. *)
Definition updated_types (cs : list Call) : list EType :=
  omap (fun c => match c with c_wearableUpdated type => Some type | _ => None end) cs.

(** The named wearable types and baked indices, and the number of pairs of
    them that [getTexIndex] maps to a texture index. *)
Definition named_types : list EType := layer_types.

Definition named_baked : list EBakedTextureIndex :=
  [BAKED_HEAD; BAKED_UPPER; BAKED_LOWER; BAKED_EYES; BAKED_SKIRT; BAKED_HAIR].

Definition populated_count : nat :=
  length (filter (fun p : EType * EBakedTextureIndex =>
                    getTexIndex p.1 p.2 <> TEX_NUM_INDICES)
                 (list_prod named_types named_baked)).

(** ** The layer step as the specification words it

    The inner loop when a combination without table entry skips that slot
    only, and the loops go on. *)
Fixpoint texture_loop_skipping (old_id new_id : LLUUID) (type : EType) (index : nat)
    (texture_list : list (option LLLocalTextureObject)) (st : State) : State :=
  match texture_list with
  | [] => st
  | Some lto :: rest =>
      if decide (lto_ID lto = old_id) then
        let reg_texind := getTexIndex type (lto_BakedTexIndex lto) in
        if decide (reg_texind = TEX_NUM_INDICES)
        then texture_loop_skipping old_id new_id type index rest st
        else
          texture_loop_skipping old_id new_id type index rest
            (setNeedsRebake
               (wearableUpdated type
                  (setLocalTexture reg_texind new_id index st)))
      else texture_loop_skipping old_id new_id type index rest st
  | None :: rest => texture_loop_skipping old_id new_id type index rest st
  end.

Fixpoint wearable_loop_skipping (old_id new_id : LLUUID) (type : EType)
    (wearables : list (option LLWearable)) (wearable_iter : nat) (st : State) : State :=
  match wearables with
  | [] => st
  | None :: _ => st
  | Some wearable :: rest =>
      wearable_loop_skipping old_id new_id type rest (S wearable_iter)
        (texture_loop_skipping old_id new_id type wearable_iter
           (getLocalTextureListSeq wearable) st)
  end.

Definition updateUserLayers_skipping (old_id new_id : LLUUID) (type : EType) (st : State)
  : State :=
  wearable_loop_skipping old_id new_id type (gAgentWearables st type) 0 st.

(** ** Observations *)

(** Successive calls of [updateSelf] on one unit; each call comes with the
    environment and the state it is made in, and leaves its returned
    boolean and its state. *)
Fixpoint updateSelf_seq (passes : list (Env * bool * State)) (u : LLLocalBitmap)
  : option (list (bool * State) * LLLocalBitmap) :=
  match passes with
  | [] => Some ([], u)
  | (env, first_update, st) :: rest =>
      '(r, st', u') ← updateSelf env first_update st u;
      '(rs, u'') ← updateSelf_seq rest u';
      Some ((r, st') :: rs, u'')
  end.

(** The calls made between two states. *)
Definition emitted (st st' : State) : list Call :=
  drop (length (calls st)) (calls st').

Definition is_setLocalTexture (c : Call) : bool :=
  match c with c_setLocalTexture _ _ _ => true | _ => false end.

Definition is_forceBakeAllTextures (c : Call) : bool :=
  match c with c_forceBakeAllTextures _ => true | _ => false end.

Definition count_calls (p : Call -> bool) (cs : list Call) : nat :=
  length (filter (fun c => p c = true) cs).

(** Every object has few enough faces for the [U8] counter of
    [updateUserPrims]. *)
Definition faces_fit_U8 (st : State) : Prop :=
  Forall (fun o => match o with Some object => mNumFaces object <= 255 | None => True end)
         (gObjectList st).

(** The last unit of the registry with the given tracking id. *)
Definition last_match (sBitmapList : list LLLocalBitmap) (tracking_id : LLUUID)
  : option LLLocalBitmap :=
  last (filter (fun unit => mTrackingID unit = tracking_id) sBitmapList).

(** ** The effect of the loops, as data *)

(** [g] applied to the first [m] elements of a list. *)
Definition map_upto {A} (g : A -> A) (m : nat) (l : list A) : list A :=
  (g <$> take m l) ++ drop m l.

(** A face that shows [old_id] shows [new_id]. *)
Definition rebind (old_id new_id : LLUUID) (face : option LLUUID) : option LLUUID :=
  if decide (face = Some old_id) then Some new_id else face.

(** An object after the face loop has looked at its first [k] faces. *)
Definition rebind_object (old_id new_id : LLUUID) (k : nat) (object : LLViewerObject)
  : LLViewerObject :=
  mkLLViewerObject (mNumFaces object)
    (map_upto (rebind old_id new_id) k <$> mDrawable object)
    (mSculptID object).

Definition rebind_slot (old_id new_id : LLUUID) (o : option LLViewerObject)
  : option LLViewerObject :=
  (fun object => rebind_object old_id new_id (mNumFaces object) object) <$> o.

(** An object after the sculpt loop has looked at it. *)
Definition resculpt_object (old_id new_id : LLUUID) (object : LLViewerObject)
  : LLViewerObject :=
  if decide (mSculptID object = Some old_id)
  then mkLLViewerObject (mNumFaces object) (mDrawable object) (Some new_id)
  else object.

Definition resculpt_slot (old_id new_id : LLUUID) (o : option LLViewerObject)
  : option LLViewerObject :=
  resculpt_object old_id new_id <$> o.

(** The calls [replaceIDs] may make when it binds faces and sculpts to
    [new_id] and local textures to [layer_id]. *)
Definition replace_call (new_id layer_id : LLUUID) (c : Call) : Prop :=
  match c with
  | c_setTEImage _ _ id => id = new_id
  | c_sendTEUpdate _ => True
  | c_setParameterEntry _ id => id = new_id
  | c_setLocalTexture _ id _ => id = layer_id
  | c_wearableUpdated _ => True
  | _ => False
  end.

Definition no_rebake (c : Call) : Prop := is_forceBakeAllTextures c = false.

(** The face counts of the object list. *)
Definition face_counts (st : State) : list (option nat) :=
  fmap (M := option) mNumFaces <$> gObjectList st.

(** [st'] comes from [st] by calls that satisfy [P]: the worn wearables,
    the face counts and the timer are as before, the log has grown by those
    calls, and the rebake flag is set if it was set or a local texture was
    set. *)
Definition extends (P : Call -> Prop) (st st' : State) : Prop :=
  gAgentWearables st' = gAgentWearables st /\
  face_counts st' = face_counts st /\
  sTimerStarted st' = sTimerStarted st /\
  exists new,
    calls st' = calls st ++ new /\
    Forall P new /\
    sNeedsRebake st' = sNeedsRebake st || existsb is_setLocalTexture new.

(** ** Sample data *)

Definition sample_stamp : string := "Mon Nov  2 10:22:00 2026".

(** Every file exists and decodes with its own decoder only. *)
Definition env_ok : Env :=
  mkEnv (fun _ => true) (fun _ => sample_stamp)
        (fun _ _ => true) (fun _ _ => true) (fun _ => 4%Z)
        (fun n => N.of_nat (1000 + n)) 1%N 2%N.

(** No file exists. *)
Definition env_missing : Env :=
  mkEnv (fun _ => false) (fun _ => sample_stamp)
        (fun _ _ => true) (fun _ _ => true) (fun _ => 4%Z)
        (fun n => N.of_nat (1000 + n)) 1%N 2%N.

(** Files exist, no decoder can load them. *)
Definition env_undecodable : Env :=
  mkEnv (fun _ => true) (fun _ => sample_stamp)
        (fun _ _ => false) (fun _ _ => true) (fun _ => 4%Z)
        (fun n => N.of_nat (1000 + n)) 1%N 2%N.

(** A JPEG file under a .bmp name: only the JPEG decoder loads it. *)
Definition env_jpeg_content : Env :=
  mkEnv (fun _ => true) (fun _ => sample_stamp)
        (fun d _ => bool_decide (d = LLImageJPEG)) (fun _ _ => true) (fun _ => 4%Z)
        (fun n => N.of_nat (1000 + n)) 1%N 2%N.

Definition sample_unit (ext : EExtensionType) (status : ELinkStatus) (retries : Z)
  : LLLocalBitmap :=
  mkLLLocalBitmap "/tmp/picture.bmp" "picture" 77%N 500%N true "0" status ext retries.

Definition no_wearables : EType -> list (option LLWearable) := fun _ => [].

Definition empty_state : State := mkState [] no_wearables false true 0 [].

(** A baked index that [getTexIndex] maps for the type. *)
Definition sample_baked (type : EType) : EBakedTextureIndex :=
  match type with
  | WT_ALPHA | WT_SKIN | WT_TATTOO => BAKED_HEAD
  | WT_EYES => BAKED_EYES
  | WT_GLOVES | WT_SHIRT | WT_UNDERSHIRT => BAKED_UPPER
  | WT_SKIRT => BAKED_SKIRT
  | _ => BAKED_LOWER
  end.

(** One worn instance of every type, each with one local texture of id 500
    on a region the table maps. *)
Definition fully_dressed : EType -> list (option LLWearable) :=
  fun type =>
    [Some (mkLLWearable [Some (mkLLLocalTextureObject 500%N (sample_baked type))])].

Definition dressed_state : State := mkState [] fully_dressed false true 0 [].

(** Two shirts. The first has a local texture of id 500 on the lower body,
    for which the table has no entry, then one on the upper body; the
    second has one on the upper body. *)
Definition two_shirts : EType -> list (option LLWearable) :=
  fun type =>
    match type with
    | WT_SHIRT =>
        [Some (mkLLWearable [Some (mkLLLocalTextureObject 500%N BAKED_LOWER);
                             Some (mkLLLocalTextureObject 500%N BAKED_UPPER)]);
         Some (mkLLWearable [Some (mkLLLocalTextureObject 500%N BAKED_UPPER)])]
    | _ => []
    end.

Definition two_shirts_state : State := mkState [] two_shirts false true 0 [].

(** Three slots in the object list: a sculpted object with two faces that
    show texture 500, an empty slot, an object without drawable; and a
    shirt whose upper-body local texture is 500. *)
Definition one_shirt : EType -> list (option LLWearable) :=
  fun type =>
    match type with
    | WT_SHIRT => [Some (mkLLWearable [Some (mkLLLocalTextureObject 500%N BAKED_UPPER)])]
    | _ => []
    end.

Definition sample_objects : list (option LLViewerObject) :=
  [Some (mkLLViewerObject 2 (Some [Some 500%N; Some 500%N]) (Some 500%N));
   None;
   Some (mkLLViewerObject 1 None None)].

Definition sample_world : State := mkState sample_objects one_shirt false true 0 [].

(** ** Further observations *)

(** In this environment [updateSelf] reaches the decoder for the unit and
    the decoder fails. *)
Definition decode_fails (env : Env) (u : LLLocalBitmap) : Prop :=
  fileExists env (mFilename u) = true /\
  mLastModified u <> last_write_time env (mFilename u) /\
  (decodeBitmap env u).1 = false.

(** [updateSelf] reaches the decoder and the decoder succeeds. *)
Definition publishes (env : Env) (u : LLLocalBitmap) : bool :=
  bool_decide (mLinkStatus u = LS_ON)
  && fileExists env (mFilename u)
  && negb (bool_decide (mLastModified u = last_write_time env (mFilename u)))
  && (decodeBitmap env u).1.

(** The members [updateSelf] never assigns. *)
Definition identity_of (u : LLLocalBitmap)
  : string * string * LLUUID * EExtensionType * bool :=
  (mFilename u, mShortName u, mTrackingID u, mExtension u, mValid u).

(** The ids of the [c_addImage] and of the [c_deleteImage] calls of a log. *)
Definition added_ids (cs : list Call) : list LLUUID :=
  omap (fun c => match c with c_addImage id => Some id | _ => None end) cs.

Definition deleted_ids (cs : list Call) : list LLUUID :=
  omap (fun c => match c with c_deleteImage id => Some id | _ => None end) cs.

(** The decoders in the order of the [case] labels of [decodeBitmap], from
    the label of the format on. *)
Definition decoders_from (e : EExtensionType) : list Decoder :=
  match e with
  | ET_IMG_BMP => [LLImageBMP; LLImageTGA; LLImageJPEG; LLImagePNG]
  | ET_IMG_TGA => [LLImageTGA; LLImageJPEG; LLImagePNG]
  | ET_IMG_JPG => [LLImageJPEG; LLImagePNG]
  | ET_IMG_PNG => [LLImagePNG]
  end.

(** The [if] of the [case] block of a decoder. *)
Definition block_succeeds (env : Env) (d : Decoder) (filename : string) : bool :=
  load env d filename && decode env d filename
  && match d with
     | LLImageTGA =>
         bool_decide (getComponents env filename = 3%Z)
         || bool_decide (getComponents env filename = 4%Z)
     | _ => true
     end.

(** An object after [updateUserPrims] and [updateUserSculpts] have looked
    at it. *)
Definition replace_object (old_id new_id : LLUUID) (object : LLViewerObject)
  : LLViewerObject :=
  resculpt_object old_id new_id
    (rebind_object old_id new_id (mNumFaces object) object).

(** The object uses the texture: as its sculpt texture, or on a face within
    its face count. *)
(** The texture of face [j] of the drawable of an object, if any. *)
Definition face_texture (object : LLViewerObject) (j : nat) : option LLUUID :=
  faces ← mDrawable object; mjoin (faces !! j).

(** The object uses the texture: as its sculpt texture, or on a face within
    its face count. *)
Definition references (id : LLUUID) (object : LLViewerObject) : Prop :=
  mSculptID object = Some id \/
  exists j, j < mNumFaces object /\ face_texture object j = Some id.

(** The faces the face loop of [updateUserPrims] finds bound to [old_id]. *)
Definition matching_faces (old_id : LLUUID) (object : LLViewerObject) : list nat :=
  filter (fun j => face_texture object j = Some old_id) (seq 0 (mNumFaces object)).

(** The calls of [updateUserPrims] for the object in slot [object_iter]. *)
Definition prim_calls (old_id new_id : LLUUID) (object_iter : nat)
    (slot : option LLViewerObject) : list Call :=
  match slot with
  | Some object =>
      let matching := matching_faces old_id object in
      ((fun j => c_setTEImage object_iter j new_id) <$> matching)
      ++ (if decide (matching = []) then [] else [c_sendTEUpdate object_iter])
  | None => []
  end.

(** The calls of [updateUserLayers] for one slot of the worn instance
    [index], and for one worn instance, when nothing makes it return. *)
Definition slot_calls (old_id new_id : LLUUID) (type : EType) (index : nat)
    (slot : option LLLocalTextureObject) : list Call :=
  match slot with
  | Some lto =>
      if decide (lto_ID lto = old_id)
      then [c_setLocalTexture (getTexIndex type (lto_BakedTexIndex lto)) new_id index;
            c_wearableUpdated type]
      else []
  | None => []
  end.

Definition wearable_calls (old_id new_id : LLUUID) (type : EType) (index : nat)
    (w : option LLWearable) : list Call :=
  match w with
  | Some wearable =>
      concat (slot_calls old_id new_id type index <$> getLocalTextureListSeq wearable)
  | None => []
  end.

(** Every slot of the worn instance that holds [old_id] is on a combination
    the table maps, and the instance is not null. *)
Definition all_mapped (old_id : LLUUID) (type : EType) (w : option LLWearable) : Prop :=
  match w with
  | Some wearable =>
      Forall (fun slot =>
                match slot with
                | Some lto =>
                    lto_ID lto = old_id ->
                    getTexIndex type (lto_BakedTexIndex lto) <> TEX_NUM_INDICES
                | None => True
                end) (getLocalTextureListSeq wearable)
  | None => False
  end.

(** ** LLLocalBitmap: construction and destruction *)

Definition LL_LOCAL_REPLACE_ON_DEL : bool := true.

(** [gDirUtilp]: the two functions of LLDir the constructor calls. LLDir is
    declared outside lllocalbitmaps.cpp, so they are parameters. *)
Record LLDir := mkLLDir {
  getBaseFileName : string -> string;      (* getBaseFileName(filename, true) *)
  getExtension    : string -> string
}.

Definition set_mValid (b : bool) (u : LLLocalBitmap) : LLLocalBitmap :=
  mkLLLocalBitmap (mFilename u) (mShortName u) (mTrackingID u) (mWorldID u)
    b (mLastModified u) (mLinkStatus u) (mExtension u) (mUpdateRetries u).

(** The chain of comparisons on [temp_exten]; [None] is the final [else]. *)
Definition extension_of (temp_exten : string) : option EExtensionType :=
  if decide (temp_exten = "bmp") then Some ET_IMG_BMP
  else if decide (temp_exten = "tga") then Some ET_IMG_TGA
  else if bool_decide (temp_exten = "jpg") || bool_decide (temp_exten = "jpeg")
       then Some ET_IMG_JPG
  else if decide (temp_exten = "png") then Some ET_IMG_PNG
  else None.

(** The members as the constructor leaves them before it looks at the
    extension: [mLastModified] is the LLSD integer 0, [mWorldID] the id a
    default-constructed LLUUID holds. *)
Definition fresh_unit (gDirUtilp : LLDir) (filename : string) (tracking_id : LLUUID)
    (extension : EExtensionType) : LLLocalBitmap :=
  mkLLLocalBitmap filename (getBaseFileName gDirUtilp filename) tracking_id LLUUID_null
    false "0" LS_ON extension LL_LOCAL_UPDATE_RETRIES.

(** [new LLLocalBitmap(filename)]. When the extension is not recognised the
    constructor returns before [mExtension] is assigned: [indeterminate]
    stands for whatever the member then holds. *)
Definition LLLocalBitmap_new (gDirUtilp : LLDir) (env : Env)
    (indeterminate : EExtensionType) (filename : string) (st : State)
  : option (State * LLLocalBitmap) :=
  let tracking_id := generate env (sGenerated st) in
  let st := set_sGenerated (S (sGenerated st)) st in
  let temp_exten := getExtension gDirUtilp filename in
  match extension_of temp_exten with
  | Some extension =>
      '(valid, st, u) ← updateSelf env true st
                          (fresh_unit gDirUtilp filename tracking_id extension);
      Some (st, set_mValid valid u)
  | None => Some (st, fresh_unit gDirUtilp filename tracking_id indeterminate)
  end.

(** [delete unit]: the destructor. [deleteImage] gets what [findImage]
    found for the world id, also when that is nothing. *)
Definition LLLocalBitmap_delete (env : Env) (u : LLLocalBitmap) (st : State)
  : option State :=
  st ← (if LL_LOCAL_REPLACE_ON_DEL
        then st ← replaceIDs env (mWorldID u) (IMG_DEFAULT env) st; Some (doRebake st)
        else Some st);
  Some (deleteImage (mWorldID u) st).

(** ** LLLocalBitmapMgr: adding, deleting, listing *)

(** The file picker: the result of [getMultipleOpenFiles], and the names
    [getFirstFile] and [getNextFile] hand out one after the other; after
    the last one they return the empty string. *)
Record LLFilePicker := mkLLFilePicker {
  getMultipleOpenFiles : bool;
  picked               : list string
}.

(** The [while] loop of [addUnit]; [files] are the names still to come. *)
Fixpoint add_loop (gDirUtilp : LLDir) (env : Env) (indeterminate : EExtensionType)
    (files : list string) (st : State) (sBitmapList : list LLLocalBitmap)
    (add_successful : bool) : option (State * list LLLocalBitmap * bool) :=
  match files with
  | [] => Some (st, sBitmapList, add_successful)
  | filename :: rest =>
      if decide (filename = EmptyString) then Some (st, sBitmapList, add_successful)
      else
        '(st, unit) ← LLLocalBitmap_new gDirUtilp env indeterminate filename st;
        if mValid unit
        then add_loop gDirUtilp env indeterminate rest st (sBitmapList ++ [unit]) true
        else
          st ← LLLocalBitmap_delete env unit st;
          add_loop gDirUtilp env indeterminate rest st sBitmapList add_successful
  end.

Definition addUnit (gDirUtilp : LLDir) (env : Env) (indeterminate : EExtensionType)
    (picker : LLFilePicker) (st : State) (sBitmapList : list LLLocalBitmap)
  : option (State * list LLLocalBitmap * bool) :=
  if getMultipleOpenFiles picker then
    let st := stopTimer st in
    '(st, sBitmapList, add_successful) ←
      add_loop gDirUtilp env indeterminate (picked picker) st sBitmapList false;
    Some (startTimer st, sBitmapList, add_successful)
  else Some (st, sBitmapList, false).

#[export] Instance LLLocalBitmap_eq_dec : EqDecision LLLocalBitmap.
Proof. solve_decision. Defined.

(** The second loop of [delUnit]. [sBitmapList.remove(unit)] compares
    addresses; the units here are values, and a unit equal in every member
    to one that is deleted has its tracking id and is deleted as well. *)
Fixpoint delete_loop (env : Env) (to_delete : list LLLocalBitmap) (st : State)
    (sBitmapList : list LLLocalBitmap) : option (State * list LLLocalBitmap) :=
  match to_delete with
  | [] => Some (st, sBitmapList)
  | unit :: rest =>
      let sBitmapList := filter (fun u => u <> unit) sBitmapList in
      st ← LLLocalBitmap_delete env unit st;
      delete_loop env rest st sBitmapList
  end.

Definition delUnit (env : Env) (st : State) (sBitmapList : list LLLocalBitmap)
    (tracking_id : LLUUID) : option (State * list LLLocalBitmap) :=
  if decide (sBitmapList = []) then Some (st, sBitmapList)
  else
    let to_delete := filter (fun unit => mTrackingID unit = tracking_id) sBitmapList in
    delete_loop env to_delete st sBitmapList.

(** [feedScrollList]: the control is its rows, a row the values of the
    columns [unit_name] and [unit_id_HIDDEN]; a null control is [None]. *)
Definition feedScrollList (ctrl : option (list (string * LLUUID)))
    (sBitmapList : list LLLocalBitmap) : option (list (string * LLUUID)) :=
  match ctrl with
  | Some _ =>
      let rows := [] in                                   (* clearRows *)
      Some (if decide (sBitmapList = []) then rows
            else foldl (fun rows unit => rows ++ [(mShortName unit, mTrackingID unit)])
                       rows sBitmapList)
  | None => None
  end.

(** [LLLocalBitmapTimer::tick]: an update pass; the [FALSE] it returns
    keeps the timer alive. *)
Definition tick (env : Env) (st : State) (sBitmapList : list LLLocalBitmap)
  : option (State * list LLLocalBitmap) * bool :=
  (doUpdates env st sBitmapList, false).

(** More sample data: a directory helper that takes the text after the
    last dot as extension, for the names used below. *)
Definition sample_dir : LLDir :=
  mkLLDir (fun filename => filename)
          (fun filename =>
             if decide (filename = "/tmp/a.png") then "png"
             else if decide (filename = "/tmp/b.gif") then "gif"
             else if decide (filename = "/tmp/c.jpeg") then "jpeg"
             else "").

(** * lluriparser.cpp

    A [std::string] is the list of its characters here, since the code
    takes strings apart; a string may hold NUL characters, which matter
    where the code goes through [c_str()]. The uriparser library is a
    parameter, and the text ranges it fills in are pairs of addresses into
    a character memory. *)
Module LLUriParser.

Abbreviation ascii := Ascii.ascii.

Definition NUL : ascii := Ascii.zero.

(** A string literal. *)
Definition lit (s : string) : list ascii := String.list_ascii_of_string s.

(** What a reader of [s.c_str()] sees: the characters before the first
    NUL. *)
Fixpoint c_str (s : list ascii) : list ascii :=
  match s with
  | [] => []
  | c :: rest => if decide (c = NUL) then [] else c :: c_str rest
  end.

(** [s.find(needle)]: the first position where [needle] starts, [None] for
    [npos]. *)
Fixpoint find (needle s : list ascii) : option nat :=
  if decide (needle `prefix_of` s) then Some 0
  else match s with
       | [] => None
       | _ :: rest => S <$> find needle rest
       end.

(** [UriTextRangeA]: two pointers; [None] is NULL. *)
Record UriTextRangeA := mkUriTextRangeA {
  first     : option nat;
  afterLast : option nat
}.

(** [UriUriA], the members [extractParts] reads; [pathHead] is the linked
    list of path segments. *)
Record UriUriA := mkUriUriA {
  uri_scheme   : UriTextRangeA;
  uri_hostText : UriTextRangeA;
  uri_portText : UriTextRangeA;
  uri_query    : UriTextRangeA;
  uri_fragment : UriTextRangeA;
  uri_pathHead : list UriTextRangeA
}.

(** The functions of the uriparser library the file calls. Each gives its
    return code; [uriToStringA] gets the buffer and gives back its content
    after the call. *)
Record UriLib := mkUriLib {
  uriParseUriA               : list ascii -> Z * UriUriA;
  uriNormalizeSyntaxExA      : UriUriA -> Z * UriUriA;
  uriToStringCharsRequiredA  : UriUriA -> Z * Z;
  uriToStringA               : UriUriA -> list ascii -> Z * list ascii
}.

Record t := mk {
  mScheme        : list ascii;
  mPort          : list ascii;
  mHost          : list ascii;
  mPath          : list ascii;
  mQuery         : list ascii;
  mFragment      : list ascii;
  mNormalizedUri : list ascii;
  mTmpScheme     : bool;
  mRes           : Z;                (* S32 *)
  mUri           : UriUriA
}.

Definition with_parts (scheme port host path query fragment : list ascii) (p : t) : t :=
  mk scheme port host path query fragment (mNormalizedUri p) (mTmpScheme p) (mRes p)
     (mUri p).

Definition with_result (res : Z) (uri : UriUriA) (p : t) : t :=
  mk (mScheme p) (mPort p) (mHost p) (mPath p) (mQuery p) (mFragment p)
     (mNormalizedUri p) (mTmpScheme p) res uri.

Definition with_normalized (normalized : list ascii) (p : t) : t :=
  mk (mScheme p) (mPort p) (mHost p) (mPath p) (mQuery p) (mFragment p)
     normalized (mTmpScheme p) (mRes p) (mUri p).

(** [parse()] *)
Definition parse (lib : UriLib) (p : t) : t * Z :=
  let '(res, uri) := uriParseUriA lib (c_str (mNormalizedUri p)) in
  (with_result res uri p, res).

(** The constructor; [mUri] is only set by [parse()]. *)
Definition new (lib : UriLib) (u : list ascii) : t :=
  let tmp := bool_decide (find (lit "://") u = None) in
  let normalized := (if tmp then lit "http://" else []) ++ c_str u in
  let '(res, uri) := uriParseUriA lib (c_str normalized) in
  mk [] [] [] [] [] [] normalized tmp res uri.

(** The setters. *)
Definition sheme (s : list ascii) (p : t) : t :=
  mk s (mPort p) (mHost p) (mPath p) (mQuery p) (mFragment p)
     (mNormalizedUri p) (bool_decide (length s = 0)) (mRes p) (mUri p).

Definition port (s : list ascii) (p : t) : t :=
  with_parts (mScheme p) s (mHost p) (mPath p) (mQuery p) (mFragment p) p.

Definition host (s : list ascii) (p : t) : t :=
  with_parts (mScheme p) (mPort p) s (mPath p) (mQuery p) (mFragment p) p.

Definition path (s : list ascii) (p : t) : t :=
  with_parts (mScheme p) (mPort p) (mHost p) s (mQuery p) (mFragment p) p.

Definition query (s : list ascii) (p : t) : t :=
  with_parts (mScheme p) (mPort p) (mHost p) (mPath p) s (mFragment p) p.

Definition fragment (s : list ascii) (p : t) : t :=
  with_parts (mScheme p) (mPort p) (mHost p) (mPath p) (mQuery p) s p.

(** [textRangeToString]: the string assigned to [str]. [mem] is the
    memory the pointers point into. *)
Definition textRangeToString (mem : nat -> ascii) (textRange : UriTextRangeA)
  : list ascii :=
  match first textRange, afterLast textRange with
  | Some first, Some afterLast =>
      if decide (afterLast <= first) then []     (* first >= afterLast *)
      else
        let len := afterLast - first in
        if decide (len <> 0) then mem <$> seq first len else []
  | _, _ => []
  end.

(** The path segments as [extractParts] appends them. *)
Definition path_of (mem : nat -> ascii) (pathHead : list UriTextRangeA) : list ascii :=
  concat ((fun segment => lit "/" ++ textRangeToString mem segment) <$> pathHead).

Definition extractParts (mem : nat -> ascii) (p : t) : t :=
  let scheme :=
    if mTmpScheme p then [] else textRangeToString mem (uri_scheme (mUri p)) in
  let host := textRangeToString mem (uri_hostText (mUri p)) in
  let port := textRangeToString mem (uri_portText (mUri p)) in
  let query := textRangeToString mem (uri_query (mUri p)) in
  let fragment := textRangeToString mem (uri_fragment (mUri p)) in
  let path :=
    foldl (fun path segment => (path ++ lit "/") ++ textRangeToString mem segment)
          (mPath p) (uri_pathHead (mUri p)) in
  with_parts scheme port host path query fragment p.

(** The C string that starts at [&label_buf[k]]; [None] when the index is
    outside the buffer or no NUL follows within it. *)
Definition c_str_at (label_buf : list ascii) (k : nat) : option (list ascii) :=
  if decide (k < length label_buf) then
    if decide (NUL ∈ drop k label_buf) then Some (c_str (drop k label_buf)) else None
  else None.

(** [normalize()]: the parser after the call and the returned code; [None]
    when the buffer cannot be made or read ([chars_required] not positive
    after the increment, or no C string at the offset). *)
Definition normalize (lib : UriLib) (p : t) : option (t * Z) :=
  if decide (mRes p = 0%Z) then
    let '(res, uri) := uriNormalizeSyntaxExA lib (mUri p) in
    let p := with_result res uri p in
    if decide (res = 0%Z) then
      let '(res, chars_required) := uriToStringCharsRequiredA lib (mUri p) in
      let p := with_result res (mUri p) p in
      if decide (res = 0%Z) then
        let chars_required := S32_wrap (chars_required + 1) in
        if decide (0 < chars_required)%Z then
          let label_buf := replicate (Z.to_nat chars_required) NUL in
          let '(res, label_buf) := uriToStringA lib (mUri p) label_buf in
          let p := with_result res (mUri p) p in
          if decide (res = 0%Z) then
            normalized ← c_str_at label_buf (if mTmpScheme p then 7 else 0);
            Some (with_normalized normalized p, mRes p)
          else Some (p, mRes p)
        else None
      else Some (p, mRes p)
    else Some (p, mRes p)
  else Some (p, mRes p).

(** [glue(uri)]: the content of [uri] after the call. *)
Definition glue (p : t) (uri : list ascii) : list ascii :=
  let uri := if decide (length (mScheme p) <> 0) then mScheme p ++ lit "://" else uri in
  let uri := uri ++ mHost p in
  let uri := if decide (length (mPort p) <> 0) then (uri ++ lit ":") ++ mPort p else uri in
  let uri := uri ++ mPath p in
  if decide (length (mQuery p) <> 0) then
    let uri := (uri ++ lit "?") ++ mQuery p in
    if decide (length (mFragment p) <> 0) then (uri ++ lit "#") ++ mFragment p else uri
  else uri.

Definition test (p : t) : bool := bool_decide (glue p [] = mNormalizedUri p).

End LLUriParser.

(** ** The texture list during a pass *)

(** The calls that change the texture list. *)
Definition texture_list_call (c : Call) : bool :=
  match c with
  | c_addImage _ | c_deleteImage _ => true
  | _ => false
  end.

(** The textures that a pass over the registry replaces are in the texture
    list, under ids that differ from unit to unit: of every unit that gets
    a decoded image in the pass, [findImage] finds the world id, and no two
    such units share a world id. *)
Definition textures_registered (env : Env) (st : State)
    (sBitmapList : list LLLocalBitmap) : Prop :=
  let refreshed := filter (fun unit => publishes env unit = true) sBitmapList in
  Forall (fun unit => findImage (mWorldID unit) st = true) refreshed /\
  NoDup (mWorldID <$> refreshed).

(** The sample world after the textures 500 and 501 were registered. *)
Definition sample_world_registered : State :=
  addImage 501%N (addImage 500%N sample_world).

(** ** The names [addUnit] looks at *)

(** The names the loop of [addUnit] gets from the picker: those before the
    first empty one. *)
Fixpoint names_before_empty (files : list string) : list string :=
  match files with
  | [] => []
  | filename :: rest =>
      if decide (filename = EmptyString) then [] else filename :: names_before_empty rest
  end.

(** The constructor makes a valid unit from the file: the extension is a
    known one and the first update gets a decoded image. *)
Definition gives_valid_unit (gDirUtilp : LLDir) (env : Env) (filename : string) : bool :=
  match extension_of (getExtension gDirUtilp filename) with
  | Some extension => publishes env (fresh_unit gDirUtilp filename LLUUID_null extension)
  | None => false
  end.

(** * Properties *)

(** ** The unit's own state machine *)

Lemma S32_wrap_id (z : Z) :
  (- 2 ^ 31 <= z < 2 ^ 31)%Z -> S32_wrap z = z.
Proof.
  intros Hz. unfold S32_wrap.
  rewrite Z.mod_small by lia. lia.
Qed.

Lemma updateSelf_LS_BROKEN env first_update st u :
  mLinkStatus u = LS_BROKEN ->
  updateSelf env first_update st u = Some (false, st, u).
Proof. intros Hb. unfold updateSelf. now rewrite Hb. Qed.

(** C1. Once the link status of a unit is [LS_BROKEN], a call of
    [updateSelf], whatever the environment, the state and [first_update],
    returns false and leaves the state and the whole unit as they were; so
    does every sequence of later calls. In particular [mWorldID],
    [mLastModified], [mUpdateRetries] and [mLinkStatus] keep their values,
    and no new world id is produced. *)
Theorem broken_unit_is_never_updated (u : LLLocalBitmap) :
  mLinkStatus u = LS_BROKEN ->
  (forall env first_update st,
     updateSelf env first_update st u = Some (false, st, u)) /\
  (forall passes : list (Env * bool * State),
     updateSelf_seq passes u = Some (map (fun p => (false, p.2)) passes, u)).
Proof.
  intros Hb. split.
  - intros env first_update st. now apply updateSelf_LS_BROKEN.
  - intros passes. induction passes as [|[[env first_update] st] rest IH]; simpl.
    + reflexivity.
    + rewrite updateSelf_LS_BROKEN by assumption. simpl.
      rewrite IH. reflexivity.
Qed.

Lemma broken_unit_is_never_updated_witness :
  let u := sample_unit ET_IMG_PNG LS_BROKEN 0 in
  updateSelf env_ok false sample_world u = Some (false, sample_world, u) /\
  updateSelf_seq [(env_ok, false, empty_state); (env_missing, true, empty_state);
                  (env_undecodable, false, sample_world)] u
  = Some ([(false, empty_state); (false, empty_state); (false, sample_world)], u).
Proof.
  intros u.
  destruct (broken_unit_is_never_updated u eq_refl) as [Hone Hall].
  split; [apply Hone | apply Hall].
Defined.

(** C9. On a unit that is [LS_ON] and whose file does not exist,
    [updateSelf] returns false with the state untouched and the unit
    [LS_BROKEN]; [mUpdateRetries], [mWorldID] and [mLastModified] keep
    their values. *)
Theorem missing_file_breaks_link env first_update st u :
  mLinkStatus u = LS_ON ->
  fileExists env (mFilename u) = false ->
  exists u',
    updateSelf env first_update st u = Some (false, st, u') /\
    mLinkStatus u' = LS_BROKEN /\
    mUpdateRetries u' = mUpdateRetries u /\
    mWorldID u' = mWorldID u /\
    mLastModified u' = mLastModified u.
Proof.
  intros Hon Hmissing.
  exists (set_mLinkStatus LS_BROKEN u).
  unfold updateSelf. rewrite Hon, Hmissing. simpl. auto.
Qed.

Lemma missing_file_breaks_link_witness :
  exists u',
    updateSelf env_missing false empty_state (sample_unit ET_IMG_PNG LS_ON 5)
    = Some (false, empty_state, u') /\
    mLinkStatus u' = LS_BROKEN /\
    mUpdateRetries u' = 5%Z /\
    mWorldID u' = 500%N /\
    mLastModified u' = "0".
Proof.
  exact (missing_file_breaks_link env_missing false empty_state
           (sample_unit ET_IMG_PNG LS_ON 5) eq_refl eq_refl).
Defined.

(** C2. A failed decode in [updateSelf] on a unit that is [LS_ON] (the file
    exists and its time stamp is new) returns false and leaves the state,
    [mWorldID] and [mLastModified] alone. While [mUpdateRetries] is
    positive it goes down by exactly one and the unit stays [LS_ON]; when
    it is zero it stays zero and the unit becomes [LS_BROKEN]. *)
Theorem decode_failure_counts_down env first_update st u :
  mLinkStatus u = LS_ON ->
  fileExists env (mFilename u) = true ->
  mLastModified u <> last_write_time env (mFilename u) ->
  (decodeBitmap env u).1 = false ->
  exists u',
    updateSelf env first_update st u = Some (false, st, u') /\
    mWorldID u' = mWorldID u /\
    mLastModified u' = mLastModified u /\
    ((0 < mUpdateRetries u < 2 ^ 31)%Z ->
       mUpdateRetries u' = (mUpdateRetries u - 1)%Z /\ mLinkStatus u' = LS_ON) /\
    (mUpdateRetries u = 0%Z ->
       mUpdateRetries u' = 0%Z /\ mLinkStatus u' = LS_BROKEN).
Proof.
  intros Hon Hexists Hstamp Hdecode.
  unfold updateSelf. rewrite Hon, Hexists, Hdecode. simpl.
  destruct (decide (mLastModified u = last_write_time env (mFilename u)))
    as [Heq|_]; [contradiction|].
  destruct (decide (mUpdateRetries u <> 0%Z)) as [Hnz|Hz].
  - eexists. split; [reflexivity|]. simpl.
    split; [reflexivity|]. split; [reflexivity|]. split.
    + intros Hpos. split; [apply S32_wrap_id; lia | assumption].
    + intros Hzero. contradiction.
  - eexists. split; [reflexivity|]. simpl.
    split; [reflexivity|]. split; [reflexivity|]. split.
    + intros Hpos. lia.
    + intros Hzero. split; [assumption | reflexivity].
Qed.

Lemma decode_failure_counts_down_witness :
  (exists u',
     updateSelf env_undecodable false empty_state (sample_unit ET_IMG_PNG LS_ON 5)
     = Some (false, empty_state, u') /\
     mUpdateRetries u' = 4%Z /\ mLinkStatus u' = LS_ON) /\
  (exists u',
     updateSelf env_undecodable false empty_state (sample_unit ET_IMG_PNG LS_ON 0)
     = Some (false, empty_state, u') /\
     mUpdateRetries u' = 0%Z /\ mLinkStatus u' = LS_BROKEN).
Proof.
  split.
  - destruct (decode_failure_counts_down env_undecodable false empty_state
                (sample_unit ET_IMG_PNG LS_ON 5) eq_refl eq_refl
                ltac:(discriminate) eq_refl)
      as (u' & Hrun & _ & _ & Hpos & _).
    exists u'. split; [exact Hrun|]. apply Hpos. simpl. lia.
  - destruct (decode_failure_counts_down env_undecodable false empty_state
                (sample_unit ET_IMG_PNG LS_ON 0) eq_refl eq_refl
                ltac:(discriminate) eq_refl)
      as (u' & Hrun & _ & _ & _ & Hzero).
    exists u'. split; [exact Hrun|]. apply Hzero. reflexivity.
Defined.

(** ** Queries of the manager *)

Lemma getWorldID_snoc l unit tracking_id :
  getWorldID (l ++ [unit]) tracking_id
  = if decide (mTrackingID unit = tracking_id) then mWorldID unit
    else getWorldID l tracking_id.
Proof. unfold getWorldID. now rewrite foldl_snoc. Qed.

Lemma getFilename_snoc l unit tracking_id :
  getFilename (l ++ [unit]) tracking_id
  = if decide (mTrackingID unit = tracking_id) then mFilename unit
    else getFilename l tracking_id.
Proof. unfold getFilename. now rewrite foldl_snoc. Qed.

Lemma last_match_snoc l unit tracking_id :
  last_match (l ++ [unit]) tracking_id
  = if decide (mTrackingID unit = tracking_id) then Some unit
    else last_match l tracking_id.
Proof.
  unfold last_match. rewrite filter_app, filter_cons, filter_nil.
  destruct (decide (mTrackingID unit = tracking_id)).
  - apply last_snoc.
  - now rewrite app_nil_r.
Qed.

Lemma queries_follow_last_match sBitmapList tracking_id :
  getWorldID sBitmapList tracking_id
  = from_option mWorldID LLUUID_null (last_match sBitmapList tracking_id) /\
  getFilename sBitmapList tracking_id
  = from_option mFilename EmptyString (last_match sBitmapList tracking_id).
Proof.
  induction sBitmapList as [|unit l [IHw IHf]] using rev_ind.
  - split; reflexivity.
  - rewrite getWorldID_snoc, getFilename_snoc, last_match_snoc.
    destruct (decide (mTrackingID unit = tracking_id)); auto.
Qed.

Lemma filter_no_match (l : list LLLocalBitmap) (tracking_id : LLUUID) :
  Forall (fun unit => mTrackingID unit <> tracking_id) l ->
  filter (fun unit => mTrackingID unit = tracking_id) l = [].
Proof.
  induction 1 as [|unit l Hne _ IH]; [reflexivity|].
  rewrite filter_cons.
  destruct (decide (mTrackingID unit = tracking_id)); [contradiction | exact IH].
Qed.

(** C10. [getWorldID] and [getFilename] are total on every registry and
    every tracking id. When no unit has the id they give [LLUUID::null] and
    the empty string; when the registry is [before ++ unit :: after] where
    [unit] has the id and no unit of [after] has it, they give the world id
    and the file name of [unit], whatever [before] holds: the last match in
    list order wins. Both equal the value read off [last_match]. *)
Theorem queries_return_last_match (sBitmapList : list LLLocalBitmap) (tracking_id : LLUUID) :
  (getWorldID sBitmapList tracking_id
   = from_option mWorldID LLUUID_null (last_match sBitmapList tracking_id) /\
   getFilename sBitmapList tracking_id
   = from_option mFilename EmptyString (last_match sBitmapList tracking_id)) /\
  (Forall (fun unit => mTrackingID unit <> tracking_id) sBitmapList ->
   getWorldID sBitmapList tracking_id = LLUUID_null /\
   getFilename sBitmapList tracking_id = EmptyString) /\
  (forall before unit after,
     sBitmapList = before ++ unit :: after ->
     mTrackingID unit = tracking_id ->
     Forall (fun unit' => mTrackingID unit' <> tracking_id) after ->
     getWorldID sBitmapList tracking_id = mWorldID unit /\
     getFilename sBitmapList tracking_id = mFilename unit).
Proof.
  pose proof (queries_follow_last_match sBitmapList tracking_id) as [Hw Hf].
  split; [now split|]. split.
  - intros Hnone. rewrite Hw, Hf. unfold last_match.
    rewrite filter_no_match by assumption. now split.
  - intros before unit after -> Hid Hafter. rewrite Hw, Hf. unfold last_match.
    rewrite filter_app, filter_cons.
    destruct (decide (mTrackingID unit = tracking_id)); [|contradiction].
    rewrite (filter_no_match after) by assumption.
    rewrite last_snoc. now split.
Qed.

Lemma queries_return_last_match_witness :
  let a := mkLLLocalBitmap "/tmp/a.png" "a" 7%N 100%N true "0" LS_ON ET_IMG_PNG 5 in
  let b := mkLLLocalBitmap "/tmp/b.png" "b" 7%N 200%N true "0" LS_ON ET_IMG_PNG 5 in
  let c := mkLLLocalBitmap "/tmp/c.png" "c" 8%N 300%N true "0" LS_ON ET_IMG_PNG 5 in
  (getWorldID [a; b; c] 9%N = LLUUID_null /\ getFilename [a; b; c] 9%N = EmptyString) /\
  (getWorldID [a; b; c] 7%N = 200%N /\ getFilename [a; b; c] 7%N = "/tmp/b.png").
Proof.
  intros a b c.
  destruct (queries_return_last_match [a; b; c] 9%N) as (_ & Hnone & _).
  destruct (queries_return_last_match [a; b; c] 7%N) as (_ & _ & Hlast).
  split.
  - apply Hnone. repeat constructor; discriminate.
  - apply (Hlast [a] b [c]); [reflexivity | reflexivity |].
    repeat constructor; discriminate.
Defined.

(** ** Decoding *)

(** C3, where the code departs from it. A unit whose format is BMP and
    whose file only the JPEG decoder can load: [decodeBitmap] calls [load]
    on the BMP decoder, runs into the TGA block, then into the JPEG block,
    and returns true with the image the JPEG decoder produced. *)
Theorem decodeBitmap_runs_into_next_case :
  let u := sample_unit ET_IMG_BMP LS_ON 5 in
  decodeBitmap env_jpeg_content u
  = (true, [img_load LLImageBMP; img_load LLImageTGA; img_load LLImageJPEG;
            img_decode LLImageJPEG; img_biasedScaleToPowerOfTwo]) /\
  attempted (decodeBitmap env_jpeg_content u).2
  = [LLImageBMP; LLImageTGA; LLImageJPEG] /\
  decoder_of (mExtension u) = LLImageBMP.
Proof. repeat split. Qed.

(** The decoder of the unit's format is the first one tried, and when its
    block succeeds no other decoder is tried. *)
Lemma decodeBitmap_first_decoder env u :
  exists rest, attempted (decodeBitmap env u).2 = decoder_of (mExtension u) :: rest.
Proof.
  unfold decodeBitmap, case_ET_IMG_BMP, case_ET_IMG_TGA, case_ET_IMG_JPG,
    case_ET_IMG_PNG, try_decoder.
  destruct (mExtension u); simpl;
    repeat match goal with
           | |- context [if ?b then _ else _] => destruct b; simpl
           end; eexists; reflexivity.
Qed.

(** ** Replacing an id by itself *)

(** C8. [replaceIDs] with [old_id] equal to [new_id] has a result, and it
    is the state it was given: object list (faces and sculpt ids), state of
    the wearables, rebake flag and call log are all unchanged, so no
    [sendTEUpdate] is issued and the flag is not set. *)
Theorem replaceIDs_same_id (env : Env) (id : LLUUID) (st : State) :
  replaceIDs env id id st = Some st.
Proof.
  unfold replaceIDs. destruct (decide (id = id)); [reflexivity | contradiction].
Qed.

(** ** The categories of the layer step and the lookup table *)

Lemma replaceIDs_unfold env old_id new_id st :
  replaceIDs env old_id new_id st
  = if decide (old_id = new_id) then Some st
    else
      st1 ← updateUserPrims old_id new_id st;
      Some (layers_step old_id
              (if decide (new_id = IMG_DEFAULT env) then IMG_DEFAULT_AVATAR env else new_id)
              (updateUserSculpts old_id new_id st1)).
Proof. reflexivity. Qed.

Lemma getTexIndex_populated type baked_texind :
  getTexIndex type baked_texind <> TEX_NUM_INDICES
  <-> (type, baked_texind) ∈ populated_mappings.
Proof.
  split.
  - intros Hmapped. unfold populated_mappings.
    destruct type, baked_texind; simpl in Hmapped;
      try contradiction;
      repeat (first [apply list_elem_of_here | apply list_elem_of_further]).
  - intros Hin. unfold populated_mappings in Hin.
    repeat (apply elem_of_cons in Hin as [Heq|Hin];
            [injection Heq as -> ->; simpl; discriminate|]).
    now apply elem_of_nil in Hin.
Qed.

(** C5, as the code has it. The layer step of [replaceIDs] is one call of
    [updateUserLayers] for each of 13 distinct wearable types, and
    [getTexIndex] yields a texture index other than [TEX_NUM_INDICES] for
    exactly 22 distinct pairs of wearable type and baked index. *)
Theorem thirteen_categories_22_mappings :
  (forall env old_id new_id st,
     replaceIDs env old_id new_id st
     = if decide (old_id = new_id) then Some st
       else
         st1 ← updateUserPrims old_id new_id st;
         Some (foldl (fun st type =>
                        updateUserLayers old_id
                          (if decide (new_id = IMG_DEFAULT env)
                           then IMG_DEFAULT_AVATAR env else new_id) type st)
                     (updateUserSculpts old_id new_id st1) layer_types)) /\
  length layer_types = 13 /\ NoDup layer_types /\
  (forall type baked_texind,
     getTexIndex type baked_texind <> TEX_NUM_INDICES
     <-> (type, baked_texind) ∈ populated_mappings) /\
  length populated_mappings = 22 /\ NoDup populated_mappings.
Proof.
  split; [intros; apply replaceIDs_unfold|].
  split; [reflexivity|].
  split; [compute_done|].
  split; [apply getTexIndex_populated|].
  split; [reflexivity|].
  compute_done.
Qed.

(** C5 as stated fails: with one worn instance of every type, each holding
    the old id on a mapped region, [replaceIDs] updates wearables of 13
    types, and 22 pairs of the named types and baked indices are mapped. *)
Lemma twelve_categories_27_mappings_counterexample :
  let updated :=
    updated_types (from_option calls [] (replaceIDs env_ok 500%N 600%N dressed_state)) in
  (length updated = 13 /\ NoDup updated /\ populated_count = 22) /\
  ~ (length updated = 12 /\ populated_count = 27).
Proof.
  split.
  - split; [reflexivity|]. split; [|reflexivity].
    compute_done.
  - intros [H12 _]. vm_compute in H12. discriminate.
Qed.

(** ** A combination the table does not map *)

Lemma texture_loop_unmapped old_id new_id type index seen lto unseen st :
  lto_ID lto = old_id ->
  getTexIndex type (lto_BakedTexIndex lto) = TEX_NUM_INDICES ->
  texture_loop old_id new_id type index (seen ++ Some lto :: unseen) st
  = ((texture_loop old_id new_id type index seen st).1, true).
Proof.
  intros Hid Hunmapped. revert st.
  induction seen as [|[lto'|] seen IH]; intros st; simpl.
  - rewrite Hunmapped.
    destruct (decide (lto_ID lto = old_id)); [|contradiction].
    destruct (decide (TEX_NUM_INDICES = TEX_NUM_INDICES)); [reflexivity | contradiction].
  - destruct (decide (lto_ID lto' = old_id)); [|apply IH].
    destruct (decide (getTexIndex type (lto_BakedTexIndex lto') = TEX_NUM_INDICES));
      [reflexivity | apply IH].
  - apply IH.
Qed.

Lemma wearable_loop_unmapped old_id new_id type before wearable after seen lto unseen :
  getLocalTextureListSeq wearable = seen ++ Some lto :: unseen ->
  lto_ID lto = old_id ->
  getTexIndex type (lto_BakedTexIndex lto) = TEX_NUM_INDICES ->
  forall wearable_iter st,
    wearable_loop old_id new_id type (before ++ Some wearable :: after) wearable_iter st
    = wearable_loop old_id new_id type (before ++ [Some (mkLLWearable seen)])
        wearable_iter st.
Proof.
  intros Hslots Hid Hunmapped.
  induction before as [|[w|] before IH]; intros wearable_iter st; simpl.
  - rewrite Hslots, texture_loop_unmapped by assumption.
    destruct (texture_loop old_id new_id type wearable_iter seen st) as [st' returned].
    now destruct returned.
  - destruct (texture_loop old_id new_id type wearable_iter
                (getLocalTextureListSeq w) st) as [st' returned].
    destruct returned; [reflexivity | apply IH].
  - reflexivity.
Qed.

(** C6, as the code has it. When a local texture that holds the old id sits
    on a combination of wearable type and baked index without table entry,
    no texture is set for it and [updateUserLayers] returns there: the call
    does what it would do if that worn instance ended just before the slot
    and were the last of its type. The slots after it and the later worn
    instances of the type are not looked at. *)
Theorem unmapped_slot_ends_the_category
    (old_id new_id : LLUUID) (type : EType) (st : State)
    (before after : list (option LLWearable)) (wearable : LLWearable)
    (seen unseen : list (option LLLocalTextureObject)) (lto : LLLocalTextureObject) :
  gAgentWearables st type = before ++ Some wearable :: after ->
  getLocalTextureListSeq wearable = seen ++ Some lto :: unseen ->
  lto_ID lto = old_id ->
  getTexIndex type (lto_BakedTexIndex lto) = TEX_NUM_INDICES ->
  updateUserLayers old_id new_id type st
  = wearable_loop old_id new_id type (before ++ [Some (mkLLWearable seen)]) 0 st.
Proof.
  intros Hworn Hslots Hid Hunmapped.
  unfold updateUserLayers. rewrite Hworn.
  now apply wearable_loop_unmapped with (lto := lto) (unseen := unseen).
Qed.

Lemma unmapped_slot_ends_the_category_witness :
  updateUserLayers 500%N 600%N WT_SHIRT two_shirts_state
  = wearable_loop 500%N 600%N WT_SHIRT [Some (mkLLWearable [])] 0 two_shirts_state.
Proof.
  exact (unmapped_slot_ends_the_category 500%N 600%N WT_SHIRT two_shirts_state
           []
           [Some (mkLLWearable [Some (mkLLLocalTextureObject 500%N BAKED_UPPER)])]
           (mkLLWearable [Some (mkLLLocalTextureObject 500%N BAKED_LOWER);
                          Some (mkLLLocalTextureObject 500%N BAKED_UPPER)])
           [] [Some (mkLLLocalTextureObject 500%N BAKED_UPPER)]
           (mkLLLocalTextureObject 500%N BAKED_LOWER)
           eq_refl eq_refl eq_refl eq_refl).
Defined.

(** C6 as stated fails: the first shirt has the old id on a combination
    without entry and then on a mapped one, the second shirt has it on a
    mapped one. Skipping the one slot would set two local textures; the
    code sets none. *)
Lemma unmapped_slot_skipped_counterexample :
  calls (updateUserLayers_skipping 500%N 600%N WT_SHIRT two_shirts_state)
  = [c_setLocalTexture TEX_UPPER_SHIRT 600%N 0; c_wearableUpdated WT_SHIRT;
     c_setLocalTexture TEX_UPPER_SHIRT 600%N 1; c_wearableUpdated WT_SHIRT] /\
  calls (updateUserLayers 500%N 600%N WT_SHIRT two_shirts_state) = [] /\
  updateUserLayers 500%N 600%N WT_SHIRT two_shirts_state
  <> updateUserLayers_skipping 500%N 600%N WT_SHIRT two_shirts_state.
Proof.
  split; [reflexivity|]. split; [reflexivity|].
  intros Heq. apply (f_equal sNeedsRebake) in Heq. discriminate Heq.
Qed.

(** ** Loops over an index range *)

Lemma foldl_seq_invariant {A} (f : A -> nat -> A) (Inv : nat -> A -> Prop) (a : A) (n : nat) :
  Inv 0 a ->
  (forall k x, k < n -> Inv k x -> Inv (S k) (f x k)) ->
  Inv n (foldl f a (seq 0 n)).
Proof.
  intros H0 Hstep. induction n as [|n IH].
  - exact H0.
  - rewrite seq_S, foldl_snoc. simpl. apply Hstep; [lia|].
    apply IH. intros k x Hk. apply Hstep. lia.
Qed.

Section map_upto.
Context {A : Type} (g : A -> A).
Implicit Types (l : list A) (m : nat).

Lemma map_upto_0 l : map_upto g 0 l = l.
Proof. unfold map_upto. now rewrite take_0, drop_0. Qed.

Lemma map_upto_S_insert l m x :
  l !! m = Some x -> map_upto g (S m) l = <[m := g x]> (map_upto g m l).
Proof.
  intros Hx. unfold map_upto.
  assert (m < length l) as Hm by (eapply lookup_lt_Some; eassumption).
  rewrite (take_S_r _ _ _ Hx), fmap_app, <- app_assoc. simpl.
  rewrite insert_app_r_alt by (rewrite length_fmap, length_take; lia).
  rewrite length_fmap, length_take_le by lia.
  rewrite Nat.sub_diag, (drop_S _ _ _ Hx). reflexivity.
Qed.

Lemma map_upto_lookup_ge l m j : m <= j -> map_upto g m l !! j = l !! j.
Proof.
  intros Hj. unfold map_upto.
  destruct (decide (m <= length l)) as [Hm|Hm].
  - rewrite lookup_app_r by (rewrite length_fmap, length_take; lia).
    rewrite length_fmap, length_take_le, lookup_drop by lia.
    f_equal. lia.
  - rewrite take_ge, drop_ge, app_nil_r by lia.
    rewrite !lookup_ge_None_2; [reflexivity | lia | rewrite length_fmap; lia].
Qed.

Lemma map_upto_lookup_lt l m j : j < m -> map_upto g m l !! j = g <$> l !! j.
Proof.
  intros Hj. unfold map_upto.
  destruct (decide (j < length l)) as [Hl|Hl].
  - rewrite lookup_app_l by (rewrite length_fmap, length_take; lia).
    now rewrite list_lookup_fmap, lookup_take_lt.
  - rewrite (lookup_ge_None_2 l) by lia. simpl.
    apply lookup_ge_None_2.
    rewrite length_app, length_fmap, length_take, length_drop. lia.
Qed.

Lemma map_upto_S_id l m x :
  l !! m = Some x -> g x = x -> map_upto g (S m) l = map_upto g m l.
Proof.
  intros Hx Hg. rewrite (map_upto_S_insert _ _ _ Hx), Hg.
  apply list_insert_id. now rewrite map_upto_lookup_ge.
Qed.

Lemma map_upto_S_ge l m : length l <= m -> map_upto g (S m) l = map_upto g m l.
Proof.
  intros Hm. unfold map_upto.
  now rewrite !take_ge, !drop_ge by lia.
Qed.

Lemma map_upto_all l m : length l <= m -> map_upto g m l = g <$> l.
Proof.
  intros Hm. unfold map_upto.
  now rewrite take_ge, drop_ge, app_nil_r by lia.
Qed.
End map_upto.

(** ** Calls and the log *)

Lemma extends_refl P st : extends P st st.
Proof.
  repeat split. exists []. rewrite app_nil_r. simpl.
  now rewrite orb_false_r.
Qed.

Lemma extends_trans P st1 st2 st3 :
  extends P st1 st2 -> extends P st2 st3 -> extends P st1 st3.
Proof.
  intros (Hw1 & Hf1 & Ht1 & new1 & Hc1 & HP1 & Hr1)
         (Hw2 & Hf2 & Ht2 & new2 & Hc2 & HP2 & Hr2).
  split; [congruence|]. split; [congruence|]. split; [congruence|].
  exists (new1 ++ new2).
  split; [rewrite Hc2, Hc1; now rewrite app_assoc|].
  split; [now apply Forall_app|].
  rewrite Hr2, Hr1, existsb_app. now rewrite orb_assoc.
Qed.

Lemma extends_weaken (P Q : Call -> Prop) st st' :
  (forall c, P c -> Q c) -> extends P st st' -> extends Q st st'.
Proof.
  intros HPQ (Hw & Hf & Ht & new & Hc & HP & Hr).
  repeat (split; [assumption|]). exists new.
  split; [assumption|]. split; [|assumption].
  eapply Forall_impl; eassumption.
Qed.

Lemma extends_emit (P : Call -> Prop) c st :
  P c -> is_setLocalTexture c = false -> extends P st (emit c st).
Proof.
  intros HP Hc. repeat split. exists [c]. simpl.
  split; [reflexivity|]. split; [now constructor|].
  rewrite Hc. simpl. now rewrite orb_false_r.
Qed.

Lemma face_counts_insert st i object object' :
  gObjectList st !! i = Some (Some object) ->
  mNumFaces object' = mNumFaces object ->
  fmap (M := option) mNumFaces <$> <[i := Some object']> (gObjectList st)
  = face_counts st.
Proof.
  intros Hi Hn. unfold face_counts.
  rewrite list_fmap_insert. apply list_insert_id.
  rewrite list_lookup_fmap, Hi. simpl. now rewrite Hn.
Qed.

Lemma extends_setTEImage (P : Call -> Prop) object_iter face_iter id st :
  P (c_setTEImage object_iter face_iter id) ->
  extends P st (setTEImage object_iter face_iter id st).
Proof.
  intros HP. unfold setTEImage.
  destruct (gObjectList st !! object_iter) as [[object|]|] eqn:Hobj;
    try (now apply extends_emit).
  split; [reflexivity|]. split.
  - unfold face_counts at 1. simpl. now apply face_counts_insert with object.
  - split; [reflexivity|]. exists [c_setTEImage object_iter face_iter id]. simpl.
    split; [reflexivity|]. split; [now constructor|]. now rewrite orb_false_r.
Qed.

Lemma extends_setParameterEntry (P : Call -> Prop) object_iter id st :
  P (c_setParameterEntry object_iter id) ->
  extends P st (setParameterEntry object_iter id st).
Proof.
  intros HP. unfold setParameterEntry.
  destruct (gObjectList st !! object_iter) as [[object|]|] eqn:Hobj;
    try (now apply extends_emit).
  split; [reflexivity|]. split.
  - unfold face_counts at 1. simpl. now apply face_counts_insert with object.
  - split; [reflexivity|]. exists [c_setParameterEntry object_iter id]. simpl.
    split; [reflexivity|]. split; [now constructor|]. now rewrite orb_false_r.
Qed.

Lemma extends_layer_update (P : Call -> Prop) reg_texind new_id index type st :
  P (c_setLocalTexture reg_texind new_id index) ->
  P (c_wearableUpdated type) ->
  extends P st
    (setNeedsRebake (wearableUpdated type (setLocalTexture reg_texind new_id index st))).
Proof.
  intros HP1 HP2. repeat split.
  exists [c_setLocalTexture reg_texind new_id index; c_wearableUpdated type]. simpl.
  split; [now rewrite <- app_assoc|]. split; [now repeat constructor|].
  now rewrite orb_true_r.
Qed.

(** ** updateUserPrims *)

Lemma rebind_object_0 old_id new_id object :
  rebind_object old_id new_id 0 object = object.
Proof.
  destruct object as [n [faces|] s]; unfold rebind_object; simpl;
    [now rewrite map_upto_0 | reflexivity].
Qed.

Lemma rebind_object_S_same old_id new_id k object :
  (forall faces, mDrawable object = Some faces -> faces !! k <> Some (Some old_id)) ->
  rebind_object old_id new_id (S k) object = rebind_object old_id new_id k object.
Proof.
  intros Hk. destruct object as [n [faces|] s]; unfold rebind_object; simpl;
    [|reflexivity].
  f_equal. f_equal.
  destruct (faces !! k) as [face|] eqn:Hface.
  - apply map_upto_S_id with face; [assumption|].
    unfold rebind. destruct (decide (face = Some old_id)) as [->|]; [|reflexivity].
    now destruct (Hk faces eq_refl).
  - apply map_upto_S_ge. now apply lookup_ge_None_1.
Qed.

Lemma rebind_object_S_hit old_id new_id k object faces :
  mDrawable object = Some faces ->
  faces !! k = Some (Some old_id) ->
  rebind_object old_id new_id (S k) object
  = mkLLViewerObject (mNumFaces object)
      (Some (<[k := Some new_id]> (map_upto (rebind old_id new_id) k faces)))
      (mSculptID object).
Proof.
  intros Hd Hface. unfold rebind_object. rewrite Hd. simpl.
  rewrite (map_upto_S_insert _ _ _ _ Hface). unfold rebind at 1.
  destruct (decide (Some old_id = Some old_id)); [reflexivity | contradiction].
Qed.

Lemma face_step_spec (P : Call -> Prop) old_id new_id object_iter k object st update_obj :
  (forall face_iter, P (c_setTEImage object_iter face_iter new_id)) ->
  gObjectList st !! object_iter = Some (Some (rebind_object old_id new_id k object)) ->
  let st' := (face_step old_id new_id object_iter (st, update_obj) k).1 in
  gObjectList st'
  = <[object_iter := Some (rebind_object old_id new_id (S k) object)]> (gObjectList st) /\
  extends P st st'.
Proof.
  intros HP Hobj. unfold face_step. rewrite Hobj.
  assert (forall st0 : State, gObjectList st0 = gObjectList st ->
            rebind_object old_id new_id (S k) object = rebind_object old_id new_id k object ->
            gObjectList st0
            = <[object_iter := Some (rebind_object old_id new_id (S k) object)]>
                (gObjectList st)) as Hsame.
  { intros st0 -> ->. symmetry. now apply list_insert_id. }
  destruct (mDrawable (rebind_object old_id new_id k object)) as [faces_k|] eqn:Hdk.
  - destruct (mDrawable object) as [faces|] eqn:Hd;
      [|unfold rebind_object in Hdk; rewrite Hd in Hdk; discriminate].
    assert (faces_k = map_upto (rebind old_id new_id) k faces) as ->.
    { unfold rebind_object in Hdk. rewrite Hd in Hdk. simpl in Hdk. congruence. }
    rewrite map_upto_lookup_ge by lia.
    destruct (faces !! k) as [[id|]|] eqn:Hface; simpl.
    + destruct (decide (id = old_id)) as [->|Hne]; simpl.
      * split; [|now apply extends_setTEImage].
        unfold setTEImage. rewrite Hobj. simpl.
        rewrite (rebind_object_S_hit _ _ _ _ _ Hd Hface).
        rewrite Hd. reflexivity.
      * split; [|apply extends_refl].
        apply Hsame; [reflexivity|]. apply rebind_object_S_same.
        intros faces' Hd'. rewrite Hd in Hd'. injection Hd' as <-.
        rewrite Hface. congruence.
    + split; [|apply extends_refl].
      apply Hsame; [reflexivity|]. apply rebind_object_S_same.
      intros faces' Hd'. rewrite Hd in Hd'. injection Hd' as <-.
      rewrite Hface. discriminate.
    + split; [|apply extends_refl].
      apply Hsame; [reflexivity|]. apply rebind_object_S_same.
      intros faces' Hd'. rewrite Hd in Hd'. injection Hd' as <-.
      rewrite Hface. discriminate.
  - simpl. split; [|apply extends_refl].
    apply Hsame; [reflexivity|]. apply rebind_object_S_same.
    intros faces' Hd'. unfold rebind_object in Hdk. rewrite Hd' in Hdk. discriminate.
Qed.

Lemma face_loop_spec (P : Call -> Prop) old_id new_id object_iter object st n :
  (forall face_iter, P (c_setTEImage object_iter face_iter new_id)) ->
  gObjectList st !! object_iter = Some (Some object) ->
  let st' := (foldl (face_step old_id new_id object_iter) (st, false) (seq 0 n)).1 in
  gObjectList st'
  = <[object_iter := Some (rebind_object old_id new_id n object)]> (gObjectList st) /\
  extends P st st'.
Proof.
  intros HP Hobj.
  assert (object_iter < length (gObjectList st)) as Hlen
    by (eapply lookup_lt_Some; eassumption).
  apply (foldl_seq_invariant (face_step old_id new_id object_iter)
           (fun k acc =>
              gObjectList acc.1
              = <[object_iter := Some (rebind_object old_id new_id k object)]>
                  (gObjectList st) /\
              extends P st acc.1)).
  - simpl. split; [|apply extends_refl].
    rewrite rebind_object_0. symmetry. now apply list_insert_id.
  - intros k [st_k update_obj] _ [Hlist Hext]. simpl in Hlist, Hext.
    destruct (face_step_spec P old_id new_id object_iter k object st_k update_obj HP)
      as [Hlist' Hext'].
    { rewrite Hlist. now apply list_lookup_insert_eq. }
    split; [|eapply extends_trans; eassumption].
    rewrite Hlist', Hlist. apply list_insert_insert_eq.
Qed.

Lemma faces_fit_U8_counts st st' :
  face_counts st' = face_counts st -> faces_fit_U8 st -> faces_fit_U8 st'.
Proof.
  intros Hcounts Hfit.
  assert (forall s, faces_fit_U8 s <->
            Forall (fun n => match n with Some k => k <= 255 | None => True end)
                   (face_counts s)) as Hiff.
  { intros s. unfold faces_fit_U8, face_counts. rewrite Forall_fmap.
    apply Forall_proper; [|reflexivity]. intros [object|]; reflexivity. }
  apply Hiff. rewrite Hcounts. now apply Hiff.
Qed.

Lemma updateUserPrims_spec (P : Call -> Prop) old_id new_id st :
  (forall object_iter face_iter, P (c_setTEImage object_iter face_iter new_id)) ->
  (forall object_iter, P (c_sendTEUpdate object_iter)) ->
  faces_fit_U8 st ->
  exists st',
    updateUserPrims old_id new_id st = Some st' /\
    gObjectList st' = rebind_slot old_id new_id <$> gObjectList st /\
    extends P st st'.
Proof.
  intros HPset HPsend Hfit. unfold updateUserPrims.
  pose proof (foldl_seq_invariant (object_step_prims old_id new_id)
    (fun m acc =>
       exists st_m, acc = Some st_m /\
         gObjectList st_m = map_upto (rebind_slot old_id new_id) m (gObjectList st) /\
         extends P st st_m)
    (Some st) (length (gObjectList st))) as Hloop.
  destruct Hloop as (st' & Hrun & Hlist & Hext).
  - exists st. split; [reflexivity|]. split; [now rewrite map_upto_0 | apply extends_refl].
  - intros k acc Hk (st_k & -> & Hlist & Hext). simpl.
    destruct (lookup_lt_is_Some_2 (gObjectList st) k Hk) as [slot Hslot].
    assert (gObjectList st_k !! k = Some slot) as Hslot_k
      by (rewrite Hlist, map_upto_lookup_ge by lia; exact Hslot).
    rewrite Hslot_k. destruct slot as [object|].
    + assert (mNumFaces object <= 255) as Hn
        by exact (Forall_lookup_1 _ _ _ _ Hfit Hslot).
      destruct (decide (255 < mNumFaces object)); [lia|].
      destruct (face_loop_spec P old_id new_id k object st_k (mNumFaces object)
                  (HPset k) Hslot_k) as [Hlist' Hext'].
      destruct (foldl (face_step old_id new_id k) (st_k, false)
                  (seq 0 (mNumFaces object))) as [st' update_obj].
      simpl in Hlist', Hext'.
      exists (if update_obj then sendTEUpdate k st' else st').
      split; [reflexivity|]. split.
      * rewrite (map_upto_S_insert _ _ _ _ Hslot). simpl. rewrite <- Hlist, <- Hlist'.
        now destruct update_obj.
      * apply extends_trans with st_k; [assumption|].
        destruct update_obj; [|assumption].
        apply extends_trans with st'; [assumption|].
        now apply extends_emit.
    + exists st_k. split; [reflexivity|]. split; [|assumption].
      now rewrite (map_upto_S_id _ _ _ _ Hslot eq_refl).
  - exists st'. split; [assumption|]. split; [|assumption].
    rewrite Hlist. now apply map_upto_all.
Qed.

(** ** updateUserSculpts *)

Lemma object_step_sculpts_spec (P : Call -> Prop) old_id new_id st k slot :
  P (c_setParameterEntry k new_id) ->
  gObjectList st !! k = Some slot ->
  gObjectList (object_step_sculpts old_id new_id st k)
  = <[k := resculpt_slot old_id new_id slot]> (gObjectList st) /\
  extends P st (object_step_sculpts old_id new_id st k).
Proof.
  intros HP Hslot. unfold object_step_sculpts. rewrite Hslot.
  assert (gObjectList st = <[k := slot]> (gObjectList st)) as Hid
    by (symmetry; now apply list_insert_id).
  destruct slot as [object|]; simpl; [|split; [exact Hid | apply extends_refl]].
  unfold resculpt_object.
  destruct (mSculptID object) as [id|] eqn:Hsculpt.
  - destruct (decide (id = old_id)) as [->|Hne].
    + destruct (decide (Some old_id = Some old_id)); [|contradiction].
      split; [|now apply extends_setParameterEntry].
      unfold setParameterEntry. now rewrite Hslot.
    + destruct (decide (Some id = Some old_id)); [congruence|].
      split; [exact Hid | apply extends_refl].
  - destruct (decide (None = Some old_id)); [discriminate|].
    split; [exact Hid | apply extends_refl].
Qed.

Lemma updateUserSculpts_spec (P : Call -> Prop) old_id new_id st :
  (forall object_iter, P (c_setParameterEntry object_iter new_id)) ->
  gObjectList (updateUserSculpts old_id new_id st)
  = resculpt_slot old_id new_id <$> gObjectList st /\
  extends P st (updateUserSculpts old_id new_id st).
Proof.
  intros HP. unfold updateUserSculpts.
  pose proof (foldl_seq_invariant (object_step_sculpts old_id new_id)
    (fun m st_m =>
       gObjectList st_m = map_upto (resculpt_slot old_id new_id) m (gObjectList st) /\
       extends P st st_m)
    st (length (gObjectList st))) as Hloop.
  destruct Hloop as (Hlist & Hext).
  - split; [now rewrite map_upto_0 | apply extends_refl].
  - intros k st_k Hk (Hlist & Hext).
    destruct (lookup_lt_is_Some_2 (gObjectList st) k Hk) as [slot Hslot].
    assert (gObjectList st_k !! k = Some slot) as Hslot_k
      by (rewrite Hlist, map_upto_lookup_ge by lia; exact Hslot).
    destruct (object_step_sculpts_spec P old_id new_id st_k k slot (HP k) Hslot_k)
      as [Hlist' Hext'].
    split; [|eapply extends_trans; eassumption].
    now rewrite Hlist', Hlist, (map_upto_S_insert _ _ _ _ Hslot).
  - split; [|assumption]. rewrite Hlist. now apply map_upto_all.
Qed.

(** ** updateUserLayers *)

Lemma texture_loop_spec (P : Call -> Prop) old_id new_id type index texture_list st :
  (forall te, P (c_setLocalTexture te new_id index)) ->
  P (c_wearableUpdated type) ->
  let st' := (texture_loop old_id new_id type index texture_list st).1 in
  gObjectList st' = gObjectList st /\ extends P st st'.
Proof.
  intros HPset HPupd. revert st.
  induction texture_list as [|[lto|] rest IH]; intros st; simpl.
  - split; [reflexivity | apply extends_refl].
  - destruct (decide (lto_ID lto = old_id)); [|apply IH].
    destruct (decide (getTexIndex type (lto_BakedTexIndex lto) = TEX_NUM_INDICES)).
    + split; [reflexivity | apply extends_refl].
    + match goal with
      | |- context [texture_loop _ _ _ _ rest ?s] => destruct (IH s) as [Hlist Hext]
      end.
      split; [rewrite Hlist; reflexivity|].
      eapply extends_trans; [|exact Hext].
      now apply extends_layer_update.
  - apply IH.
Qed.

Lemma wearable_loop_spec (P : Call -> Prop) old_id new_id type wearables :
  (forall te index, P (c_setLocalTexture te new_id index)) ->
  P (c_wearableUpdated type) ->
  forall wearable_iter st,
    let st' := wearable_loop old_id new_id type wearables wearable_iter st in
    gObjectList st' = gObjectList st /\ extends P st st'.
Proof.
  intros HPset HPupd.
  induction wearables as [|[wearable|] rest IH]; intros wearable_iter st; simpl.
  - split; [reflexivity | apply extends_refl].
  - destruct (texture_loop_spec P old_id new_id type wearable_iter
                (getLocalTextureListSeq wearable) st (fun te => HPset te wearable_iter) HPupd)
      as [Hlist Hext].
    destruct (texture_loop old_id new_id type wearable_iter
                (getLocalTextureListSeq wearable) st) as [st' returned].
    simpl in Hlist, Hext.
    destruct returned; [now split|].
    destruct (IH (S wearable_iter) st') as [Hlist' Hext'].
    split; [congruence | eapply extends_trans; eassumption].
  - split; [reflexivity | apply extends_refl].
Qed.

Lemma updateUserLayers_spec (P : Call -> Prop) old_id new_id type st :
  (forall te index, P (c_setLocalTexture te new_id index)) ->
  P (c_wearableUpdated type) ->
  gObjectList (updateUserLayers old_id new_id type st) = gObjectList st /\
  extends P st (updateUserLayers old_id new_id type st).
Proof. intros. now apply wearable_loop_spec. Qed.

Lemma layers_step_spec (P : Call -> Prop) old_id new_id st :
  (forall te index, P (c_setLocalTexture te new_id index)) ->
  (forall type, P (c_wearableUpdated type)) ->
  gObjectList (layers_step old_id new_id st) = gObjectList st /\
  extends P st (layers_step old_id new_id st).
Proof.
  intros HPset HPupd. unfold layers_step.
  generalize layer_types. intros types. revert st.
  induction types as [|type types IH]; intros st; simpl.
  - split; [reflexivity | apply extends_refl].
  - destruct (updateUserLayers_spec P old_id new_id type st HPset (HPupd type))
      as [Hlist Hext].
    destruct (IH (updateUserLayers old_id new_id type st)) as [Hlist' Hext'].
    split; [congruence | eapply extends_trans; eassumption].
Qed.

(** ** replaceIDs *)

Lemma replaceIDs_spec env old_id new_id st :
  faces_fit_U8 st ->
  exists st',
    replaceIDs env old_id new_id st = Some st' /\
    gObjectList st'
    = (if decide (old_id = new_id) then gObjectList st
       else resculpt_slot old_id new_id <$> (rebind_slot old_id new_id <$> gObjectList st)) /\
    extends (replace_call new_id
               (if decide (new_id = IMG_DEFAULT env) then IMG_DEFAULT_AVATAR env else new_id))
            st st'.
Proof.
  intros Hfit. rewrite replaceIDs_unfold.
  destruct (decide (old_id = new_id)) as [Heq|Hne].
  - exists st. split; [reflexivity|]. split; [reflexivity | apply extends_refl].
  - set (layer_id := if decide (new_id = IMG_DEFAULT env)
                     then IMG_DEFAULT_AVATAR env else new_id).
    destruct (updateUserPrims_spec (replace_call new_id layer_id) old_id new_id st)
      as (st1 & Hrun & Hlist1 & Hext1); [reflexivity | exact (fun _ => I) | assumption|].
    rewrite Hrun. simpl.
    destruct (updateUserSculpts_spec (replace_call new_id layer_id) old_id new_id st1)
      as [Hlist2 Hext2]; [reflexivity|].
    destruct (layers_step_spec (replace_call new_id layer_id) old_id layer_id
                (updateUserSculpts old_id new_id st1))
      as [Hlist3 Hext3]; [reflexivity | exact (fun _ => I) |].
    eexists. split; [reflexivity|]. split.
    + now rewrite Hlist3, Hlist2, Hlist1.
    + eapply extends_trans; [exact Hext1|].
      eapply extends_trans; [exact Hext2 | exact Hext3].
Qed.

Lemma extends_emitted P st st' :
  extends P st st' ->
  calls st' = calls st ++ emitted st st' /\
  Forall P (emitted st st') /\
  sNeedsRebake st' = sNeedsRebake st || existsb is_setLocalTexture (emitted st st').
Proof.
  intros (_ & _ & _ & new & Hcalls & HP & Hflag).
  unfold emitted. rewrite Hcalls, drop_app_length. auto.
Qed.

(** C7. [replaceIDs(old_id, IMG_DEFAULT)] has a result whenever the face
    counts fit the loop counter. In it every face within the face count of
    its object that showed [old_id] shows [IMG_DEFAULT], every sculpt id
    that was [old_id] is [IMG_DEFAULT], every [setTEImage] and
    [setParameterEntry] call made carries [IMG_DEFAULT], and every
    [setLocalTexture] call made carries [IMG_DEFAULT_AVATAR], which is not
    [IMG_DEFAULT]. *)
Theorem default_placeholder_only_for_layers (env : Env) (old_id : LLUUID) (st : State) :
  IMG_DEFAULT env <> IMG_DEFAULT_AVATAR env ->
  faces_fit_U8 st ->
  exists st',
    replaceIDs env old_id (IMG_DEFAULT env) st = Some st' /\
    (forall i object faces j,
       gObjectList st !! i = Some (Some object) ->
       mDrawable object = Some faces ->
       j < mNumFaces object ->
       faces !! j = Some (Some old_id) ->
       exists object' faces',
         gObjectList st' !! i = Some (Some object') /\
         mDrawable object' = Some faces' /\
         faces' !! j = Some (Some (IMG_DEFAULT env))) /\
    (forall i object,
       gObjectList st !! i = Some (Some object) ->
       mSculptID object = Some old_id ->
       exists object',
         gObjectList st' !! i = Some (Some object') /\
         mSculptID object' = Some (IMG_DEFAULT env)) /\
    (forall c, c ∈ emitted st st' ->
       match c with
       | c_setTEImage _ _ id | c_setParameterEntry _ id => id = IMG_DEFAULT env
       | c_setLocalTexture _ id _ => id = IMG_DEFAULT_AVATAR env /\ id <> IMG_DEFAULT env
       | _ => True
       end).
Proof.
  intros Hdistinct Hfit.
  destruct (replaceIDs_spec env old_id (IMG_DEFAULT env) st Hfit)
    as (st' & Hrun & Hlist & Hext).
  exists st'. split; [exact Hrun|].
  destruct (decide (IMG_DEFAULT env = IMG_DEFAULT env)); [|contradiction].
  split; [|split].
  - intros i object faces j Hi Hd Hj Hface.
    destruct (decide (old_id = IMG_DEFAULT env)) as [->|Hne].
    + exists object, faces. now rewrite Hlist.
    + rewrite Hlist, !list_lookup_fmap, Hi. simpl.
      eexists. eexists. split; [reflexivity|]. split.
      * unfold resculpt_object.
        destruct (decide (mSculptID
                            (rebind_object old_id (IMG_DEFAULT env) (mNumFaces object) object)
                          = Some old_id)); simpl; rewrite Hd; reflexivity.
      * rewrite map_upto_lookup_lt, Hface by assumption. simpl.
        unfold rebind.
        destruct (decide (Some old_id = Some old_id)); [reflexivity | contradiction].
  - intros i object Hi Hsculpt.
    destruct (decide (old_id = IMG_DEFAULT env)) as [->|Hne].
    + exists object. now rewrite Hlist.
    + rewrite Hlist, !list_lookup_fmap, Hi. simpl.
      eexists. split; [reflexivity|].
      unfold resculpt_object. simpl. rewrite Hsculpt.
      destruct (decide (Some old_id = Some old_id)); [reflexivity | contradiction].
  - intros c Hc.
    destruct (extends_emitted _ _ _ Hext) as (_ & Hall & _).
    rewrite Forall_forall in Hall. specialize (Hall c Hc).
    destruct c; simpl in Hall |- *; try exact I; try assumption.
    split; [assumption | congruence].
Qed.

Lemma default_placeholder_only_for_layers_witness :
  exists st',
    replaceIDs env_ok 500%N 1%N sample_world = Some st' /\
    (exists object' faces',
       gObjectList st' !! 0 = Some (Some object') /\
       mDrawable object' = Some faces' /\
       faces' !! 1 = Some (Some 1%N)) /\
    (exists object',
       gObjectList st' !! 0 = Some (Some object') /\ mSculptID object' = Some 1%N) /\
    (c_setLocalTexture TEX_UPPER_SHIRT 2%N 0 ∈ emitted sample_world st').
Proof.
  destruct (default_placeholder_only_for_layers env_ok 500%N sample_world)
    as (st' & Hrun & Hfaces & Hsculpts & Hcalls).
  - simpl. discriminate.
  - unfold faces_fit_U8. simpl. repeat constructor; lia.
  - exists st'. split; [exact Hrun|]. split; [|split].
    + apply (Hfaces 0 (mkLLViewerObject 2 (Some [Some 500%N; Some 500%N]) (Some 500%N))
               [Some 500%N; Some 500%N] 1); [reflexivity | reflexivity | simpl; lia | reflexivity].
    + apply (Hsculpts 0 (mkLLViewerObject 2 (Some [Some 500%N; Some 500%N]) (Some 500%N)));
        reflexivity.
    + vm_compute in Hrun. injection Hrun as <-. vm_compute.
      repeat (first [apply list_elem_of_here | apply list_elem_of_further]).
Defined.

(** ** The update pass *)

Lemma replace_call_no_rebake new_id layer_id c :
  replace_call new_id layer_id c -> no_rebake c.
Proof. destruct c; simpl; try contradiction; reflexivity. Qed.

Lemma extends_set_sGenerated P n st : extends P st (set_sGenerated n st).
Proof. apply (extends_refl P st). Qed.

Lemma findImage_emit id c st :
  findImage id (emit c st)
  = match c with
    | c_addImage id' => if decide (id' = id) then true else findImage id st
    | c_deleteImage id' => if decide (id' = id) then false else findImage id st
    | _ => findImage id st
    end.
Proof. unfold findImage, emit. simpl. rewrite foldl_app. reflexivity. Qed.

Lemma findImage_frame id st st' new :
  calls st' = calls st ++ new ->
  Forall (fun c => texture_list_call c = false) new ->
  findImage id st' = findImage id st.
Proof.
  intros Hcalls Hnew. unfold findImage. rewrite Hcalls, foldl_app. clear Hcalls.
  generalize (foldl (fun found c =>
                       match c with
                       | c_addImage id' => if decide (id' = id) then true else found
                       | c_deleteImage id' => if decide (id' = id) then false else found
                       | _ => found
                       end) false (calls st)).
  induction Hnew as [|c new Hc _ IH]; intros found; simpl; [reflexivity|].
  destruct c; simpl in Hc; try discriminate; apply IH.
Qed.

Lemma replace_call_texture_list new_id layer_id c :
  replace_call new_id layer_id c -> texture_list_call c = false.
Proof. destruct c; simpl; try contradiction; reflexivity. Qed.

Lemma findImage_replaceIDs P id st st' new_id layer_id :
  (forall c, P c -> replace_call new_id layer_id c) ->
  extends P st st' -> findImage id st' = findImage id st.
Proof.
  intros HP (_ & _ & _ & new & Hcalls & Hnew & _).
  apply findImage_frame with new; [exact Hcalls|].
  eapply Forall_impl; [exact Hnew|].
  intros c Hc. eapply replace_call_texture_list, HP, Hc.
Qed.

Lemma updateSelf_old_id u :
  (if negb false && negb (isNull (mWorldID u)) then mWorldID u else LLUUID_null)
  = mWorldID u.
Proof.
  unfold isNull. simpl. case_bool_decide as Hnull; [symmetry; exact Hnull | reflexivity].
Qed.

(** The texture list after the calls of a refresh that is not the first
    one: the new id is added, the old one deleted. *)
Lemma findImage_refreshed id old_id world_id st st1 st2 :
  calls st1 = calls st ++ [c_addImage world_id] ->
  findImage id st2 = findImage id st1 ->
  findImage id (deleteImage old_id st2)
  = (if decide (old_id = id) then false
     else if decide (world_id = id) then true else findImage id st).
Proof.
  intros Hcalls Hframe. unfold deleteImage. rewrite findImage_emit, Hframe.
  unfold findImage at 1. rewrite Hcalls, foldl_app. reflexivity.
Qed.

Lemma updateSelf_spec env first_update st u :
  faces_fit_U8 st ->
  (first_update = false -> publishes env u = true -> findImage (mWorldID u) st = true) ->
  exists r st' u',
    updateSelf env first_update st u = Some (r, st', u') /\
    extends no_rebake st st' /\
    (forall id, id <> mWorldID u -> findImage id st = true -> findImage id st' = true) /\
    (publishes env u = false -> st' = st).
Proof.
  intros Hfit Hreg. unfold updateSelf. unfold publishes in *.
  destruct (mLinkStatus u);
    [|do 3 eexists; split; [reflexivity|]; split; [apply extends_refl | auto]].
  destruct (fileExists env (mFilename u)); simpl negb; cbv iota;
    [|do 3 eexists; split; [reflexivity|]; split; [apply extends_refl | auto]].
  destruct (decide (mLastModified u = last_write_time env (mFilename u))) as [|Hstamp];
    [do 3 eexists; split; [reflexivity|]; split; [apply extends_refl | auto]|].
  rewrite (bool_decide_eq_false_2 _ Hstamp) in *.
  destruct ((decodeBitmap env u).1).
  - rewrite bool_decide_eq_true_2 in * by reflexivity. simpl in Hreg.
    set (world_id := generate env (sGenerated st)).
    set (st1 := addImage world_id (set_sGenerated (S (sGenerated st)) st)).
    assert (extends no_rebake st st1) as Hext1.
    { apply extends_trans with (set_sGenerated (S (sGenerated st)) st);
        [apply extends_set_sGenerated | now apply extends_emit]. }
    destruct first_update.
    + simpl. do 3 eexists. split; [reflexivity|]. split; [exact Hext1|].
      split; [|discriminate].
      intros id _ Hid. unfold st1, addImage. rewrite findImage_emit.
      destruct (decide (world_id = id)); [reflexivity | exact Hid].
    + rewrite updateSelf_old_id. simpl negb. cbv iota.
      destruct (replaceIDs_spec env (mWorldID u) world_id st1) as (st2 & Hrun & _ & Hext2).
      { destruct Hext1 as (_ & Hcounts & _). now apply faces_fit_U8_counts with st. }
      rewrite Hrun. simpl.
      pose proof (fun id => findImage_replaceIDs _ id _ _ _ _ (fun c Hc => Hc) Hext2)
        as Hframe.
      assert (findImage (mWorldID u) st2 = true) as Hfound.
      { rewrite Hframe. unfold st1, addImage. rewrite findImage_emit.
        destruct (decide (world_id = mWorldID u)); [reflexivity | now apply Hreg]. }
      rewrite Hfound. do 3 eexists. split; [reflexivity|]. split; [|split; [|discriminate]].
      * apply extends_trans with st1; [assumption|].
        apply extends_trans with st2.
        -- eapply extends_weaken; [apply replace_call_no_rebake | exact Hext2].
        -- now apply extends_emit.
      * intros id Hid Hin.
        rewrite (findImage_refreshed id (mWorldID u) world_id st st1 st2);
          [|reflexivity | apply Hframe].
        destruct (decide (mWorldID u = id)); [congruence|].
        destruct (decide (world_id = id)); [reflexivity | exact Hin].
  - destruct (decide (mUpdateRetries u <> 0%Z));
      do 3 eexists; (split; [reflexivity|]; split; [apply extends_refl | auto]).
Qed.

Lemma textures_registered_cons env st unit rest :
  textures_registered env st (unit :: rest) ->
  (publishes env unit = true -> findImage (mWorldID unit) st = true) /\
  forall st',
    (publishes env unit = false -> st' = st) ->
    (forall id, id <> mWorldID unit -> findImage id st = true -> findImage id st' = true) ->
    textures_registered env st' rest.
Proof.
  unfold textures_registered. rewrite filter_cons.
  destruct (decide (publishes env unit = true)) as [Hpub|Hno].
  - rewrite fmap_cons, Forall_cons, NoDup_cons. intros [[Hfound Hrest] [Hnew Hids]].
    split; [intros _; exact Hfound|]. intros st' _ Hframe. split; [|exact Hids].
    rewrite Forall_forall in Hrest. apply Forall_forall. intros other Hin.
    apply Hframe; [|now apply Hrest].
    intros Heq. apply Hnew. rewrite <- Heq. now apply list_elem_of_fmap_2.
  - intros Hreg. split; [intros Hpub; contradiction|].
    intros st' Hsame _. rewrite Hsame; [exact Hreg|].
    now destruct (publishes env unit).
Qed.

Lemma update_all_spec env sBitmapList st :
  faces_fit_U8 st ->
  textures_registered env st sBitmapList ->
  exists st' sBitmapList',
    update_all env sBitmapList st = Some (st', sBitmapList') /\
    length sBitmapList' = length sBitmapList /\
    extends no_rebake st st'.
Proof.
  revert st. induction sBitmapList as [|unit rest IH]; intros st Hfit Hreg; simpl.
  - exists st, []. split; [reflexivity|]. split; [reflexivity | apply extends_refl].
  - apply textures_registered_cons in Hreg as [Hhead Hrest].
    destruct (updateSelf_spec env false st unit Hfit (fun _ => Hhead))
      as (r & st1 & unit' & Hrun & Hext & Hframe & Hquiet).
    rewrite Hrun. simpl.
    destruct (IH st1) as (st2 & rest' & Hloop & Hlen & Hext').
    { destruct Hext as (_ & Hcounts & _). now apply faces_fit_U8_counts with st. }
    { now apply Hrest. }
    rewrite Hloop. simpl.
    exists st2, (unit' :: rest'). split; [reflexivity|].
    split; [simpl; now rewrite Hlen | eapply extends_trans; eassumption].
Qed.

Lemma count_calls_app p cs1 cs2 :
  count_calls p (cs1 ++ cs2) = count_calls p cs1 + count_calls p cs2.
Proof. unfold count_calls. now rewrite filter_app, length_app. Qed.

Lemma count_calls_no_rebake cs :
  Forall no_rebake cs -> count_calls is_forceBakeAllTextures cs = 0.
Proof.
  induction 1 as [|c cs Hc _ IH]; [reflexivity|].
  unfold count_calls in *. rewrite filter_cons.
  destruct (decide (is_forceBakeAllTextures c = true)) as [Htrue|_]; [|exact IH].
  unfold no_rebake in Hc. congruence.
Qed.

(** C4. [doUpdates] has a result whenever the face counts fit the loop
    counter and the textures the pass replaces are in the texture list
    under pairwise different ids (the refresh of a unit dereferences what
    [findImage] gives for its old world id), for every such registry and
    every initial value of the rebake flag, which it overwrites. Among the
    calls it makes there is exactly one
    [forceBakeAllTextures] if some [setLocalTexture] was made during the
    pass (a local texture of a worn wearable was retargeted, which sets the
    flag), and none otherwise. Afterwards the flag is clear and the timer
    runs. *)
Theorem doUpdates_rebakes_at_most_once
    (env : Env) (st : State) (sBitmapList : list LLLocalBitmap) :
  faces_fit_U8 st ->
  textures_registered env st sBitmapList ->
  exists st' sBitmapList',
    doUpdates env st sBitmapList = Some (st', sBitmapList') /\
    length sBitmapList' = length sBitmapList /\
    count_calls is_forceBakeAllTextures (emitted st st')
    = (if existsb is_setLocalTexture (emitted st st') then 1 else 0) /\
    sNeedsRebake st' = false /\
    sTimerStarted st' = true /\
    (forall b, doUpdates env (set_sNeedsRebake b st) sBitmapList
               = doUpdates env st sBitmapList).
Proof.
  intros Hfit Hreg. unfold doUpdates.
  destruct (update_all_spec env sBitmapList (set_sNeedsRebake false (stopTimer st))
              Hfit Hreg)
    as (st1 & units' & Hrun & Hlen & Hext).
  rewrite Hrun. simpl.
  destruct Hext as (_ & _ & _ & new & Hcalls & Hnew & Hflag).
  simpl in Hcalls, Hflag.
  exists (startTimer (doRebake st1)), units'.
  split; [reflexivity|]. split; [assumption|].
  assert (calls (startTimer (doRebake st1))
          = calls st ++ new ++ (if existsb is_setLocalTexture new
                                then [c_forceBakeAllTextures LL_LOCAL_SLAM_FOR_DEBUG]
                                else [])
          /\ sNeedsRebake (startTimer (doRebake st1)) = false) as [Hlog Hclear].
  { unfold doRebake. rewrite Hflag.
    destruct (existsb is_setLocalTexture new); simpl.
    - rewrite Hcalls. now rewrite <- app_assoc.
    - rewrite Hcalls, app_nil_r. now split. }
  split; [|split; [exact Hclear | split; [reflexivity|]]].
  2: { intros b.
       change (set_sNeedsRebake false (stopTimer (set_sNeedsRebake b st)))
         with (set_sNeedsRebake false (stopTimer st)).
       now rewrite Hrun. }
  unfold emitted. rewrite Hlog, drop_app_length.
  rewrite count_calls_app, existsb_app, (count_calls_no_rebake new Hnew).
  destruct (existsb is_setLocalTexture new); reflexivity.
Qed.

Lemma doUpdates_rebakes_at_most_once_witness :
  let unit := mkLLLocalBitmap "/tmp/picture.png" "picture" 77%N 500%N true "0"
                LS_ON ET_IMG_PNG 5 in
  exists st' sBitmapList',
    doUpdates env_ok sample_world_registered [unit] = Some (st', sBitmapList') /\
    count_calls is_forceBakeAllTextures (emitted sample_world_registered st') = 1 /\
    existsb is_setLocalTexture (emitted sample_world_registered st') = true /\
    sNeedsRebake st' = false.
Proof.
  intros unit.
  destruct (doUpdates_rebakes_at_most_once env_ok sample_world_registered [unit])
    as (st' & units' & Hrun & _ & Hcount & Hclear & _).
  - unfold faces_fit_U8. simpl. repeat constructor; lia.
  - split; [repeat constructor | compute_done].
  - exists st', units'. split; [exact Hrun|].
    assert (existsb is_setLocalTexture (emitted sample_world_registered st') = true) as Hset
      by (vm_compute in Hrun; injection Hrun as <- _; reflexivity).
    rewrite Hset in Hcount. auto.
Defined.

(** * Further properties *)

(** ** The retry budget *)

Lemma updateSelf_seq_LS_BROKEN (passes : list (Env * bool * State)) (u : LLLocalBitmap) :
  mLinkStatus u = LS_BROKEN ->
  updateSelf_seq passes u = Some (map (fun p => (false, p.2)) passes, u).
Proof.
  intros Hb. induction passes as [|[[env first_update] st] rest IH]; simpl.
  - reflexivity.
  - rewrite updateSelf_LS_BROKEN by assumption. simpl. now rewrite IH.
Qed.

Lemma updateSelf_decode_fails env first_update st u :
  mLinkStatus u = LS_ON ->
  decode_fails env u ->
  updateSelf env first_update st u
  = Some (false, st,
          if decide (mUpdateRetries u <> 0%Z)
          then set_mUpdateRetries (S32_wrap (mUpdateRetries u - 1)) u
          else set_mLinkStatus LS_BROKEN u).
Proof.
  intros Hon (Hexists & Hstamp & Hdecode).
  unfold updateSelf. rewrite Hon, Hexists, Hdecode. simpl.
  destruct (decide (mLastModified u = last_write_time env (mFilename u)));
    [contradiction|].
  now destruct (decide (mUpdateRetries u <> 0%Z)).
Qed.

(** X1. A unit that is [LS_ON] with [r] retries left, refreshed [n] times in
    environments where its file exists with a new time stamp and does not
    decode: every call returns false and leaves its state alone; the
    counter ends at [max 0 (r - n)]; the unit is still [LS_ON] when
    [n <= r] and [LS_BROKEN] from the failure number [r + 1] on. With the
    initial value 5 the sixth failed decode breaks the link. *)
Theorem retries_run_out (passes : list (Env * bool * State)) (u : LLLocalBitmap) :
  mLinkStatus u = LS_ON ->
  (0 <= mUpdateRetries u < 2 ^ 31)%Z ->
  Forall (fun p => decode_fails p.1.1 u) passes ->
  exists u',
    updateSelf_seq passes u = Some (map (fun p => (false, p.2)) passes, u') /\
    mUpdateRetries u' = Z.max 0 (mUpdateRetries u - Z.of_nat (length passes)) /\
    mLinkStatus u'
    = (if decide (Z.of_nat (length passes) <= mUpdateRetries u)%Z
       then LS_ON else LS_BROKEN) /\
    mWorldID u' = mWorldID u /\
    mLastModified u' = mLastModified u.
Proof.
  intros Hon Hrange Hfail. revert u Hon Hrange Hfail.
  induction passes as [|[[env first_update] st] rest IH]; intros u Hon Hrange Hfail.
  - exists u. simpl. split; [reflexivity|].
    split; [lia|]. split; [|now split].
    case_decide; [assumption | simpl in *; lia].
  - apply Forall_cons in Hfail as [Hfirst Hrest]. simpl in Hfirst.
    cbn [updateSelf_seq]. rewrite updateSelf_decode_fails by assumption.
    destruct (decide (mUpdateRetries u <> 0%Z)) as [Hnz|Hz].
    + set (u1 := set_mUpdateRetries (S32_wrap (mUpdateRetries u - 1)) u).
      assert (mUpdateRetries u1 = (mUpdateRetries u - 1)%Z) as Hr1
        by (apply S32_wrap_id; lia).
      destruct (IH u1) as (u' & Hrun & Hretries & Hstatus & Hid & Hstamp).
      * exact Hon.
      * lia.
      * eapply Forall_impl; [exact Hrest|].
        intros p (He & Hs & Hd). split; [exact He|]. split; [exact Hs|].
        exact Hd.
      * exists u'. simpl. rewrite Hrun. simpl.
        split; [reflexivity|]. rewrite Hretries, Hstatus, Hr1.
        split; [lia|]. split; [|now split].
        repeat case_decide; try reflexivity; simpl in *; lia.
    + exists (set_mLinkStatus LS_BROKEN u). simpl.
      rewrite updateSelf_seq_LS_BROKEN by reflexivity. simpl.
      split; [reflexivity|]. split; [lia|]. split; [|now split].
      case_decide; [simpl in *; lia | reflexivity].
Qed.

Lemma retries_run_out_witness :
  let u := sample_unit ET_IMG_PNG LS_ON LL_LOCAL_UPDATE_RETRIES in
  (exists u',
     updateSelf_seq (replicate 5 (env_undecodable, false, empty_state)) u
     = Some (replicate 5 (false, empty_state), u') /\
     mUpdateRetries u' = 0%Z /\ mLinkStatus u' = LS_ON) /\
  (exists u',
     updateSelf_seq (replicate 6 (env_undecodable, false, empty_state)) u
     = Some (replicate 6 (false, empty_state), u') /\
     mUpdateRetries u' = 0%Z /\ mLinkStatus u' = LS_BROKEN).
Proof.
  intros u.
  assert (decode_fails env_undecodable u) as Hfail
    by (split; [reflexivity | split; [discriminate | reflexivity]]).
  split.
  - destruct (retries_run_out (replicate 5 (env_undecodable, false, empty_state)) u)
      as (u' & Hrun & Hretries & Hstatus & _).
    + reflexivity.
    + unfold u, LL_LOCAL_UPDATE_RETRIES. simpl. lia.
    + simpl. repeat (apply Forall_cons; split; [exact Hfail|]). constructor.
    + exists u'. split; [exact Hrun|]. split; [exact Hretries | exact Hstatus].
  - destruct (retries_run_out (replicate 6 (env_undecodable, false, empty_state)) u)
      as (u' & Hrun & Hretries & Hstatus & _).
    + reflexivity.
    + unfold u, LL_LOCAL_UPDATE_RETRIES. simpl. lia.
    + simpl. repeat (apply Forall_cons; split; [exact Hfail|]). constructor.
    + exists u'. split; [exact Hrun|]. split; [exact Hretries | exact Hstatus].
Defined.

(** ** What a refresh changes *)

Lemma publishes_true env u :
  publishes env u = true <->
  mLinkStatus u = LS_ON /\ fileExists env (mFilename u) = true /\
  mLastModified u <> last_write_time env (mFilename u) /\
  (decodeBitmap env u).1 = true.
Proof.
  unfold publishes. rewrite !andb_true_iff, negb_true_iff.
  rewrite bool_decide_eq_true, bool_decide_eq_false. tauto.
Qed.

Ltac unit_facts :=
  repeat split; simpl;
  first [ reflexivity | assumption | discriminate
        | intros;
          first [assumption | discriminate | congruence | lia | rewrite S32_wrap_id; lia] ].

Lemma updateSelf_no_publish env first_update st u :
  publishes env u = false ->
  exists u',
    updateSelf env first_update st u = Some (false, st, u') /\
    mWorldID u' = mWorldID u /\
    mLastModified u' = mLastModified u /\
    identity_of u' = identity_of u /\
    (mLinkStatus u' = LS_ON -> mLinkStatus u = LS_ON) /\
    ((0 <= mUpdateRetries u < 2 ^ 31)%Z ->
     (0 <= mUpdateRetries u' <= mUpdateRetries u)%Z).
Proof.
  intros Hno. unfold updateSelf.
  destruct (mLinkStatus u) eqn:Hstatus; [|eexists; unit_facts].
  destruct (fileExists env (mFilename u)) eqn:Hexists; simpl; [|eexists; unit_facts].
  destruct (decide (mLastModified u = last_write_time env (mFilename u))) as [Heq|Hne];
    [eexists; unit_facts|].
  destruct ((decodeBitmap env u).1) eqn:Hdecode.
  - exfalso. rewrite (proj2 (publishes_true env u)) in Hno; [discriminate | auto].
  - destruct (decide (mUpdateRetries u <> 0%Z)); eexists; unit_facts.
Qed.

(** X2. When [updateSelf] does not get a decoded image (the unit is
    broken, the file is missing, the time stamp is the stored one, or the
    decoder fails), it returns false, whatever [first_update] is and however
    many faces the objects have; the state is untouched, and the unit keeps
    its world id, its time stamp and the members that name it. Only the
    link status and the retry counter can differ. *)
Theorem failed_refresh_publishes_nothing env first_update st u :
  publishes env u = false ->
  exists u',
    updateSelf env first_update st u = Some (false, st, u') /\
    mWorldID u' = mWorldID u /\
    mLastModified u' = mLastModified u /\
    identity_of u' = identity_of u.
Proof.
  intros Hno.
  destruct (updateSelf_no_publish env first_update st u Hno)
    as (u' & Hrun & Hid & Hstamp & Hident & _).
  exists u'. auto.
Qed.

Lemma failed_refresh_publishes_nothing_witness :
  exists u',
    updateSelf env_undecodable false sample_world (sample_unit ET_IMG_TGA LS_ON 2)
    = Some (false, sample_world, u') /\
    mWorldID u' = 500%N /\
    mLastModified u' = "0" /\
    identity_of u' = identity_of (sample_unit ET_IMG_TGA LS_ON 2).
Proof.
  exact (failed_refresh_publishes_nothing env_undecodable false sample_world
           (sample_unit ET_IMG_TGA LS_ON 2) eq_refl).
Defined.

(** [replaceIDs] draws no id from the generator. *)
Lemma setTEImage_sGenerated i j id st :
  sGenerated (setTEImage i j id st) = sGenerated st.
Proof. unfold setTEImage. now destruct (gObjectList st !! i) as [[o|]|]. Qed.

Lemma setParameterEntry_sGenerated i id st :
  sGenerated (setParameterEntry i id st) = sGenerated st.
Proof. unfold setParameterEntry. now destruct (gObjectList st !! i) as [[o|]|]. Qed.

Lemma face_step_sGenerated old_id new_id i acc k :
  sGenerated (face_step old_id new_id i acc k).1 = sGenerated acc.1.
Proof.
  destruct acc as [st update_obj]. unfold face_step.
  destruct (gObjectList st !! i) as [[object|]|]; try reflexivity.
  destruct (mDrawable object) as [faces|]; try reflexivity.
  destruct (faces !! k) as [[id|]|]; try reflexivity.
  destruct (decide (id = old_id)); [apply setTEImage_sGenerated | reflexivity].
Qed.

Lemma updateUserPrims_sGenerated old_id new_id st st' :
  updateUserPrims old_id new_id st = Some st' -> sGenerated st' = sGenerated st.
Proof.
  unfold updateUserPrims.
  pose proof (foldl_seq_invariant (object_step_prims old_id new_id)
    (fun _ acc => forall s, acc = Some s -> sGenerated s = sGenerated st)
    (Some st) (length (gObjectList st))) as Hloop.
  apply Hloop.
  - now intros s [= <-].
  - intros k [st_k|] _ Hk s; simpl; [|discriminate].
    specialize (Hk st_k eq_refl).
    destruct (gObjectList st_k !! k) as [[object|]|]; try (now intros [= <-]).
    destruct (decide (255 < mNumFaces object)); [discriminate|].
    pose proof (foldl_seq_invariant (face_step old_id new_id k)
      (fun _ acc => sGenerated acc.1 = sGenerated st_k)
      (st_k, false) (mNumFaces object) eq_refl) as Hfaces.
    destruct (foldl (face_step old_id new_id k) (st_k, false)
                (seq 0 (mNumFaces object))) as [st1 update_obj].
    simpl in Hfaces. intros [= <-].
    rewrite <- Hk, <- Hfaces.
    + now destruct update_obj.
    + intros j acc _ Hacc. now rewrite face_step_sGenerated.
Qed.

Lemma updateUserSculpts_sGenerated old_id new_id st :
  sGenerated (updateUserSculpts old_id new_id st) = sGenerated st.
Proof.
  unfold updateUserSculpts.
  apply (foldl_seq_invariant (object_step_sculpts old_id new_id)
           (fun _ s => sGenerated s = sGenerated st)); [reflexivity|].
  intros k s _ Hs. unfold object_step_sculpts.
  destruct (gObjectList s !! k) as [[object|]|]; try assumption.
  destruct (mSculptID object) as [id|]; try assumption.
  destruct (decide (id = old_id)); [|assumption].
  now rewrite setParameterEntry_sGenerated.
Qed.

Lemma texture_loop_sGenerated old_id new_id type index texture_list st :
  sGenerated (texture_loop old_id new_id type index texture_list st).1 = sGenerated st.
Proof.
  revert st. induction texture_list as [|[lto|] rest IH]; intros st; simpl;
    try reflexivity; try apply IH.
  destruct (decide (lto_ID lto = old_id)); [|apply IH].
  destruct (decide (getTexIndex type (lto_BakedTexIndex lto) = TEX_NUM_INDICES));
    [reflexivity|].
  now rewrite IH.
Qed.

Lemma wearable_loop_sGenerated old_id new_id type wearables wearable_iter st :
  sGenerated (wearable_loop old_id new_id type wearables wearable_iter st) = sGenerated st.
Proof.
  revert wearable_iter st.
  induction wearables as [|[wearable|] rest IH]; intros wearable_iter st; simpl;
    try reflexivity.
  pose proof (texture_loop_sGenerated old_id new_id type wearable_iter
                (getLocalTextureListSeq wearable) st) as Hinner.
  destruct (texture_loop old_id new_id type wearable_iter
              (getLocalTextureListSeq wearable) st) as [st' returned].
  simpl in Hinner. destruct returned; [assumption|].
  now rewrite IH.
Qed.

Lemma layers_step_sGenerated old_id new_id st :
  sGenerated (layers_step old_id new_id st) = sGenerated st.
Proof.
  unfold layers_step. generalize layer_types. intros types. revert st.
  induction types as [|type types IH]; intros st; simpl; [reflexivity|].
  rewrite IH. apply wearable_loop_sGenerated.
Qed.

Lemma replaceIDs_sGenerated env old_id new_id st st' :
  replaceIDs env old_id new_id st = Some st' -> sGenerated st' = sGenerated st.
Proof.
  rewrite replaceIDs_unfold.
  destruct (decide (old_id = new_id)); [now intros [= <-]|].
  destruct (updateUserPrims old_id new_id st) as [st1|] eqn:Hprims; [|discriminate].
  cbn [mbind option_bind]. intros [= <-].
  etransitivity; [apply layers_step_sGenerated|].
  etransitivity; [apply updateUserSculpts_sGenerated|].
  now apply updateUserPrims_sGenerated with old_id new_id.
Qed.

(** X3. A refresh that is not the first one and gets a decoded image, in a
    state whose face counts fit the loop counter. [replaceIDs] from the old
    to the new id runs after [addImage] of the new id and has a result.
    When the old world id is in the texture list, the refresh returns
    true; the unit has the next id of the generator as world id and the
    time stamp of the file, and keeps its retry counter; exactly one id was
    drawn; the calls made are [addImage] of the new id, then exactly the
    calls of that [replaceIDs], then [deleteImage] of the old id; the new
    id is then in the texture list and the old one is not; a second refresh
    right after, in the same environment, returns false and changes
    nothing. When the old world id is not in the texture list (a null
    world id, say) and the new id differs from it, the refresh has no
    result: [unref] is called on the null pointer [findImage] gave. *)
Theorem successful_refresh env st u :
  publishes env u = true ->
  faces_fit_U8 st ->
  let world_id := generate env (sGenerated st) in
  let st1 := addImage world_id (set_sGenerated (S (sGenerated st)) st) in
  exists st2,
    replaceIDs env (mWorldID u) world_id st1 = Some st2 /\
    (findImage (mWorldID u) st = true ->
     exists u',
       let st' := deleteImage (mWorldID u) st2 in
       updateSelf env false st u = Some (true, st', u') /\
       mWorldID u' = world_id /\
       mLastModified u' = last_write_time env (mFilename u) /\
       mUpdateRetries u' = mUpdateRetries u /\
       mLinkStatus u' = LS_ON /\
       sGenerated st' = S (sGenerated st) /\
       emitted st st'
       = c_addImage world_id :: emitted st1 st2 ++ [c_deleteImage (mWorldID u)] /\
       Forall (replace_call world_id
                 (if decide (world_id = IMG_DEFAULT env)
                  then IMG_DEFAULT_AVATAR env else world_id)) (emitted st1 st2) /\
       (world_id <> mWorldID u ->
        findImage world_id st' = true /\ findImage (mWorldID u) st' = false) /\
       updateSelf env false st' u' = Some (false, st', u')) /\
    (findImage (mWorldID u) st = false ->
     world_id <> mWorldID u ->
     updateSelf env false st u = None).
Proof.
  intros Hpub Hfit world_id st1.
  apply publishes_true in Hpub as (Hon & Hexists & Hstamp & Hdecode).
  destruct (replaceIDs_spec env (mWorldID u) world_id st1 Hfit) as (st2 & Hrun & _ & Hext).
  pose proof (replaceIDs_sGenerated _ _ _ _ _ Hrun) as Hgen.
  destruct (extends_emitted _ _ _ Hext) as (Hcalls & Hmid & _).
  pose proof (fun id => findImage_replaceIDs _ id _ _ _ _ (fun c Hc => Hc) Hext) as Hframe.
  assert (forall id,
            findImage id (deleteImage (mWorldID u) st2)
            = (if decide (mWorldID u = id) then false
               else if decide (world_id = id) then true else findImage id st)) as Hlist.
  { intros id. apply findImage_refreshed with st1; [reflexivity | apply Hframe]. }
  assert (updateSelf env false st u
          = (if findImage (mWorldID u) st2
             then Some (true, deleteImage (mWorldID u) st2,
                        set_published world_id (last_write_time env (mFilename u)) u)
             else None)) as Hself.
  { unfold updateSelf. rewrite Hon, Hexists, Hdecode. simpl negb at 1.
    cbv iota. destruct (decide (mLastModified u = last_write_time env (mFilename u)));
      [contradiction|].
    rewrite updateSelf_old_id. fold world_id. fold st1. simpl negb. cbv iota.
    rewrite Hrun. reflexivity. }
  assert (findImage (mWorldID u) st2
          = (if decide (world_id = mWorldID u) then true else findImage (mWorldID u) st))
    as Hfound.
  { rewrite Hframe. unfold st1, addImage. now rewrite findImage_emit. }
  exists st2. split; [exact Hrun|]. split.
  - intros Hin.
    exists (set_published world_id (last_write_time env (mFilename u)) u).
    split.
    { rewrite Hself, Hfound, Hin. now destruct (decide (world_id = mWorldID u)). }
    do 4 (split; [reflexivity || assumption|]).
    split; [exact Hgen|].
    split.
    { unfold emitted at 1. simpl. rewrite Hcalls. simpl.
      rewrite <- !app_assoc. now rewrite drop_app_length. }
    split; [exact Hmid|].
    split.
    { intros Hne. rewrite !Hlist.
      destruct (decide (mWorldID u = world_id)); [congruence|].
      destruct (decide (world_id = world_id)); [|contradiction].
      destruct (decide (mWorldID u = mWorldID u)); [|contradiction]. now split. }
    unfold updateSelf. simpl. rewrite Hon, Hexists. simpl.
    destruct (decide (last_write_time env (mFilename u) = last_write_time env (mFilename u)));
      [reflexivity | contradiction].
  - intros Hout Hne. rewrite Hself, Hfound, Hout.
    now destruct (decide (world_id = mWorldID u)).
Qed.

Lemma successful_refresh_witness :
  let u := sample_unit ET_IMG_PNG LS_ON 5 in
  let st := sample_world_registered in
  (exists st' u',
     updateSelf env_ok false st u = Some (true, st', u') /\
     mWorldID u' = 1000%N /\
     emitted st st'
     = [c_addImage 1000%N; c_setTEImage 0 0 1000%N; c_setTEImage 0 1 1000%N;
        c_sendTEUpdate 0; c_setParameterEntry 0 1000%N;
        c_setLocalTexture TEX_UPPER_SHIRT 1000%N 0; c_wearableUpdated WT_SHIRT;
        c_deleteImage 500%N] /\
     findImage 1000%N st' = true /\ findImage 500%N st' = false /\
     updateSelf env_ok false st' u' = Some (false, st', u')) /\
  updateSelf env_ok false sample_world u = None.
Proof.
  intros u st. split.
  - destruct (successful_refresh env_ok st u) as (st2 & Hrun & Hin & _).
    + reflexivity.
    + unfold faces_fit_U8. simpl. repeat constructor; lia.
    + destruct Hin as (u' & Hself & Hid & _ & _ & _ & _ & Hcalls & _ & Hlist & Hagain);
        [reflexivity|].
      destruct Hlist as [Hnew Hold]; [discriminate|].
      exists (deleteImage (mWorldID u) st2), u'.
      split; [exact Hself|]. split; [exact Hid|].
      split; [|split; [exact Hnew|]; split; [exact Hold | exact Hagain]].
      rewrite Hcalls. vm_compute in Hrun. injection Hrun as <-. reflexivity.
  - destruct (successful_refresh env_ok sample_world u) as (st2 & _ & _ & Hout).
    + reflexivity.
    + unfold faces_fit_U8. simpl. repeat constructor; lia.
    + apply Hout; [reflexivity | discriminate].
Defined.

(** ** Decoding, block by block *)

Ltac decode_atom t :=
  match goal with
  | |- context [t] => destruct t eqn:?; simpl
  | _ => idtac
  end.

Ltac decode_cases env u :=
  unfold decodeBitmap, case_ET_IMG_BMP, case_ET_IMG_TGA, case_ET_IMG_JPG,
    case_ET_IMG_PNG, try_decoder;
  destruct (mExtension u); simpl;
  decode_atom (load env LLImageBMP (mFilename u));
  decode_atom (decode env LLImageBMP (mFilename u));
  decode_atom (load env LLImageTGA (mFilename u));
  decode_atom (decode env LLImageTGA (mFilename u));
  decode_atom (bool_decide (getComponents env (mFilename u) = 3%Z));
  decode_atom (bool_decide (getComponents env (mFilename u) = 4%Z));
  decode_atom (load env LLImageJPEG (mFilename u));
  decode_atom (decode env LLImageJPEG (mFilename u));
  decode_atom (load env LLImagePNG (mFilename u));
  decode_atom (decode env LLImagePNG (mFilename u)).

Ltac decode_known :=
  unfold block_succeeds; simpl;
  repeat match goal with
         | H : ?x = _ |- context [?x] => rewrite H; simpl
         end.

(** X4. [decodeBitmap] returns true exactly when the [if] of some block it
    ran succeeded, and that block is the last one it ran: the raw image is
    then scaled once, as the last call. When it returns false the image is
    never scaled and the PNG decoder was the last one tried. *)
Theorem decodeBitmap_scales_once_at_the_end env u :
  let ok := (decodeBitmap env u).1 in
  let tr := (decodeBitmap env u).2 in
  length (filter (fun c => c = img_biasedScaleToPowerOfTwo) tr) = (if ok then 1 else 0) /\
  (exists d, last (attempted tr) = Some d /\
             block_succeeds env d (mFilename u) = ok /\
             (ok = false -> d = LLImagePNG)) /\
  (last tr = Some img_biasedScaleToPowerOfTwo <-> ok = true).
Proof.
  decode_cases env u;
    (split; [reflexivity|]; split;
     [eexists; split; [reflexivity|]; split;
      [decode_known; reflexivity | try reflexivity; discriminate]
     | split; [try reflexivity; discriminate | try reflexivity; discriminate]]).
Qed.

(** X5. The decoders [decodeBitmap] tries are an initial part of the list
    of decoders in the order of the [case] labels (BMP, TGA, JPEG, PNG),
    starting with the one of the unit's format: a decoder of an earlier
    label is never tried, and a PNG unit only ever tries the PNG decoder.
    When the block of the unit's own format succeeds, no other decoder is
    tried and the call returns true. *)
Theorem decodeBitmap_tries_own_decoder_first env u :
  let tr := (decodeBitmap env u).2 in
  attempted tr `prefix_of` decoders_from (mExtension u) /\
  (exists rest, attempted tr = decoder_of (mExtension u) :: rest) /\
  (block_succeeds env (decoder_of (mExtension u)) (mFilename u) = true ->
   decodeBitmap env u
   = (true, [img_load (decoder_of (mExtension u)); img_decode (decoder_of (mExtension u));
             img_biasedScaleToPowerOfTwo])).
Proof.
  decode_cases env u;
    (split; [eexists; reflexivity|]; split;
     [eexists; reflexivity | decode_known; try reflexivity; discriminate]).
Qed.

Lemma decodeBitmap_tries_own_decoder_first_witness :
  decodeBitmap env_ok (sample_unit ET_IMG_TGA LS_ON 5)
  = (true, [img_load LLImageTGA; img_decode LLImageTGA; img_biasedScaleToPowerOfTwo]).
Proof.
  destruct (decodeBitmap_tries_own_decoder_first env_ok (sample_unit ET_IMG_TGA LS_ON 5))
    as (_ & _ & Hown).
  apply Hown. reflexivity.
Defined.

(** ** The lookup table *)

(** X6. [getTexIndex] never maps two combinations of wearable type and
    baked index to the same texture index: equal results other than
    [TEX_NUM_INDICES] come from equal arguments. *)
Theorem getTexIndex_injective type type' baked_texind baked_texind' :
  getTexIndex type baked_texind = getTexIndex type' baked_texind' ->
  getTexIndex type baked_texind <> TEX_NUM_INDICES ->
  type = type' /\ baked_texind = baked_texind'.
Proof.
  intros Heq Hmapped.
  assert (getTexIndex type' baked_texind' <> TEX_NUM_INDICES) as Hmapped'
    by (now rewrite <- Heq).
  apply getTexIndex_populated in Hmapped, Hmapped'.
  unfold populated_mappings in Hmapped, Hmapped'.
  repeat (apply elem_of_cons in Hmapped as [Hm|Hmapped];
          [injection Hm as -> ->;
           repeat (apply elem_of_cons in Hmapped' as [Hm'|Hmapped'];
                   [injection Hm' as -> ->; first [now split | discriminate Heq]|]);
           now apply elem_of_nil in Hmapped'|]).
  now apply elem_of_nil in Hmapped.
Qed.

Lemma getTexIndex_injective_witness :
  WT_TATTOO = WT_TATTOO /\ BAKED_UPPER = BAKED_UPPER.
Proof.
  apply (getTexIndex_injective WT_TATTOO WT_TATTOO BAKED_UPPER BAKED_UPPER).
  - reflexivity.
  - discriminate.
Defined.

(** ** What replaceIDs does to the world objects *)

Lemma rebind_not_old old_id new_id face :
  old_id <> new_id -> rebind old_id new_id face <> Some old_id.
Proof.
  intros Hne. unfold rebind.
  destruct (decide (face = Some old_id)); congruence.
Qed.

Lemma rebind_back old_id new_id face :
  face <> Some new_id -> rebind new_id old_id (rebind old_id new_id face) = face.
Proof.
  intros Hface. unfold rebind.
  destruct (decide (face = Some old_id)) as [->|Hold].
  - now destruct (decide (Some new_id = Some new_id)).
  - now destruct (decide (face = Some new_id)).
Qed.

Lemma rebind_other old_id new_id face :
  face <> Some old_id -> rebind old_id new_id face = face.
Proof. intros Hface. unfold rebind. now destruct (decide (face = Some old_id)). Qed.

Lemma replace_object_fields old_id new_id object :
  replace_object old_id new_id object
  = mkLLViewerObject (mNumFaces object)
      (map_upto (rebind old_id new_id) (mNumFaces object) <$> mDrawable object)
      (rebind old_id new_id (mSculptID object)).
Proof.
  unfold replace_object, resculpt_object, rebind.
  cbn [mSculptID mNumFaces mDrawable rebind_object].
  destruct (decide (mSculptID object = Some old_id)); reflexivity.
Qed.

Lemma replaceIDs_objects env old_id new_id st :
  old_id <> new_id ->
  faces_fit_U8 st ->
  exists st',
    replaceIDs env old_id new_id st = Some st' /\
    gObjectList st' = fmap (M := option) (replace_object old_id new_id) <$> gObjectList st.
Proof.
  intros Hne Hfit.
  destruct (replaceIDs_spec env old_id new_id st Hfit) as (st' & Hrun & Hlist & _).
  exists st'. split; [exact Hrun|].
  destruct (decide (old_id = new_id)); [contradiction|].
  rewrite Hlist, <- list_fmap_compose.
  apply list_fmap_ext. intros _ [object|] _; reflexivity.
Qed.

Lemma rebind_None old_id new_id : rebind old_id new_id None = None.
Proof. reflexivity. Qed.

Lemma face_texture_replace_object old_id new_id object j :
  face_texture (replace_object old_id new_id object) j
  = if decide (j < mNumFaces object)
    then rebind old_id new_id (face_texture object j)
    else face_texture object j.
Proof.
  rewrite replace_object_fields. unfold face_texture. simpl.
  destruct (mDrawable object) as [faces|]; simpl; [|now case_decide].
  case_decide.
  - rewrite map_upto_lookup_lt by assumption.
    now destruct (faces !! j) as [face|].
  - now rewrite map_upto_lookup_ge by lia.
Qed.

Lemma replace_object_unreferenced old_id new_id object :
  ~ references old_id object -> replace_object old_id new_id object = object.
Proof.
  intros Hunref. rewrite replace_object_fields.
  destruct object as [n drawable sculpt]. simpl. f_equal.
  - destruct drawable as [faces|]; [|reflexivity]. simpl. f_equal.
    apply list_eq. intros j.
    destruct (decide (j < n)) as [Hj|Hj].
    + rewrite map_upto_lookup_lt by assumption.
      destruct (faces !! j) as [face|] eqn:Hface; [|reflexivity]. simpl. f_equal.
      apply rebind_other. intros ->. apply Hunref. right. exists j.
      split; [exact Hj|]. unfold face_texture. simpl. now rewrite Hface.
    + now rewrite map_upto_lookup_ge by lia.
  - apply rebind_other. intros Hs. apply Hunref. now left.
Qed.

Lemma replace_object_back old_id new_id object :
  ~ references new_id object ->
  replace_object new_id old_id (replace_object old_id new_id object) = object.
Proof.
  intros Hunref. rewrite (replace_object_fields new_id), replace_object_fields.
  destruct object as [n drawable sculpt]. simpl. f_equal.
  - destruct drawable as [faces|]; [|reflexivity]. simpl. f_equal.
    apply list_eq. intros j.
    destruct (decide (j < n)) as [Hj|Hj].
    + rewrite !map_upto_lookup_lt by assumption.
      destruct (faces !! j) as [face|] eqn:Hface; [|reflexivity]. simpl. f_equal.
      apply rebind_back. intros ->. apply Hunref. right. exists j.
      split; [exact Hj|]. unfold face_texture. simpl. now rewrite Hface.
    + now rewrite !map_upto_lookup_ge by lia.
  - apply rebind_back. intros Hs. apply Hunref. now left.
Qed.

Lemma references_replace_object id old_id new_id object :
  id <> old_id -> id <> new_id ->
  references id (replace_object old_id new_id object) <-> references id object.
Proof.
  intros Hold Hnew.
  assert (forall face, rebind old_id new_id face = Some id <-> face = Some id) as Hrebind.
  { intros face. unfold rebind.
    destruct (decide (face = Some old_id)) as [->|]; [|reflexivity].
    split; congruence. }
  unfold references.
  assert (mNumFaces (replace_object old_id new_id object) = mNumFaces object) as ->
    by now rewrite replace_object_fields.
  assert (mSculptID (replace_object old_id new_id object)
          = rebind old_id new_id (mSculptID object)) as ->
    by now rewrite replace_object_fields.
  rewrite Hrebind. apply or_iff_compat_l.
  split; intros (j & Hj & Hface); exists j; (split; [exact Hj|]);
    rewrite face_texture_replace_object in *;
    destruct (decide (j < mNumFaces object)); try lia; now apply Hrebind.
Qed.

(** X7. After [replaceIDs(old_id, new_id)] with different ids, in a state
    whose face counts fit the loop counter, no object uses [old_id] any
    more, neither as sculpt texture nor on a face within its face count. *)
Theorem replaceIDs_unbinds_old_id env old_id new_id st :
  old_id <> new_id ->
  faces_fit_U8 st ->
  exists st',
    replaceIDs env old_id new_id st = Some st' /\
    forall i object',
      gObjectList st' !! i = Some (Some object') -> ~ references old_id object'.
Proof.
  intros Hne Hfit.
  destruct (replaceIDs_objects env old_id new_id st Hne Hfit) as (st' & Hrun & Hlist).
  exists st'. split; [exact Hrun|].
  intros i object' Hi. rewrite Hlist, list_lookup_fmap in Hi.
  destruct (gObjectList st !! i) as [[object|]|]; try discriminate.
  injection Hi as <-.
  intros [Hsculpt|(j & Hj & Hface)].
  - rewrite replace_object_fields in Hsculpt. simpl in Hsculpt.
    now apply (rebind_not_old old_id new_id (mSculptID object)).
  - rewrite face_texture_replace_object in Hface.
    rewrite replace_object_fields in Hj. simpl in Hj.
    destruct (decide (j < mNumFaces object)); [|lia].
    now apply (rebind_not_old old_id new_id (face_texture object j)).
Qed.

Lemma replaceIDs_unbinds_old_id_witness :
  exists st',
    replaceIDs env_ok 500%N 600%N sample_world = Some st' /\
    forall i object',
      gObjectList st' !! i = Some (Some object') -> ~ references 500%N object'.
Proof.
  apply (replaceIDs_unbinds_old_id env_ok 500%N 600%N sample_world).
  - discriminate.
  - unfold faces_fit_U8. simpl. repeat constructor; lia.
Defined.

(** X8. [replaceIDs(old_id, new_id)] followed by [replaceIDs(new_id,
    old_id)] gives the object list back as it was, when no object used
    [new_id] before (as sculpt texture or on a face within its face
    count). *)
Theorem replaceIDs_there_and_back env old_id new_id st :
  old_id <> new_id ->
  faces_fit_U8 st ->
  (forall i object, gObjectList st !! i = Some (Some object) -> ~ references new_id object) ->
  exists st1 st2,
    replaceIDs env old_id new_id st = Some st1 /\
    replaceIDs env new_id old_id st1 = Some st2 /\
    gObjectList st2 = gObjectList st.
Proof.
  intros Hne Hfit Hunused.
  destruct (replaceIDs_spec env old_id new_id st Hfit) as (st1 & Hrun1 & _ & Hext1).
  destruct (replaceIDs_objects env old_id new_id st Hne Hfit) as (st1' & Hrun1' & Hlist1).
  rewrite Hrun1 in Hrun1'. injection Hrun1' as <-.
  assert (faces_fit_U8 st1) as Hfit1.
  { destruct Hext1 as (_ & Hcounts & _). now apply faces_fit_U8_counts with st. }
  destruct (replaceIDs_objects env new_id old_id st1 (not_eq_sym Hne) Hfit1)
    as (st2 & Hrun2 & Hlist2).
  exists st1, st2. split; [exact Hrun1|]. split; [exact Hrun2|].
  rewrite Hlist2, Hlist1. apply list_eq. intros i.
  rewrite !list_lookup_fmap.
  destruct (gObjectList st !! i) as [[object|]|] eqn:Hi; try reflexivity.
  simpl. rewrite replace_object_back; [reflexivity|]. now apply (Hunused i).
Qed.

Lemma replaceIDs_there_and_back_witness :
  exists st1 st2,
    replaceIDs env_ok 500%N 600%N sample_world = Some st1 /\
    replaceIDs env_ok 600%N 500%N st1 = Some st2 /\
    gObjectList st2 = sample_objects.
Proof.
  apply (replaceIDs_there_and_back env_ok 500%N 600%N sample_world).
  - discriminate.
  - unfold faces_fit_U8. simpl. repeat constructor; lia.
  - intros i object Hi [Hsculpt|(j & Hj & Hface)];
      destruct i as [|[|[|i]]]; simpl in Hi; try discriminate;
      injection Hi as <-; simpl in *; try discriminate.
    destruct j as [|[|j]]; simpl in *; try discriminate; lia.
Defined.

(** X9. [replaceIDs(old_id, new_id)] with different ids keeps the shape of
    the object list: its length, its empty slots and the face count of
    every object. An object that did not use [old_id] is unchanged, and for
    every id other than the two, an object uses it afterwards exactly if it
    used it before. *)
Theorem replaceIDs_touches_only_old_id env old_id new_id st :
  old_id <> new_id ->
  faces_fit_U8 st ->
  exists st',
    replaceIDs env old_id new_id st = Some st' /\
    length (gObjectList st') = length (gObjectList st) /\
    (forall i, gObjectList st !! i = Some None -> gObjectList st' !! i = Some None) /\
    (forall i object,
       gObjectList st !! i = Some (Some object) ->
       exists object',
         gObjectList st' !! i = Some (Some object') /\
         mNumFaces object' = mNumFaces object /\
         (~ references old_id object -> object' = object) /\
         (forall id, id <> old_id -> id <> new_id ->
                     (references id object' <-> references id object))).
Proof.
  intros Hne Hfit.
  destruct (replaceIDs_objects env old_id new_id st Hne Hfit) as (st' & Hrun & Hlist).
  exists st'. split; [exact Hrun|].
  split; [now rewrite Hlist, length_fmap|].
  split.
  - intros i Hi. now rewrite Hlist, list_lookup_fmap, Hi.
  - intros i object Hi. exists (replace_object old_id new_id object).
    split; [now rewrite Hlist, list_lookup_fmap, Hi|].
    split; [now rewrite replace_object_fields|].
    split; [apply replace_object_unreferenced|].
    intros id Hold Hnew. now apply references_replace_object.
Qed.

Lemma replaceIDs_touches_only_old_id_witness :
  exists st',
    replaceIDs env_ok 777%N 600%N sample_world = Some st' /\
    gObjectList st' !! 0
    = Some (Some (mkLLViewerObject 2 (Some [Some 500%N; Some 500%N]) (Some 500%N))).
Proof.
  destruct (replaceIDs_touches_only_old_id env_ok 777%N 600%N sample_world)
    as (st' & Hrun & _ & _ & Hobjects).
  - discriminate.
  - unfold faces_fit_U8. simpl. repeat constructor; lia.
  - exists st'. split; [exact Hrun|].
    destruct (Hobjects 0 (mkLLViewerObject 2 (Some [Some 500%N; Some 500%N]) (Some 500%N))
                eq_refl) as (object' & Hlookup & _ & Hsame & _).
    rewrite Hlookup, Hsame; [reflexivity|].
    intros [Hsculpt|(j & Hj & Hface)]; [discriminate|].
    destruct j as [|[|j]]; simpl in *; try discriminate; lia.
Defined.

(** ** The calls of updateUserPrims *)

Lemma calls_setTEImage i j id st :
  calls (setTEImage i j id st) = calls st ++ [c_setTEImage i j id].
Proof. unfold setTEImage. now destruct (gObjectList st !! i) as [[o|]|]. Qed.

Lemma face_step_eq old_id new_id i k object st update_obj :
  gObjectList st !! i = Some (Some (rebind_object old_id new_id k object)) ->
  face_step old_id new_id i (st, update_obj) k
  = if decide (face_texture object k = Some old_id)
    then (setTEImage i k new_id st, true)
    else (st, update_obj).
Proof.
  intros Hobj. unfold face_step, face_texture. rewrite Hobj. simpl.
  destruct (mDrawable object) as [faces|]; simpl; [|reflexivity].
  rewrite map_upto_lookup_ge by lia.
  destruct (faces !! k) as [[id|]|]; simpl; try reflexivity.
  destruct (decide (id = old_id)) as [->|Hne].
  - now destruct (decide (Some old_id = Some old_id)).
  - destruct (decide (Some id = Some old_id)); [congruence | reflexivity].
Qed.

Lemma face_loop_calls old_id new_id i object st n :
  gObjectList st !! i = Some (Some object) ->
  let r := foldl (face_step old_id new_id i) (st, false) (seq 0 n) in
  let matching := filter (fun j => face_texture object j = Some old_id) (seq 0 n) in
  calls r.1 = calls st ++ ((fun j => c_setTEImage i j new_id) <$> matching) /\
  r.2 = (if decide (matching = []) then false else true).
Proof.
  intros Hobj.
  assert (i < length (gObjectList st)) as Hlen by (eapply lookup_lt_Some; eassumption).
  pose proof (foldl_seq_invariant (face_step old_id new_id i)
           (fun k acc =>
              let matching := filter (fun j => face_texture object j = Some old_id) (seq 0 k) in
              gObjectList acc.1
              = <[i := Some (rebind_object old_id new_id k object)]> (gObjectList st) /\
              calls acc.1 = calls st ++ ((fun j => c_setTEImage i j new_id) <$> matching) /\
              acc.2 = (if decide (matching = []) then false else true))
           (st, false) n) as Hloop.
  destruct Hloop as (_ & Hcalls & Hflag); [| |now split].
  - simpl. split; [|split; [now rewrite app_nil_r | reflexivity]].
    rewrite rebind_object_0. symmetry. now apply list_insert_id.
  - intros k [st_k update_obj] _ (Hlist & Hcalls & Hflag). simpl in Hlist, Hcalls, Hflag.
    assert (gObjectList st_k !! i = Some (Some (rebind_object old_id new_id k object)))
      as Hobj_k by (rewrite Hlist; now apply list_lookup_insert_eq).
    destruct (face_step_spec (fun _ => True) old_id new_id i k object st_k update_obj
                (fun _ => I) Hobj_k) as [Hlist' _].
    split; [rewrite Hlist', Hlist; apply list_insert_insert_eq|].
    rewrite (face_step_eq _ _ _ _ _ _ _ Hobj_k).
    rewrite seq_S, filter_app, filter_cons, filter_nil. simpl.
    destruct (decide (face_texture object k = Some old_id)); simpl.
    + rewrite calls_setTEImage, Hcalls, fmap_app, <- app_assoc.
      split; [reflexivity|].
      match goal with
      | |- context [decide (?l = [])] => destruct (decide (l = [])) as [Hnil|_]
      end; [|reflexivity].
      now apply app_eq_nil in Hnil as [_ Hnil].
    + now rewrite app_nil_r.
Qed.

(** X10. [updateUserPrims], in a state whose face counts fit the loop
    counter, goes through the objects in list order; for each it calls
    [setTEImage] on exactly the faces within the face count whose texture
    is [old_id], in increasing order, and then [sendTEUpdate] once if there
    was such a face, and not at all otherwise. Two faces of one object that
    show [old_id] cost one update message, not two. *)
Theorem updateUserPrims_one_update_per_object old_id new_id st :
  faces_fit_U8 st ->
  exists st',
    updateUserPrims old_id new_id st = Some st' /\
    emitted st st' = concat (imap (prim_calls old_id new_id) (gObjectList st)).
Proof.
  intros Hfit. unfold updateUserPrims.
  pose proof (foldl_seq_invariant (object_step_prims old_id new_id)
    (fun m acc =>
       exists st_m, acc = Some st_m /\
         gObjectList st_m = map_upto (rebind_slot old_id new_id) m (gObjectList st) /\
         calls st_m
         = calls st ++ concat (imap (prim_calls old_id new_id) (take m (gObjectList st))))
    (Some st) (length (gObjectList st))) as Hloop.
  destruct Hloop as (st' & Hrun & _ & Hcalls).
  - exists st. split; [reflexivity|].
    split; [now rewrite map_upto_0 | now rewrite take_0, app_nil_r].
  - intros k acc Hk (st_k & -> & Hlist & Hcalls). simpl.
    destruct (lookup_lt_is_Some_2 (gObjectList st) k Hk) as [slot Hslot].
    assert (gObjectList st_k !! k = Some slot) as Hslot_k
      by (rewrite Hlist, map_upto_lookup_ge by lia; exact Hslot).
    assert (concat (imap (prim_calls old_id new_id) (take (S k) (gObjectList st)))
            = concat (imap (prim_calls old_id new_id) (take k (gObjectList st)))
              ++ prim_calls old_id new_id k slot) as Htake.
    { rewrite (take_S_r _ _ _ Hslot), imap_app, concat_app. simpl.
      rewrite length_take_le, Nat.add_0_r, app_nil_r by lia. reflexivity. }
    rewrite Hslot_k, Htake. destruct slot as [object|].
    + assert (mNumFaces object <= 255) as Hn
        by exact (Forall_lookup_1 _ _ _ _ Hfit Hslot).
      destruct (decide (255 < mNumFaces object)); [lia|].
      destruct (face_loop_spec (fun _ => True) old_id new_id k object st_k
                  (mNumFaces object) (fun _ => I) Hslot_k) as [Hlist' _].
      destruct (face_loop_calls old_id new_id k object st_k (mNumFaces object) Hslot_k)
        as [Hcalls' Hflag].
      destruct (foldl (face_step old_id new_id k) (st_k, false)
                  (seq 0 (mNumFaces object))) as [st1 update_obj].
      simpl in Hlist', Hcalls', Hflag.
      exists (if update_obj then sendTEUpdate k st1 else st1).
      split; [reflexivity|]. split.
      * rewrite (map_upto_S_insert _ _ _ _ Hslot). simpl. rewrite <- Hlist, <- Hlist'.
        now destruct update_obj.
      * unfold prim_calls, matching_faces. rewrite Hflag.
        case_decide; simpl; rewrite Hcalls', Hcalls, ?app_nil_r, <- ?app_assoc;
          reflexivity.
    + exists st_k. split; [reflexivity|]. split.
      * now rewrite (map_upto_S_id _ _ _ _ Hslot eq_refl).
      * simpl. now rewrite app_nil_r.
  - exists st'. split; [exact Hrun|].
    unfold emitted. rewrite Hcalls, drop_app_length.
    now rewrite take_ge by lia.
Qed.

Lemma updateUserPrims_one_update_per_object_witness :
  exists st',
    updateUserPrims 500%N 600%N sample_world = Some st' /\
    emitted sample_world st'
    = [c_setTEImage 0 0 600%N; c_setTEImage 0 1 600%N; c_sendTEUpdate 0].
Proof.
  apply (updateUserPrims_one_update_per_object 500%N 600%N sample_world).
  unfold faces_fit_U8. simpl. repeat constructor; lia.
Defined.

(** ** When replaceIDs has a result *)

Lemma updateUserPrims_Some_fits old_id new_id st st' :
  updateUserPrims old_id new_id st = Some st' -> faces_fit_U8 st.
Proof.
  unfold updateUserPrims. intros Hrun.
  pose proof (foldl_seq_invariant (object_step_prims old_id new_id)
    (fun m acc =>
       forall s, acc = Some s ->
         face_counts s = face_counts st /\
         forall i object, i < m -> gObjectList st !! i = Some (Some object) ->
                          mNumFaces object <= 255)
    (Some st) (length (gObjectList st))) as Hloop.
  destruct (Hloop) with (s := st') as [_ Hall]; [| |exact Hrun|].
  - intros s [= <-]. split; [reflexivity|]. intros i object Hi. lia.
  - intros k [st_k|] Hk Hinv s; simpl; [|discriminate].
    destruct (Hinv st_k eq_refl) as [Hcounts Hbefore].
    assert (fmap (M := option) mNumFaces <$> gObjectList st_k !! k
            = fmap (M := option) mNumFaces <$> gObjectList st !! k) as Hcount_k.
    { rewrite <- !list_lookup_fmap. unfold face_counts in Hcounts. now rewrite Hcounts. }
    assert (forall object n,
              gObjectList st_k !! k = Some (Some object) -> n = mNumFaces object ->
              n <= 255 ->
              forall i object0, i < S k -> gObjectList st !! i = Some (Some object0) ->
                                mNumFaces object0 <= 255) as Hnext.
    { intros object n Hobj -> Hn i object0 Hi Hobj0.
      destruct (decide (i = k)) as [->|]; [|apply (Hbefore i); [lia | assumption]].
      rewrite Hobj, Hobj0 in Hcount_k. simpl in Hcount_k.
      injection Hcount_k as Heq. lia. }
    destruct (gObjectList st_k !! k) as [[object|]|] eqn:Hobj.
    + destruct (decide (255 < mNumFaces object)); [discriminate|].
      destruct (face_loop_spec (fun _ => True) old_id new_id k object st_k
                  (mNumFaces object) (fun _ => I) Hobj) as [_ Hext].
      destruct (foldl (face_step old_id new_id k) (st_k, false)
                  (seq 0 (mNumFaces object))) as [st1 update_obj].
      simpl in Hext. destruct Hext as (_ & Hcounts1 & _).
      intros [= <-]. split.
      * rewrite <- Hcounts, <- Hcounts1. now destruct update_obj.
      * apply (Hnext object (mNumFaces object)); [reflexivity | reflexivity | lia].
    + intros [= <-]. split; [assumption|].
      intros i object Hi Hobj0.
      destruct (decide (i = k)) as [->|]; [|apply (Hbefore i); [lia | assumption]].
      rewrite Hobj0 in Hcount_k. discriminate.
    + intros [= <-]. split; [assumption|].
      intros i object Hi Hobj0.
      destruct (decide (i = k)) as [->|]; [|apply (Hbefore i); [lia | assumption]].
      rewrite Hobj0 in Hcount_k. discriminate.
  - unfold faces_fit_U8. apply Forall_lookup. intros i [object|] Hi; [|exact I].
    apply (Hall i); [|assumption]. eapply lookup_lt_Some; eassumption.
Qed.

(** X11. [replaceIDs] returns exactly when the two ids are equal or every
    object has at most 255 faces. With different ids and an object of more
    than 255 faces in the object list the face loop of [updateUserPrims],
    whose counter is a [U8], does not end, whether or not any face shows
    [old_id]. *)
Theorem replaceIDs_returns_iff env old_id new_id st :
  is_Some (replaceIDs env old_id new_id st) <-> old_id = new_id \/ faces_fit_U8 st.
Proof.
  split.
  - intros [st' Hrun]. destruct (decide (old_id = new_id)) as [|Hne]; [now left|].
    right. rewrite replaceIDs_unfold in Hrun.
    destruct (decide (old_id = new_id)); [contradiction|].
    destruct (updateUserPrims old_id new_id st) as [st1|] eqn:Hprims; [|discriminate].
    now apply updateUserPrims_Some_fits with old_id new_id st1.
  - intros [->|Hfit].
    + rewrite replaceIDs_unfold. destruct (decide (new_id = new_id)); [eauto | contradiction].
    + destruct (replaceIDs_spec env old_id new_id st Hfit) as (st' & Hrun & _).
      eauto.
Qed.

(** ** The loops of updateUserLayers *)

Lemma wearable_loop_null old_id new_id type before after :
  forall wearable_iter st,
    wearable_loop old_id new_id type (before ++ None :: after) wearable_iter st
    = wearable_loop old_id new_id type before wearable_iter st.
Proof.
  induction before as [|[w|] before IH]; intros wearable_iter st; simpl;
    try reflexivity.
  destruct (texture_loop old_id new_id type wearable_iter
              (getLocalTextureListSeq w) st) as [st' returned].
  destruct returned; [reflexivity | apply IH].
Qed.

(** X12. A null wearable ends the layer step of its type: the wearables in
    front of it are handled as usual, the ones behind it are not looked at,
    even if their local textures hold [old_id]. *)
Theorem null_wearable_ends_the_category
    (old_id new_id : LLUUID) (type : EType) (st : State)
    (before after : list (option LLWearable)) :
  gAgentWearables st type = before ++ None :: after ->
  updateUserLayers old_id new_id type st
  = wearable_loop old_id new_id type before 0 st.
Proof.
  intros Hworn. unfold updateUserLayers. rewrite Hworn.
  apply wearable_loop_null.
Qed.

Lemma null_wearable_ends_the_category_witness :
  let worn := fun type : EType =>
    [None; Some (mkLLWearable [Some (mkLLLocalTextureObject 500%N BAKED_UPPER)])] in
  let st := mkState [] worn false true 0 [] in
  updateUserLayers 500%N 600%N WT_SHIRT st = st.
Proof.
  intros worn st.
  exact (null_wearable_ends_the_category 500%N 600%N WT_SHIRT st []
           [Some (mkLLWearable [Some (mkLLLocalTextureObject 500%N BAKED_UPPER)])]
           eq_refl).
Defined.

Lemma texture_loop_mapped old_id new_id type index texture_list st :
  all_mapped old_id type (Some (mkLLWearable texture_list)) ->
  (texture_loop old_id new_id type index texture_list st).2 = false /\
  calls (texture_loop old_id new_id type index texture_list st).1
  = calls st ++ concat (slot_calls old_id new_id type index <$> texture_list).
Proof.
  simpl. intros Hmapped. revert st.
  induction Hmapped as [|[lto|] rest Hslot _ IH]; intros st; simpl.
  - now rewrite app_nil_r.
  - destruct (decide (lto_ID lto = old_id)) as [Hid|]; [|apply IH].
    destruct (decide (getTexIndex type (lto_BakedTexIndex lto) = TEX_NUM_INDICES));
      [now destruct (Hslot Hid)|].
    match goal with
    | |- context [texture_loop _ _ _ _ rest ?s] => destruct (IH s) as [Hret Hcalls]
    end.
    split; [exact Hret|]. rewrite Hcalls. simpl. now rewrite <- !app_assoc.
  - apply IH.
Qed.

Lemma wearable_loop_mapped old_id new_id type wearables :
  Forall (all_mapped old_id type) wearables ->
  forall wearable_iter st,
    calls (wearable_loop old_id new_id type wearables wearable_iter st)
    = calls st
      ++ concat (imap (fun k => wearable_calls old_id new_id type (wearable_iter + k))
                      wearables).
Proof.
  induction 1 as [|[wearable|] rest Hw _ IH]; intros wearable_iter st; simpl.
  - now rewrite app_nil_r.
  - destruct wearable as [texture_list].
    destruct (texture_loop_mapped old_id new_id type wearable_iter texture_list st Hw)
      as [Hret Hcalls].
    simpl. destruct (texture_loop old_id new_id type wearable_iter texture_list st)
      as [st' returned].
    simpl in Hret, Hcalls. subst returned.
    rewrite IH, Hcalls, Nat.add_0_r, <- app_assoc. do 3 f_equal.
    apply imap_ext. intros k w _. simpl. f_equal. lia.
  - contradiction.
Qed.

(** X13. When no worn instance of the type is null and every local texture
    that holds [old_id] sits on a combination the table maps,
    [updateUserLayers] reaches every slot: for each worn instance in order,
    and each of its slots in order that holds [old_id], it calls
    [setLocalTexture] with the mapped texture index, [new_id] and the index
    of the instance, then [wearableUpdated]; it makes no other call, and
    the rebake flag ends up set exactly if it was set or one of these calls
    was made. *)
Theorem updateUserLayers_reaches_every_mapped_slot
    (old_id new_id : LLUUID) (type : EType) (st : State) :
  Forall (all_mapped old_id type) (gAgentWearables st type) ->
  let st' := updateUserLayers old_id new_id type st in
  emitted st st'
  = concat (imap (wearable_calls old_id new_id type) (gAgentWearables st type)) /\
  sNeedsRebake st' = sNeedsRebake st || existsb is_setLocalTexture (emitted st st').
Proof.
  intros Hmapped st'.
  pose proof (wearable_loop_mapped old_id new_id type _ Hmapped 0 st) as Hcalls.
  fold (updateUserLayers old_id new_id type st) in Hcalls. fold st' in Hcalls.
  split.
  - unfold emitted. rewrite Hcalls, drop_app_length. reflexivity.
  - destruct (updateUserLayers_spec (fun _ => True) old_id new_id type st
                (fun _ _ => I) I) as [_ Hext].
    now destruct (extends_emitted _ _ _ Hext) as (_ & _ & Hflag).
Qed.

Lemma updateUserLayers_reaches_every_mapped_slot_witness :
  let worn := fun type : EType =>
    [Some (mkLLWearable [Some (mkLLLocalTextureObject 500%N BAKED_UPPER); None;
                         Some (mkLLLocalTextureObject 9%N BAKED_HAIR)]);
     Some (mkLLWearable [Some (mkLLLocalTextureObject 500%N BAKED_LOWER)])] in
  let st := mkState [] worn false true 0 [] in
  emitted st (updateUserLayers 500%N 600%N WT_JACKET st)
  = [c_setLocalTexture TEX_UPPER_JACKET 600%N 0; c_wearableUpdated WT_JACKET;
     c_setLocalTexture TEX_LOWER_JACKET 600%N 1; c_wearableUpdated WT_JACKET] /\
  sNeedsRebake (updateUserLayers 500%N 600%N WT_JACKET st) = true.
Proof.
  intros worn st.
  destruct (updateUserLayers_reaches_every_mapped_slot 500%N 600%N WT_JACKET st)
    as [Hcalls Hflag].
  - simpl. repeat constructor; simpl; intros; discriminate.
  - split; [exact Hcalls | exact Hflag].
Defined.

(** ** A whole update pass *)

Lemma replace_call_ids new_id layer_id cs :
  Forall (replace_call new_id layer_id) cs -> added_ids cs = [] /\ deleted_ids cs = [].
Proof.
  induction 1 as [|c cs Hc _ [IHa IHd]]; [now split|].
  destruct c; simpl in Hc; try contradiction; now split.
Qed.

Lemma updateSelf_publish env st u :
  publishes env u = true ->
  faces_fit_U8 st ->
  findImage (mWorldID u) st = true ->
  exists st' mid,
    updateSelf env false st u
    = Some (true, st',
            set_published (generate env (sGenerated st))
              (last_write_time env (mFilename u)) u) /\
    sGenerated st' = S (sGenerated st) /\
    calls st'
    = calls st ++ c_addImage (generate env (sGenerated st)) :: mid
                  ++ [c_deleteImage (mWorldID u)] /\
    added_ids mid = [] /\ deleted_ids mid = [] /\
    extends no_rebake st st' /\
    (forall id, id <> mWorldID u -> findImage id st = true -> findImage id st' = true).
Proof.
  intros Hpub Hfit Hin.
  apply publishes_true in Hpub as (Hon & Hexists & Hstamp & Hdecode).
  set (world_id := generate env (sGenerated st)).
  set (st1 := addImage world_id (set_sGenerated (S (sGenerated st)) st)).
  destruct (replaceIDs_spec env (mWorldID u) world_id st1 Hfit) as (st2 & Hrun & _ & Hext).
  pose proof (replaceIDs_sGenerated _ _ _ _ _ Hrun) as Hgen.
  destruct (extends_emitted _ _ _ Hext) as (Hcalls & Hmid & _).
  destruct (replace_call_ids _ _ _ Hmid) as [Hadded Hdeleted].
  pose proof (fun id => findImage_replaceIDs _ id _ _ _ _ (fun c Hc => Hc) Hext) as Hframe.
  exists (deleteImage (mWorldID u) st2), (emitted st1 st2).
  split.
  { unfold updateSelf. rewrite Hon, Hexists, Hdecode. simpl negb at 1.
    cbv iota. destruct (decide (mLastModified u = last_write_time env (mFilename u)));
      [contradiction|].
    rewrite updateSelf_old_id. fold world_id. fold st1. simpl negb. cbv iota.
    rewrite Hrun. simpl.
    assert (findImage (mWorldID u) st2 = true) as ->; [|reflexivity].
    rewrite Hframe. unfold st1, addImage. rewrite findImage_emit.
    destruct (decide (world_id = mWorldID u)); [reflexivity | exact Hin]. }
  split; [exact Hgen|].
  split; [simpl; rewrite Hcalls; simpl; now rewrite <- !app_assoc|].
  split; [exact Hadded|]. split; [exact Hdeleted|].
  split.
  - apply extends_trans with st1.
    { apply extends_trans with (set_sGenerated (S (sGenerated st)) st);
        [apply extends_set_sGenerated | now apply extends_emit]. }
    apply extends_trans with st2.
    + eapply extends_weaken; [apply replace_call_no_rebake | exact Hext].
    + now apply extends_emit.
  - intros id Hid Hfound.
    rewrite (findImage_refreshed id (mWorldID u) world_id st st1 st2);
      [|reflexivity | apply Hframe].
    destruct (decide (mWorldID u = id)); [congruence|].
    destruct (decide (world_id = id)); [reflexivity | exact Hfound].
Qed.

Lemma added_ids_app cs1 cs2 : added_ids (cs1 ++ cs2) = added_ids cs1 ++ added_ids cs2.
Proof. unfold added_ids. apply omap_app. Qed.

Lemma deleted_ids_app cs1 cs2 :
  deleted_ids (cs1 ++ cs2) = deleted_ids cs1 ++ deleted_ids cs2.
Proof. unfold deleted_ids. apply omap_app. Qed.

(** What one pass of [update_all] does to a unit when the generator stood
    at [lo] before and at [hi] after. *)
Lemma update_all_outcome env sBitmapList st :
  faces_fit_U8 st ->
  textures_registered env st sBitmapList ->
  exists st' sBitmapList',
    update_all env sBitmapList st = Some (st', sBitmapList') /\
    extends no_rebake st st' /\
    sGenerated st <= sGenerated st' /\
    added_ids (emitted st st')
    = generate env <$> seq (sGenerated st) (sGenerated st' - sGenerated st) /\
    Forall2 (fun u u' =>
               identity_of u' = identity_of u /\
               (mLinkStatus u' = LS_ON -> mLinkStatus u = LS_ON) /\
               ((0 <= mUpdateRetries u < 2 ^ 31)%Z ->
                (0 <= mUpdateRetries u' <= mUpdateRetries u)%Z) /\
               (mWorldID u' = mWorldID u \/
                exists n, sGenerated st <= n < sGenerated st' /\
                          mWorldID u' = generate env n))
            sBitmapList sBitmapList'.
Proof.
  revert st. induction sBitmapList as [|unit rest IH]; intros st Hfit Hreg; simpl.
  - exists st, []. split; [reflexivity|]. split; [apply extends_refl|].
    split; [lia|]. split; [|constructor].
    unfold emitted. now rewrite drop_all, Nat.sub_diag.
  - apply textures_registered_cons in Hreg as [Hfound Hrest].
    assert (exists st1 unit' r,
              updateSelf env false st unit = Some (r, st1, unit') /\
              textures_registered env st1 rest /\
              extends no_rebake st st1 /\
              sGenerated st <= sGenerated st1 /\
              added_ids (emitted st st1)
              = generate env <$> seq (sGenerated st) (sGenerated st1 - sGenerated st) /\
              identity_of unit' = identity_of unit /\
              (mLinkStatus unit' = LS_ON -> mLinkStatus unit = LS_ON) /\
              ((0 <= mUpdateRetries unit < 2 ^ 31)%Z ->
               (0 <= mUpdateRetries unit' <= mUpdateRetries unit)%Z) /\
              (mWorldID unit' = mWorldID unit \/
               exists n, sGenerated st <= n < sGenerated st1 /\
                         mWorldID unit' = generate env n)) as Hhead.
    { destruct (publishes env unit) eqn:Hpub.
      - destruct (updateSelf_publish env st unit Hpub Hfit (Hfound eq_refl))
          as (st1 & mid & Hrun & Hgen & Hcalls & Hadded & _ & Hext & Hframe).
        apply publishes_true in Hpub as (Hon & _).
        exists st1, (set_published (generate env (sGenerated st))
                       (last_write_time env (mFilename unit)) unit), true.
        split; [exact Hrun|].
        split; [apply Hrest; [intros Hno; congruence | exact Hframe]|].
        split; [exact Hext|]. split; [lia|].
        split.
        { unfold emitted. rewrite Hcalls, drop_app_length. simpl.
          rewrite added_ids_app, Hadded, Hgen. simpl.
          replace (S (sGenerated st) - sGenerated st) with 1 by lia. reflexivity. }
        split; [reflexivity|]. split; [auto|]. split; [simpl; lia|].
        right. exists (sGenerated st). simpl. split; [lia | reflexivity].
      - destruct (updateSelf_no_publish env false st unit Hpub)
          as (unit' & Hrun & Hid & _ & Hident & Hlink & Hbudget).
        exists st, unit', false.
        split; [exact Hrun|]. split; [apply Hrest; auto|].
        split; [apply extends_refl|]. split; [lia|].
        split; [unfold emitted; now rewrite drop_all, Nat.sub_diag|].
        auto. }
    destruct Hhead as (st1 & unit' & r & Hrun & Hreg1 & Hext & Hle & Hadded & Hident
                       & Hlink & Hbudget & Hworld).
    clear Hrest. rewrite Hrun. simpl.
    destruct (IH st1) as (st2 & rest' & Hrest & Hext' & Hle' & Hadded' & Hunits).
    { destruct Hext as (_ & Hcounts & _). now apply faces_fit_U8_counts with st. }
    { exact Hreg1. }
    rewrite Hrest. simpl.
    exists st2, (unit' :: rest'). split; [reflexivity|].
    split; [eapply extends_trans; eassumption|]. split; [lia|].
    split.
    + destruct (extends_emitted _ _ _ Hext) as (Hcalls1 & _).
      destruct (extends_emitted _ _ _ Hext') as (Hcalls2 & _).
      assert (emitted st st2 = emitted st st1 ++ emitted st1 st2) as ->.
      { unfold emitted at 1. rewrite Hcalls2, Hcalls1, <- app_assoc.
        now rewrite drop_app_length. }
      rewrite added_ids_app, Hadded, Hadded', <- fmap_app. f_equal.
      replace (sGenerated st2 - sGenerated st)
        with ((sGenerated st1 - sGenerated st) + (sGenerated st2 - sGenerated st1)) by lia.
      rewrite seq_app. do 2 f_equal. lia.
    + constructor.
      * split; [exact Hident|]. split; [exact Hlink|]. split; [exact Hbudget|].
        destruct Hworld as [Hsame|(n & Hn & Hnew)]; [now left|].
        right. exists n. split; [lia | exact Hnew].
      * eapply Forall2_impl; [exact Hunits|].
        intros u u' (Hi & Hl & Hb & Hw). split; [exact Hi|]. split; [exact Hl|].
        split; [exact Hb|].
        destruct Hw as [Hsame|(n & Hn & Hnew)]; [now left|].
        right. exists n. split; [lia | exact Hnew].
Qed.


Lemma getFilename_identity sBitmapList sBitmapList' tracking_id :
  Forall2 (fun u u' => identity_of u' = identity_of u) sBitmapList sBitmapList' ->
  getFilename sBitmapList' tracking_id = getFilename sBitmapList tracking_id.
Proof.
  intros Hunits. unfold getFilename. generalize EmptyString.
  induction Hunits as [|u u' l l' Hu _ IH]; intros filename; simpl; [reflexivity|].
  unfold identity_of in Hu. injection Hu as Hf _ Ht _ _.
  rewrite Ht, Hf. apply IH.
Qed.

(** X14. An update pass over a registry, in a state whose face counts fit
    the loop counter and whose texture list holds the textures the pass
    replaces under pairwise different ids, returns a registry with the same
    units in the same places: every unit keeps its file name, short name, tracking id,
    format and validity; no unit goes from [LS_BROKEN] back to [LS_ON];
    no retry counter grows (a successful refresh does not refill it). So
    [getFilename] answers after the pass as before. *)
Theorem doUpdates_keeps_the_registry env st sBitmapList :
  faces_fit_U8 st ->
  textures_registered env st sBitmapList ->
  exists st' sBitmapList',
    doUpdates env st sBitmapList = Some (st', sBitmapList') /\
    Forall2 (fun u u' =>
               identity_of u' = identity_of u /\
               (mLinkStatus u' = LS_ON -> mLinkStatus u = LS_ON) /\
               ((0 <= mUpdateRetries u < 2 ^ 31)%Z ->
                (0 <= mUpdateRetries u' <= mUpdateRetries u)%Z))
            sBitmapList sBitmapList' /\
    forall tracking_id,
      getFilename sBitmapList' tracking_id = getFilename sBitmapList tracking_id.
Proof.
  intros Hfit Hreg. unfold doUpdates.
  destruct (update_all_outcome env sBitmapList (set_sNeedsRebake false (stopTimer st))
              Hfit Hreg)
    as (st1 & units' & Hrun & _ & _ & _ & Hunits).
  rewrite Hrun. simpl. do 2 eexists. split; [reflexivity|].
  split.
  - eapply Forall2_impl; [exact Hunits|]. intros u u' (Hi & Hl & Hb & _). auto.
  - intros tracking_id. apply getFilename_identity.
    eapply Forall2_impl; [exact Hunits|]. now intros u u' (Hi & _).
Qed.

Lemma doUpdates_keeps_the_registry_witness :
  let a := sample_unit ET_IMG_PNG LS_ON 5 in
  let b := sample_unit ET_IMG_BMP LS_BROKEN 0 in
  exists st' sBitmapList',
    doUpdates env_ok sample_world_registered [a; b] = Some (st', sBitmapList') /\
    getFilename sBitmapList' 77%N = "/tmp/picture.bmp".
Proof.
  intros a b.
  destruct (doUpdates_keeps_the_registry env_ok sample_world_registered [a; b])
    as (st' & units' & Hrun & _ & Hnames).
  - unfold faces_fit_U8. simpl. repeat constructor; lia.
  - split; [repeat constructor | compute_done].
  - exists st', units'. split; [exact Hrun|]. now rewrite Hnames.
Defined.



Lemma update_all_quiet env sBitmapList st :
  Forall (fun u => publishes env u = false) sBitmapList ->
  exists sBitmapList',
    update_all env sBitmapList st = Some (st, sBitmapList') /\
    Forall2 (fun u u' => mWorldID u' = mWorldID u /\ mLastModified u' = mLastModified u)
            sBitmapList sBitmapList'.
Proof.
  induction 1 as [|unit rest Hunit _ (rest' & Hrest & Hunits)]; simpl.
  - exists []. split; [reflexivity | constructor].
  - destruct (updateSelf_no_publish env false st unit Hunit)
      as (unit' & Hrun & Hid & Hstamp & _).
    rewrite Hrun. simpl. rewrite Hrest. simpl.
    exists (unit' :: rest'). split; [reflexivity|]. now constructor.
Qed.

(** X16. An update pass in which no unit gets a decoded image (each is
    broken, or its file is missing or unchanged, or does not decode) always
    returns, whatever the face counts are, and makes no call at all: no
    texture is registered or deleted, no object or wearable is touched, no
    rebake is done. The state afterwards differs from the one before at
    most in the rebake flag, which is clear, and the timer, which runs;
    every unit keeps its world id and time stamp. *)
Theorem quiet_pass_calls_nothing env st sBitmapList :
  Forall (fun u => publishes env u = false) sBitmapList ->
  exists sBitmapList',
    doUpdates env st sBitmapList
    = Some (set_sTimerStarted true (set_sNeedsRebake false st), sBitmapList') /\
    Forall2 (fun u u' => mWorldID u' = mWorldID u /\ mLastModified u' = mLastModified u)
            sBitmapList sBitmapList'.
Proof.
  intros Hquiet. unfold doUpdates.
  destruct (update_all_quiet env sBitmapList (set_sNeedsRebake false (stopTimer st)) Hquiet)
    as (units' & Hrun & Hunits).
  rewrite Hrun. simpl. exists units'. split; [reflexivity | exact Hunits].
Qed.

Lemma quiet_pass_calls_nothing_witness :
  let crowded := mkState [Some (mkLLViewerObject 300 None None)] one_shirt true false 4 [] in
  exists sBitmapList',
    doUpdates env_missing crowded
      [sample_unit ET_IMG_PNG LS_ON 5; sample_unit ET_IMG_BMP LS_BROKEN 0]
    = Some (mkState [Some (mkLLViewerObject 300 None None)] one_shirt false true 4 [],
            sBitmapList').
Proof.
  intros crowded.
  destruct (quiet_pass_calls_nothing env_missing crowded
              [sample_unit ET_IMG_PNG LS_ON 5; sample_unit ET_IMG_BMP LS_BROKEN 0])
    as (units' & Hrun & _).
  - repeat constructor.
  - exists units'. exact Hrun.
Defined.

(** ** Destruction of a unit *)

Lemma replace_object_unbinds old_id new_id object :
  old_id <> new_id -> ~ references old_id (replace_object old_id new_id object).
Proof.
  intros Hne [Hsculpt|(j & Hj & Hface)].
  - rewrite replace_object_fields in Hsculpt. simpl in Hsculpt.
    now apply (rebind_not_old old_id new_id (mSculptID object)).
  - rewrite face_texture_replace_object in Hface.
    rewrite replace_object_fields in Hj. simpl in Hj.
    destruct (decide (j < mNumFaces object)); [|lia].
    now apply (rebind_not_old old_id new_id (face_texture object j)).
Qed.

Lemma replace_object_no_reference id old_id new_id object :
  old_id <> new_id -> id <> new_id ->
  ~ references id object -> ~ references id (replace_object old_id new_id object).
Proof.
  intros Hne Hnew Hunref. destruct (decide (id = old_id)) as [->|Hold].
  - now apply replace_object_unbinds.
  - now rewrite references_replace_object.
Qed.

(** No object of the state uses the texture. *)
Lemma unreferenced_after_replace id old_id new_id (l : list (option LLViewerObject)) :
  old_id <> new_id -> id <> new_id ->
  (forall i object, l !! i = Some (Some object) -> ~ references id object) ->
  forall i object,
    (fmap (M := option) (replace_object old_id new_id) <$> l) !! i = Some (Some object) ->
    ~ references id object.
Proof.
  intros Hne Hnew Hunref i object Hi. rewrite list_lookup_fmap in Hi.
  destruct (l !! i) as [[object0|]|] eqn:Hi0; try discriminate.
  injection Hi as <-. apply replace_object_no_reference; [assumption..|].
  now apply (Hunref i).
Qed.

Lemma delete_outcome env u st :
  faces_fit_U8 st ->
  exists st' mid,
    LLLocalBitmap_delete env u st = Some st' /\
    calls st' = calls st ++ mid ++ [c_deleteImage (mWorldID u)] /\
    added_ids mid = [] /\ deleted_ids mid = [] /\
    count_calls is_forceBakeAllTextures mid <= 1 /\
    sNeedsRebake st' = false /\
    face_counts st' = face_counts st /\
    sGenerated st' = sGenerated st /\
    sTimerStarted st' = sTimerStarted st /\
    gObjectList st'
    = (if decide (mWorldID u = IMG_DEFAULT env) then gObjectList st
       else fmap (M := option) (replace_object (mWorldID u) (IMG_DEFAULT env))
              <$> gObjectList st).
Proof.
  intros Hfit. unfold LLLocalBitmap_delete. simpl.
  destruct (replaceIDs_spec env (mWorldID u) (IMG_DEFAULT env) st Hfit)
    as (st1 & Hrun & Hlist & Hext).
  pose proof (replaceIDs_sGenerated _ _ _ _ _ Hrun) as Hgen.
  destruct (extends_emitted _ _ _ Hext) as (Hcalls & Hmid & _).
  destruct (replace_call_ids _ _ _ Hmid) as [Hadded Hdeleted].
  assert (count_calls is_forceBakeAllTextures (emitted st st1) = 0) as Hnone.
  { apply count_calls_no_rebake. eapply Forall_impl; [exact Hmid|].
    apply replace_call_no_rebake. }
  destruct Hext as (_ & Hcounts & Htimer & _).
  rewrite Hrun. simpl.
  exists (deleteImage (mWorldID u) (doRebake st1)),
         (emitted st st1
          ++ (if sNeedsRebake st1
              then [c_forceBakeAllTextures LL_LOCAL_SLAM_FOR_DEBUG] else [])).
  split; [reflexivity|].
  assert (gObjectList st1
          = (if decide (mWorldID u = IMG_DEFAULT env) then gObjectList st
             else fmap (M := option) (replace_object (mWorldID u) (IMG_DEFAULT env))
                    <$> gObjectList st)) as Hobjects.
  { rewrite Hlist. destruct (decide (mWorldID u = IMG_DEFAULT env)); [reflexivity|].
    rewrite <- list_fmap_compose. apply list_fmap_ext. intros _ [object|] _; reflexivity. }
  unfold doRebake. destruct (sNeedsRebake st1) eqn:Hflag; simpl.
  - rewrite Hcalls, <- !app_assoc. split; [reflexivity|].
    rewrite added_ids_app, deleted_ids_app, count_calls_app, Hadded, Hdeleted, Hnone.
    repeat split; try assumption; try reflexivity;
      try (unfold count_calls; simpl; lia).
  - rewrite Hcalls, <- !app_assoc, app_nil_r. split; [reflexivity|].
    rewrite Hadded, Hdeleted, Hnone.
    repeat split; try assumption; try reflexivity; try lia.
Qed.

Lemma filter_ext_in {A} (P Q : A -> Prop) `{!forall x, Decision (P x)}
    `{!forall x, Decision (Q x)} (l : list A) :
  (forall x, x ∈ l -> (P x <-> Q x)) -> filter P l = filter Q l.
Proof.
  induction l as [|x l IH]; intros Hext; [reflexivity|].
  rewrite !filter_cons.
  assert (filter P l = filter Q l) as ->
    by (apply IH; intros y Hy; apply Hext; now apply list_elem_of_further).
  destruct (decide (P x)) as [HP|HP], (decide (Q x)) as [HQ|HQ]; try reflexivity.
  - destruct HQ. apply Hext; [apply list_elem_of_here | exact HP].
  - destruct HP. apply Hext; [apply list_elem_of_here | exact HQ].
Qed.

Lemma filter_all_in {A} (P : A -> Prop) `{!forall x, Decision (P x)} (l : list A) :
  (forall x, x ∈ l -> P x) -> filter P l = l.
Proof.
  induction l as [|x l IH]; intros Hall; [reflexivity|].
  rewrite filter_cons. destruct (decide (P x)) as [_|HP].
  - f_equal. apply IH. intros y Hy. apply Hall. now apply list_elem_of_further.
  - destruct HP. apply Hall. apply list_elem_of_here.
Qed.

Lemma delete_loop_outcome env to_delete :
  forall st sBitmapList,
    faces_fit_U8 st ->
    exists st' new,
      delete_loop env to_delete st sBitmapList
      = Some (st', filter (fun u => u ∉ to_delete) sBitmapList) /\
      calls st' = calls st ++ new /\
      deleted_ids new = mWorldID <$> to_delete /\
      added_ids new = [] /\
      count_calls is_forceBakeAllTextures new <= length to_delete /\
      (to_delete <> [] -> sNeedsRebake st' = false) /\
      face_counts st' = face_counts st /\
      sGenerated st' = sGenerated st /\
      sTimerStarted st' = sTimerStarted st /\
      (forall id,
         id <> IMG_DEFAULT env ->
         (id ∈ (mWorldID <$> to_delete) \/
          forall i object, gObjectList st !! i = Some (Some object) -> ~ references id object) ->
         forall i object, gObjectList st' !! i = Some (Some object) -> ~ references id object).
Proof.
  induction to_delete as [|unit rest IH]; intros st sBitmapList Hfit; simpl.
  - exists st, []. split.
    { f_equal. f_equal. symmetry. apply filter_all_in.
      intros x _ Hx. now apply elem_of_nil in Hx. }
    rewrite app_nil_r. repeat split; try reflexivity; try lia; try contradiction.
    intros id _ [Hin|Hunref]; [now apply elem_of_nil in Hin | exact Hunref].
  - destruct (delete_outcome env unit st Hfit)
      as (st1 & mid & Hrun & Hcalls & Hadded & Hdeleted & Hcount & Hflag & Hcounts
          & Hgen & Htimer & Hobjects).
    rewrite Hrun. simpl.
    destruct (IH st1 (filter (fun u => u <> unit) sBitmapList))
      as (st2 & new & Hrest & Hcalls' & Hdeleted' & Hadded' & Hcount' & Hflag' & Hcounts'
          & Hgen' & Htimer' & Hunref').
    { now apply faces_fit_U8_counts with st. }
    rewrite Hrest.
    exists st2, (mid ++ [c_deleteImage (mWorldID unit)] ++ new).
    split.
    { f_equal. f_equal. rewrite list_filter_filter. apply filter_ext_in.
      intros x _. rewrite elem_of_cons. tauto. }
    split; [rewrite Hcalls', Hcalls; now rewrite <- !app_assoc|].
    rewrite !deleted_ids_app, !added_ids_app, !count_calls_app, Hdeleted, Hadded,
      Hdeleted', Hadded'.
    split; [reflexivity|]. split; [reflexivity|].
    split; [unfold count_calls at 2; simpl; lia|].
    split.
    { intros _. destruct rest as [|unit' rest']; [|now apply Hflag'].
      simpl in Hrest. injection Hrest as <- _. exact Hflag. }
    split; [congruence|]. split; [congruence|]. split; [congruence|].
    intros id Hid Hcase i object Hi. apply (Hunref' id Hid) with i; [|exact Hi].
    destruct (decide (id ∈ (mWorldID <$> rest))) as [Hin|Hnotin]; [now left|].
    right. intros i1 object1 Hi1. rewrite Hobjects in Hi1.
    destruct (decide (mWorldID unit = IMG_DEFAULT env)) as [Hdef|Hdef].
    + destruct Hcase as [Hin|Hunref]; [|now apply (Hunref i1)].
      apply elem_of_cons in Hin as [->|Hin];
        [contradiction | contradiction].
    + destruct Hcase as [Hin|Hunref].
      * apply elem_of_cons in Hin as [->|Hin]; [|contradiction].
        rewrite list_lookup_fmap in Hi1.
        destruct (gObjectList st !! i1) as [[object0|]|]; try discriminate.
        injection Hi1 as <-. now apply replace_object_unbinds.
      * now apply (unreferenced_after_replace id (mWorldID unit) (IMG_DEFAULT env)
                     (gObjectList st) Hdef Hid Hunref i1).
Qed.

(** ** delUnit *)

Lemma delUnit_unfold env st sBitmapList tracking_id :
  delUnit env st sBitmapList tracking_id
  = delete_loop env (filter (fun unit => mTrackingID unit = tracking_id) sBitmapList)
      st sBitmapList.
Proof.
  unfold delUnit. destruct (decide (sBitmapList = [])) as [->|]; reflexivity.
Qed.

Lemma filter_not_deleted (sBitmapList : list LLLocalBitmap) (tracking_id : LLUUID) :
  filter (fun u => u ∉ filter (fun unit => mTrackingID unit = tracking_id) sBitmapList)
         sBitmapList
  = filter (fun u => mTrackingID u <> tracking_id) sBitmapList.
Proof.
  apply filter_ext_in. intros x Hx. rewrite list_elem_of_filter. tauto.
Qed.

Lemma last_match_filter_same (l : list LLLocalBitmap) (tracking_id : LLUUID) :
  last_match (filter (fun u => mTrackingID u <> tracking_id) l) tracking_id = None.
Proof.
  unfold last_match. rewrite list_filter_filter.
  replace (filter (fun x => mTrackingID x = tracking_id /\ mTrackingID x <> tracking_id) l)
    with (@nil LLLocalBitmap); [reflexivity|].
  symmetry. induction l as [|x l IH]; [reflexivity|].
  rewrite filter_cons. destruct (decide _) as [[? ?]|]; [contradiction | exact IH].
Qed.

Lemma last_match_filter_other (l : list LLLocalBitmap) (tracking_id other : LLUUID) :
  other <> tracking_id ->
  last_match (filter (fun u => mTrackingID u <> tracking_id) l) other = last_match l other.
Proof.
  intros Hne. unfold last_match. rewrite list_filter_filter. f_equal.
  apply filter_ext_in. intros x _. split; [tauto|]. intros Hx. split; congruence.
Qed.

(** X17. [delUnit(tracking_id)], in a state whose face counts fit the loop
    counter, returns the registry without the units that have the tracking
    id, the others in their order. Afterwards [getWorldID] and
    [getFilename] give the null id and the empty string for that tracking
    id, and what they gave before for every other one. *)
Theorem delUnit_removes_the_matching_units env st sBitmapList tracking_id :
  faces_fit_U8 st ->
  exists st',
    let sBitmapList' := filter (fun u => mTrackingID u <> tracking_id) sBitmapList in
    delUnit env st sBitmapList tracking_id = Some (st', sBitmapList') /\
    getWorldID sBitmapList' tracking_id = LLUUID_null /\
    getFilename sBitmapList' tracking_id = EmptyString /\
    forall other,
      other <> tracking_id ->
      getWorldID sBitmapList' other = getWorldID sBitmapList other /\
      getFilename sBitmapList' other = getFilename sBitmapList other.
Proof.
  intros Hfit. rewrite delUnit_unfold.
  destruct (delete_loop_outcome env
              (filter (fun unit => mTrackingID unit = tracking_id) sBitmapList)
              st sBitmapList Hfit) as (st' & new & Hrun & _).
  rewrite filter_not_deleted in Hrun.
  exists st'. simpl. split; [exact Hrun|].
  destruct (queries_follow_last_match
              (filter (fun u => mTrackingID u <> tracking_id) sBitmapList) tracking_id)
    as [Hw Hf].
  rewrite Hw, Hf, last_match_filter_same.
  split; [reflexivity|]. split; [reflexivity|].
  intros other Hother.
  destruct (queries_follow_last_match
              (filter (fun u => mTrackingID u <> tracking_id) sBitmapList) other)
    as [Hw' Hf'].
  destruct (queries_follow_last_match sBitmapList other) as [Hw0 Hf0].
  rewrite Hw', Hf', Hw0, Hf0.
  now rewrite last_match_filter_other.
Qed.

Lemma delUnit_removes_the_matching_units_witness :
  let a := mkLLLocalBitmap "/tmp/a.png" "a" 7%N 100%N true "0" LS_ON ET_IMG_PNG 5 in
  let b := mkLLLocalBitmap "/tmp/b.png" "b" 8%N 500%N true "0" LS_ON ET_IMG_PNG 5 in
  let c := mkLLLocalBitmap "/tmp/c.png" "c" 7%N 300%N true "0" LS_ON ET_IMG_PNG 5 in
  exists st',
    delUnit env_ok sample_world [a; b; c] 7%N = Some (st', [b]) /\
    getWorldID [b] 7%N = LLUUID_null /\
    getWorldID [b] 8%N = 500%N.
Proof.
  intros a b c.
  destruct (delUnit_removes_the_matching_units env_ok sample_world [a; b; c] 7%N)
    as (st' & Hrun & Hnull & _ & _).
  - unfold faces_fit_U8. simpl. repeat constructor; lia.
  - exists st'. split; [exact Hrun|]. split; [exact Hnull | reflexivity].
Defined.

(** X18. [delUnit] with a tracking id that no unit of the registry has, and
    in particular on the empty registry, returns at once with the registry
    and the state as they were: no call is made, whatever the face counts
    are. *)
Theorem delUnit_without_match_changes_nothing env st sBitmapList tracking_id :
  Forall (fun unit => mTrackingID unit <> tracking_id) sBitmapList ->
  delUnit env st sBitmapList tracking_id = Some (st, sBitmapList).
Proof.
  intros Hnone. rewrite delUnit_unfold, filter_no_match by assumption. reflexivity.
Qed.

Lemma delUnit_without_match_changes_nothing_witness :
  delUnit env_ok sample_world [sample_unit ET_IMG_PNG LS_ON 5] 9%N
  = Some (sample_world, [sample_unit ET_IMG_PNG LS_ON 5]) /\
  delUnit env_ok sample_world [] 9%N = Some (sample_world, []).
Proof.
  split.
  - apply delUnit_without_match_changes_nothing. repeat constructor. discriminate.
  - apply delUnit_without_match_changes_nothing. constructor.
Defined.

(** X19. [delUnit] calls [deleteImage] once for each unit it removes, on
    the world id of the unit and in registry order, and registers no
    texture. It rebakes at most once per removed unit, and when it removed
    a unit the rebake flag is clear at the end; the generator is not
    used. *)
Theorem delUnit_deletes_each_texture_once env st sBitmapList tracking_id :
  faces_fit_U8 st ->
  exists st' sBitmapList',
    let removed := filter (fun unit => mTrackingID unit = tracking_id) sBitmapList in
    delUnit env st sBitmapList tracking_id = Some (st', sBitmapList') /\
    deleted_ids (emitted st st') = mWorldID <$> removed /\
    added_ids (emitted st st') = [] /\
    count_calls is_forceBakeAllTextures (emitted st st') <= length removed /\
    (removed <> [] -> sNeedsRebake st' = false) /\
    sGenerated st' = sGenerated st.
Proof.
  intros Hfit. rewrite delUnit_unfold.
  destruct (delete_loop_outcome env
              (filter (fun unit => mTrackingID unit = tracking_id) sBitmapList)
              st sBitmapList Hfit)
    as (st' & new & Hrun & Hcalls & Hdeleted & Hadded & Hcount & Hflag & _ & Hgen & _).
  exists st', (filter (fun u => u ∉ filter (fun unit => mTrackingID unit = tracking_id)
                                      sBitmapList) sBitmapList).
  simpl. split; [exact Hrun|].
  assert (emitted st st' = new) as ->
    by (unfold emitted; now rewrite Hcalls, drop_app_length).
  auto.
Qed.

Lemma delUnit_deletes_each_texture_once_witness :
  let a := mkLLLocalBitmap "/tmp/a.png" "a" 7%N 100%N true "0" LS_ON ET_IMG_PNG 5 in
  let b := mkLLLocalBitmap "/tmp/b.png" "b" 8%N 500%N true "0" LS_ON ET_IMG_PNG 5 in
  exists st' sBitmapList',
    delUnit env_ok sample_world [a; b] 8%N = Some (st', sBitmapList') /\
    deleted_ids (emitted sample_world st') = [500%N] /\
    sNeedsRebake st' = false.
Proof.
  intros a b.
  destruct (delUnit_deletes_each_texture_once env_ok sample_world [a; b] 8%N)
    as (st' & l' & Hrun & Hdeleted & _ & _ & Hflag & _).
  - unfold faces_fit_U8. simpl. repeat constructor; lia.
  - exists st', l'. split; [exact Hrun|]. split; [exact Hdeleted|].
    apply Hflag. discriminate.
Defined.

(** X20. After [delUnit], no object uses the world id of a removed unit any
    more, neither as sculpt texture nor on a face within its face count,
    unless that world id is [IMG_DEFAULT] itself: removing a unit leaves no
    reference to its texture behind, also when several units are removed
    in one call. *)
Theorem delUnit_leaves_no_reference env st sBitmapList tracking_id :
  faces_fit_U8 st ->
  exists st' sBitmapList',
    delUnit env st sBitmapList tracking_id = Some (st', sBitmapList') /\
    forall unit,
      unit ∈ sBitmapList ->
      mTrackingID unit = tracking_id ->
      mWorldID unit <> IMG_DEFAULT env ->
      forall i object,
        gObjectList st' !! i = Some (Some object) -> ~ references (mWorldID unit) object.
Proof.
  intros Hfit. rewrite delUnit_unfold.
  destruct (delete_loop_outcome env
              (filter (fun unit => mTrackingID unit = tracking_id) sBitmapList)
              st sBitmapList Hfit)
    as (st' & new & Hrun & _ & _ & _ & _ & _ & _ & _ & _ & Hunref).
  do 2 eexists. split; [exact Hrun|].
  intros unit Hin Hid Hdef. apply Hunref; [exact Hdef|].
  left. apply list_elem_of_fmap_2. apply list_elem_of_filter. now split.
Qed.

Lemma delUnit_leaves_no_reference_witness :
  let b := mkLLLocalBitmap "/tmp/b.png" "b" 8%N 500%N true "0" LS_ON ET_IMG_PNG 5 in
  exists st' sBitmapList',
    delUnit env_ok sample_world [b] 8%N = Some (st', sBitmapList') /\
    forall i object,
      gObjectList st' !! i = Some (Some object) -> ~ references 500%N object.
Proof.
  intros b.
  destruct (delUnit_leaves_no_reference env_ok sample_world [b] 8%N)
    as (st' & l' & Hrun & Hunref).
  - unfold faces_fit_U8. simpl. repeat constructor; lia.
  - exists st', l'. split; [exact Hrun|].
    apply (Hunref b); [apply list_elem_of_here | reflexivity | discriminate].
Defined.

(** ** Construction of a unit *)

Lemma updateSelf_publish_first env st u :
  publishes env u = true ->
  updateSelf env true st u
  = Some (true,
          addImage (generate env (sGenerated st)) (set_sGenerated (S (sGenerated st)) st),
          set_published (generate env (sGenerated st))
            (last_write_time env (mFilename u)) u).
Proof.
  intros Hpub. apply publishes_true in Hpub as (Hon & Hexists & Hstamp & Hdecode).
  unfold updateSelf. rewrite Hon, Hexists, Hdecode. simpl.
  now destruct (decide (mLastModified u = last_write_time env (mFilename u))).
Qed.

Lemma new_outcome gDirUtilp env indeterminate filename st :
  let tracking_id := generate env (sGenerated st) in
  let world_id := generate env (S (sGenerated st)) in
  exists u,
    mFilename u = filename /\ mTrackingID u = tracking_id /\
    ((exists extension,
        extension_of (getExtension gDirUtilp filename) = Some extension /\
        publishes env (fresh_unit gDirUtilp filename tracking_id extension) = true /\
        u = set_mValid true
              (set_published world_id (last_write_time env filename)
                 (fresh_unit gDirUtilp filename tracking_id extension)) /\
        LLLocalBitmap_new gDirUtilp env indeterminate filename st
        = Some (addImage world_id (set_sGenerated (S (S (sGenerated st))) st), u))
     \/
     ((forall extension,
         extension_of (getExtension gDirUtilp filename) = Some extension ->
         publishes env (fresh_unit gDirUtilp filename tracking_id extension) = false) /\
      mValid u = false /\ mWorldID u = LLUUID_null /\
      LLLocalBitmap_new gDirUtilp env indeterminate filename st
      = Some (set_sGenerated (S (sGenerated st)) st, u))).
Proof.
  intros tracking_id world_id. unfold LLLocalBitmap_new. fold tracking_id.
  destruct (extension_of (getExtension gDirUtilp filename)) as [extension|].
  - destruct (publishes env (fresh_unit gDirUtilp filename tracking_id extension)) eqn:Hpub.
    + rewrite (updateSelf_publish_first _ _ _ Hpub). simpl.
      exists (set_mValid true
                (set_published world_id (last_write_time env filename)
                   (fresh_unit gDirUtilp filename tracking_id extension))).
      split; [reflexivity|]. split; [reflexivity|].
      left. exists extension. split; [reflexivity|]. split; [exact Hpub|].
      split; reflexivity.
    + destruct (updateSelf_no_publish env true
                  (set_sGenerated (S (sGenerated st)) st)
                  (fresh_unit gDirUtilp filename tracking_id extension) Hpub)
        as (u' & Hrun & Hid & _ & Hident & _).
      rewrite Hrun. simpl. unfold identity_of in Hident.
      injection Hident as Hf _ Ht _ _.
      exists (set_mValid false u'). split; [exact Hf|]. split; [exact Ht|].
      right. split; [|repeat split; assumption].
      intros extension' [= <-]. exact Hpub.
  - exists (fresh_unit gDirUtilp filename tracking_id indeterminate).
    split; [reflexivity|]. split; [reflexivity|].
    right. split; [discriminate|]. repeat split.
Qed.


(** ** addUnit *)

Lemma add_loop_outcome gDirUtilp env indeterminate files :
  forall st sBitmapList add_successful,
    faces_fit_U8 st ->
    exists st' added,
      add_loop gDirUtilp env indeterminate files st sBitmapList add_successful
      = Some (st', sBitmapList ++ added,
              add_successful || negb (bool_decide (added = []))) /\
      sGenerated st <= sGenerated st' /\
      face_counts st' = face_counts st /\
      sTimerStarted st' = sTimerStarted st /\
      Forall (fun u =>
                mValid u = true /\ mLinkStatus u = LS_ON /\
                mUpdateRetries u = LL_LOCAL_UPDATE_RETRIES /\
                mFilename u ∈ files /\ mFilename u <> EmptyString /\
                exists n, sGenerated st <= n /\ S n < sGenerated st' /\
                          mTrackingID u = generate env n /\
                          mWorldID u = generate env (S n)) added /\
      ((forall m n, generate env m = generate env n -> m = n) ->
       NoDup (mTrackingID <$> added)).
Proof.
  induction files as [|filename rest IH]; intros st sBitmapList add_successful Hfit; simpl.
  - exists st, []. rewrite app_nil_r, orb_false_r.
    repeat split; try reflexivity; try lia; constructor.
  - destruct (decide (filename = EmptyString)) as [->|Hname].
    { exists st, []. rewrite app_nil_r, orb_false_r.
      repeat split; try reflexivity; try lia; constructor. }
    destruct (new_outcome gDirUtilp env indeterminate filename st)
      as (u & Hf & Ht & [(extension & Hext & Hpub & Hu & Hrun)|(_ & Hv & Hw & Hrun)]).
    + rewrite Hrun. simpl. rewrite Hu. simpl.
      destruct (IH (addImage (generate env (S (sGenerated st)))
                      (set_sGenerated (S (S (sGenerated st))) st))
                   (sBitmapList ++ [u]) true Hfit)
        as (st' & added & Hloop & Hle & Hcounts & Htimer & Hall & Hnodup).
      rewrite <- Hu, Hloop. simpl in Hle.
      exists st', (u :: added). rewrite <- app_assoc. simpl.
      split; [now rewrite orb_true_r|]. split; [lia|].
      split; [exact Hcounts|]. split; [exact Htimer|]. split.
      * constructor.
        -- rewrite Hu. simpl. repeat split; try reflexivity.
           ++ apply list_elem_of_here.
           ++ exact Hname.
           ++ exists (sGenerated st). split; [lia|]. split; [lia|]. now split.
        -- eapply Forall_impl; [exact Hall|].
           intros u' (Hv' & Hl' & Hr' & Hin' & Hne' & n & Hn1 & Hn2 & Ht' & Hw').
           repeat split; try assumption; [now apply list_elem_of_further|].
           exists n. simpl in Hn1. repeat split; try assumption; lia.
      * intros Hinj. simpl. apply NoDup_cons. split; [|now apply Hnodup].
        intros Hin. apply list_elem_of_fmap in Hin as (u' & Heq & Hin').
        rewrite Forall_forall in Hall.
        destruct (Hall u' Hin') as (_ & _ & _ & _ & _ & n & Hn1 & _ & Ht' & _).
        rewrite Ht, Ht' in Heq. apply Hinj in Heq. simpl in Hn1. lia.
    + rewrite Hrun. simpl. rewrite Hv.
      destruct (delete_outcome env u (set_sGenerated (S (sGenerated st)) st) Hfit)
        as (st1 & mid & Hdel & _ & _ & _ & _ & _ & Hcounts1 & Hgen1 & Htimer1 & _).
      rewrite Hdel. simpl.
      destruct (IH st1 sBitmapList add_successful)
        as (st' & added & Hloop & Hle & Hcounts & Htimer & Hall & Hnodup).
      { now apply faces_fit_U8_counts with (set_sGenerated (S (sGenerated st)) st). }
      rewrite Hloop. simpl in Hgen1.
      exists st', added. split; [reflexivity|]. split; [lia|].
      split; [now rewrite Hcounts, Hcounts1|]. split; [now rewrite Htimer, Htimer1|].
      split; [|exact Hnodup].
      eapply Forall_impl; [exact Hall|].
      intros u' (Hv' & Hl' & Hr' & Hin' & Hne' & n & Hn1 & Hn2 & Ht' & Hw').
      repeat split; try assumption; [now apply list_elem_of_further|].
      exists n. repeat split; try assumption; lia.
Qed.

Lemma gives_valid_unit_iff gDirUtilp env filename tracking_id :
  gives_valid_unit gDirUtilp env filename = true <->
  exists extension,
    extension_of (getExtension gDirUtilp filename) = Some extension /\
    publishes env (fresh_unit gDirUtilp filename tracking_id extension) = true.
Proof.
  unfold gives_valid_unit.
  destruct (extension_of (getExtension gDirUtilp filename)) as [extension|].
  - change (publishes env (fresh_unit gDirUtilp filename LLUUID_null extension))
      with (publishes env (fresh_unit gDirUtilp filename tracking_id extension)).
    split; [eauto|]. now intros (extension' & [= <-] & Hpub).
  - split; [discriminate|]. now intros (extension' & Hext & _).
Qed.

Lemma add_loop_names gDirUtilp env indeterminate files :
  forall st sBitmapList add_successful st' sBitmapList' add_successful',
    add_loop gDirUtilp env indeterminate files st sBitmapList add_successful
    = Some (st', sBitmapList', add_successful') ->
    exists added,
      sBitmapList' = sBitmapList ++ added /\
      mFilename <$> added
      = filter (fun filename => gives_valid_unit gDirUtilp env filename = true)
               (names_before_empty files).
Proof.
  induction files as [|filename rest IH];
    intros st sBitmapList add_successful st' sBitmapList' add_successful'; simpl.
  - intros [= _ <- _]. exists []. now rewrite app_nil_r.
  - destruct (decide (filename = EmptyString)) as [->|Hname].
    { intros [= _ <- _]. exists []. now rewrite app_nil_r. }
    rewrite filter_cons.
    destruct (new_outcome gDirUtilp env indeterminate filename st)
      as (u & Hf & Ht & [(extension & Hext & Hpub & Hu & Hrun)|(Hnone & Hv & Hw & Hrun)]).
    + rewrite Hrun. simpl. rewrite Hu. simpl. rewrite <- Hu. intros Hloop.
      apply IH in Hloop as (added & -> & Hnames).
      exists (u :: added). rewrite <- app_assoc. split; [reflexivity|].
      destruct (decide (gives_valid_unit gDirUtilp env filename = true)) as [_|Hno].
      * now rewrite fmap_cons, Hf, Hnames.
      * exfalso. apply Hno. eapply gives_valid_unit_iff. eauto.
    + rewrite Hrun. simpl. rewrite Hv.
      destruct (LLLocalBitmap_delete env u _) as [st1|]; [|discriminate]. simpl.
      intros Hloop. apply IH in Hloop as (added & -> & Hnames).
      exists added. split; [reflexivity|].
      destruct (decide (gives_valid_unit gDirUtilp env filename = true)) as [Hyes|_];
        [|exact Hnames].
      exfalso.
      apply (gives_valid_unit_iff _ _ _ (generate env (sGenerated st))) in Hyes
        as (extension & Hext & Hpub).
      rewrite (Hnone extension Hext) in Hpub. discriminate.
Qed.

Lemma add_loop_calls gDirUtilp env indeterminate files :
  forall st sBitmapList add_successful st' sBitmapList' add_successful',
    faces_fit_U8 st ->
    add_loop gDirUtilp env indeterminate files st sBitmapList add_successful
    = Some (st', sBitmapList', add_successful') ->
    exists added new,
      sBitmapList' = sBitmapList ++ added /\
      calls st' = calls st ++ new /\
      added_ids new = mWorldID <$> added /\
      deleted_ids new
      = (fun _ => LLUUID_null)
          <$> filter (fun filename => gives_valid_unit gDirUtilp env filename <> true)
                     (names_before_empty files).
Proof.
  induction files as [|filename rest IH];
    intros st sBitmapList add_successful st' sBitmapList' add_successful' Hfit; simpl.
  - intros [= <- <- _]. exists [], []. now rewrite !app_nil_r.
  - destruct (decide (filename = EmptyString)) as [->|Hname].
    { intros [= <- <- _]. exists [], []. now rewrite !app_nil_r. }
    rewrite filter_cons.
    destruct (new_outcome gDirUtilp env indeterminate filename st)
      as (u & Hf & Ht & [(extension & Hext & Hpub & Hu & Hrun)|(Hnone & Hv & Hw & Hrun)]).
    + rewrite Hrun. simpl. rewrite Hu. simpl. rewrite <- Hu. intros Hloop.
      apply IH in Hloop as (added & new & -> & Hcalls & Hadded & Hdeleted);
        [|exact Hfit].
      exists (u :: added), (c_addImage (generate env (S (sGenerated st))) :: new).
      rewrite <- app_assoc. split; [reflexivity|].
      split; [rewrite Hcalls; simpl; now rewrite <- app_assoc|].
      split; [rewrite fmap_cons; simpl; rewrite Hadded, Hu; reflexivity|].
      destruct (decide (gives_valid_unit gDirUtilp env filename <> true)) as [Hno|_];
        [|exact Hdeleted].
      exfalso. apply Hno. eapply gives_valid_unit_iff. eauto.
    + rewrite Hrun. simpl. rewrite Hv.
      destruct (delete_outcome env u (set_sGenerated (S (sGenerated st)) st) Hfit)
        as (st1 & mid & Hdel & Hcalls1 & Hadded1 & Hdeleted1 & _ & _ & Hcounts1 & _).
      rewrite Hdel. simpl. intros Hloop.
      apply IH in Hloop as (added & new & -> & Hcalls & Hadded & Hdeleted);
        [|now apply faces_fit_U8_counts with (set_sGenerated (S (sGenerated st)) st)].
      exists added, (mid ++ [c_deleteImage (mWorldID u)] ++ new).
      split; [reflexivity|].
      split; [rewrite Hcalls, Hcalls1; simpl; now rewrite <- !app_assoc|].
      rewrite !added_ids_app, !deleted_ids_app, Hadded1, Hdeleted1, Hw. simpl.
      split; [exact Hadded|].
      destruct (decide (gives_valid_unit gDirUtilp env filename <> true)) as [_|Hyes];
        [now rewrite fmap_cons, Hdeleted|].
      exfalso. destruct (gives_valid_unit gDirUtilp env filename) eqn:Hvalid;
        [|now apply Hyes].
      apply (gives_valid_unit_iff _ _ _ (generate env (sGenerated st))) in Hvalid
        as (extension & Hext & Hpub).
      rewrite (Hnone extension Hext) in Hpub. discriminate.
Qed.

(** X22. [addUnit], in a state whose face counts fit the loop counter,
    keeps the registry it had and appends the valid units it constructed,
    in the order of the picked names: the file names of the appended units
    are, in order, the names before the first empty one from which the
    constructor makes a valid unit; units that came out invalid are
    destroyed and not added. The textures registered with [addImage] are
    the world ids of the appended units, in order, and [deleteImage] is
    called once per invalid unit, on the null id it has. It returns true
    exactly when it appended a unit. Every appended unit is valid and [LS_ON] with 5 retries, and
    tracking and world id are two consecutive ids of the generator; with a
    generator that never repeats, the appended units have pairwise
    different tracking ids. When the picker reports failure nothing changes
    at all; otherwise the timer runs at the end. *)
Theorem addUnit_appends_the_valid_units
    gDirUtilp env indeterminate picker st sBitmapList :
  faces_fit_U8 st ->
  exists st' added,
    addUnit gDirUtilp env indeterminate picker st sBitmapList
    = Some (st', sBitmapList ++ added, negb (bool_decide (added = []))) /\
    (getMultipleOpenFiles picker = true ->
     mFilename <$> added
     = filter (fun filename => gives_valid_unit gDirUtilp env filename = true)
              (names_before_empty (picked picker)) /\
     added_ids (emitted st st') = mWorldID <$> added /\
     deleted_ids (emitted st st')
     = (fun _ => LLUUID_null)
         <$> filter (fun filename => gives_valid_unit gDirUtilp env filename <> true)
                    (names_before_empty (picked picker))) /\
    Forall (fun u =>
              mValid u = true /\ mLinkStatus u = LS_ON /\
              mUpdateRetries u = LL_LOCAL_UPDATE_RETRIES /\
              mFilename u ∈ picked picker /\ mFilename u <> EmptyString /\
              exists n, mTrackingID u = generate env n /\
                        mWorldID u = generate env (S n)) added /\
    ((forall m n, generate env m = generate env n -> m = n) ->
     NoDup (mTrackingID <$> added)) /\
    (getMultipleOpenFiles picker = false -> st' = st /\ added = []) /\
    (getMultipleOpenFiles picker = true -> sTimerStarted st' = true).
Proof.
  intros Hfit. unfold addUnit.
  destruct (getMultipleOpenFiles picker).
  - destruct (add_loop_outcome gDirUtilp env indeterminate (picked picker)
                (stopTimer st) sBitmapList false Hfit)
      as (st' & added & Hloop & _ & _ & _ & Hall & Hnodup).
    rewrite Hloop. simpl.
    exists (startTimer st'), added. split; [reflexivity|].
    split.
    { intros _. split.
      - apply add_loop_names in Hloop as (added' & Heq & Hnames).
        apply app_inv_head in Heq. now rewrite Heq.
      - apply add_loop_calls in Hloop as (added' & new & Heq & Hcalls & Hadded & Hdeleted);
          [|exact Hfit].
        apply app_inv_head in Heq. subst added'.
        assert (emitted st (startTimer st') = new) as ->; [|now split].
        unfold emitted. simpl in Hcalls |- *. rewrite Hcalls. apply drop_app_length. }
    split.
    { eapply Forall_impl; [exact Hall|].
      intros u (Hv & Hl & Hr & Hin & Hne & n & _ & _ & Ht & Hw).
      repeat split; try assumption. now exists n. }
    split; [exact Hnodup|]. split; [discriminate | reflexivity].
  - exists st, []. rewrite app_nil_r. split; [reflexivity|].
    split; [discriminate|].
    split; [constructor|]. split; [intros _; constructor|].
    split; [now split | discriminate].
Qed.

Lemma addUnit_appends_the_valid_units_witness :
  let picker :=
    mkLLFilePicker true ["/tmp/a.png"; "/tmp/b.gif"; "/tmp/c.jpeg"; ""; "/tmp/a.png"] in
  names_before_empty (picked picker) = ["/tmp/a.png"; "/tmp/b.gif"; "/tmp/c.jpeg"] /\
  exists st',
    addUnit sample_dir env_ok ET_IMG_BMP picker
      sample_world [sample_unit ET_IMG_PNG LS_ON 5]
    = Some (st', [sample_unit ET_IMG_PNG LS_ON 5;
                  mkLLLocalBitmap "/tmp/a.png" "/tmp/a.png" 1000%N 1001%N true
                    sample_stamp LS_ON ET_IMG_PNG 5;
                  mkLLLocalBitmap "/tmp/c.jpeg" "/tmp/c.jpeg" 1003%N 1004%N true
                    sample_stamp LS_ON ET_IMG_JPG 5], true).
Proof.
  intros picker. split; [reflexivity|].
  destruct (addUnit_appends_the_valid_units sample_dir env_ok ET_IMG_BMP picker
              sample_world [sample_unit ET_IMG_PNG LS_ON 5])
    as (st' & added & Hrun & _).
  - unfold faces_fit_U8. simpl. repeat constructor; lia.
  - exists st'. rewrite Hrun. vm_compute in Hrun.
    injection Hrun as _ <- _. reflexivity.
Defined.

(** X23. Adding one file that gives a valid unit and then deleting the
    tracking id of that unit gives the registry back as it was, when no
    unit of the registry already had the tracking id the generator yields.
    The texture registered by the add is the one the delete removes. *)
Theorem add_then_delete_restores_the_registry
    gDirUtilp env indeterminate filename st sBitmapList :
  faces_fit_U8 st ->
  filename <> EmptyString ->
  (exists extension,
     extension_of (getExtension gDirUtilp filename) = Some extension /\
     publishes env (fresh_unit gDirUtilp filename (generate env (sGenerated st)) extension)
     = true) ->
  Forall (fun unit => mTrackingID unit <> generate env (sGenerated st)) sBitmapList ->
  exists st1 u st2,
    addUnit gDirUtilp env indeterminate (mkLLFilePicker true [filename]) st sBitmapList
    = Some (st1, sBitmapList ++ [u], true) /\
    delUnit env st1 (sBitmapList ++ [u]) (mTrackingID u) = Some (st2, sBitmapList) /\
    added_ids (emitted st st1) = [mWorldID u] /\
    deleted_ids (emitted st1 st2) = [mWorldID u].
Proof.
  intros Hfit Hname (extension & Hext & Hpub) Hfresh.
  destruct (new_outcome gDirUtilp env indeterminate filename (stopTimer st))
    as (u & Hf & Ht & [(extension' & Hext' & _ & Hu & Hrun)|(Hnone & _)]);
    [|specialize (Hnone extension Hext); simpl in Hnone; congruence].
  simpl in Ht, Hrun.
  set (st1 := startTimer (addImage (generate env (S (sGenerated st)))
                            (set_sGenerated (S (S (sGenerated st))) (stopTimer st)))).
  assert (addUnit gDirUtilp env indeterminate (mkLLFilePicker true [filename]) st sBitmapList
          = Some (st1, sBitmapList ++ [u], true)) as Hadd.
  { unfold addUnit. simpl. destruct (decide (filename = EmptyString)); [contradiction|].
    rewrite Hrun. simpl. rewrite Hu. reflexivity. }
  assert (filter (fun unit => mTrackingID unit = mTrackingID u) (sBitmapList ++ [u]) = [u])
    as Hmatch.
  { rewrite filter_app, filter_no_match by (now rewrite Ht).
    rewrite filter_cons. now destruct (decide (mTrackingID u = mTrackingID u)). }
  destruct (delete_loop_outcome env [u] st1 (sBitmapList ++ [u]) Hfit)
    as (st2 & new & Hdel & Hcalls & Hdeleted & _).
  assert (filter (fun x => x ∉ [u]) (sBitmapList ++ [u]) = sBitmapList) as Hrest.
  { rewrite filter_app, filter_cons.
    destruct (decide (u ∉ [u])) as [Hnot|_];
      [destruct Hnot; apply list_elem_of_here|].
    rewrite filter_nil, app_nil_r. apply filter_all_in.
    intros x Hx Hin. apply list_elem_of_singleton in Hin as ->.
    rewrite Forall_forall in Hfresh. now apply (Hfresh u Hx). }
  rewrite Hrest in Hdel.
  exists st1, u, st2. split; [exact Hadd|]. split; [|split].
  - now rewrite delUnit_unfold, Hmatch.
  - rewrite Hu. unfold emitted. simpl. now rewrite drop_app_length.
  - unfold emitted. rewrite Hcalls, drop_app_length. exact Hdeleted.
Qed.

Lemma add_then_delete_restores_the_registry_witness :
  let old := sample_unit ET_IMG_PNG LS_ON 5 in
  exists st1 u st2,
    addUnit sample_dir env_ok ET_IMG_BMP (mkLLFilePicker true ["/tmp/a.png"])
      sample_world [old]
    = Some (st1, [old; u], true) /\
    delUnit env_ok st1 [old; u] (mTrackingID u) = Some (st2, [old]).
Proof.
  intros old.
  destruct (add_then_delete_restores_the_registry sample_dir env_ok ET_IMG_BMP
              "/tmp/a.png" sample_world [old])
    as (st1 & u & st2 & Hadd & Hdel & _).
  - unfold faces_fit_U8. simpl. repeat constructor; lia.
  - discriminate.
  - exists ET_IMG_PNG. split; reflexivity.
  - repeat constructor. discriminate.
  - exists st1, u, st2. split; [exact Hadd | exact Hdel].
Defined.

(** ** feedScrollList *)

Lemma feed_rows (rows : list (string * LLUUID)) (l : list LLLocalBitmap) :
  foldl (fun rows unit => rows ++ [(mShortName unit, mTrackingID unit)]) rows l
  = rows ++ ((fun unit => (mShortName unit, mTrackingID unit)) <$> l).
Proof.
  revert rows. induction l as [|unit l IH]; intros rows; simpl.
  - now rewrite app_nil_r.
  - now rewrite IH, <- app_assoc.
Qed.

Lemma last_match_split (sBitmapList : list LLLocalBitmap) (tracking_id : LLUUID) unit :
  last_match sBitmapList tracking_id = Some unit ->
  exists before after,
    sBitmapList = before ++ unit :: after /\
    mTrackingID unit = tracking_id /\
    Forall (fun other => mTrackingID other <> tracking_id) after.
Proof.
  unfold last_match.
  induction sBitmapList as [|other l IH] using rev_ind; [discriminate|].
  rewrite filter_app, filter_cons, filter_nil.
  destruct (decide (mTrackingID other = tracking_id)) as [Hid|Hne].
  - rewrite last_snoc. intros [= <-]. exists l, []. now repeat split.
  - rewrite app_nil_r. intros Hlast.
    destruct (IH Hlast) as (before & after & -> & Hid & Hafter).
    exists before, (after ++ [other]). rewrite <- app_assoc. split; [reflexivity|].
    split; [exact Hid|]. apply Forall_app. split; [exact Hafter|]. now constructor.
Qed.

(** X24. [feedScrollList] does nothing on a null control. Otherwise the
    control ends up with one row per unit of the registry, in registry
    order, carrying the short name and the tracking id of the unit,
    whatever rows it had before; and for every tracking id it shows,
    [getFilename] and [getWorldID] give the values of the last unit of the
    registry with that id: the registry is [before ++ unit :: after] where
    [unit] has the id, no unit of [after] has it, and the queries give the
    file name and the world id of [unit]. *)
Theorem feedScrollList_lists_the_registry (sBitmapList : list LLLocalBitmap) :
  feedScrollList None sBitmapList = None /\
  (forall old_rows,
     feedScrollList (Some old_rows) sBitmapList
     = Some ((fun unit => (mShortName unit, mTrackingID unit)) <$> sBitmapList)) /\
  (forall old_rows rows name tracking_id,
     feedScrollList (Some old_rows) sBitmapList = Some rows ->
     (name, tracking_id) ∈ rows ->
     exists before unit after,
       sBitmapList = before ++ unit :: after /\
       mTrackingID unit = tracking_id /\
       Forall (fun other => mTrackingID other <> tracking_id) after /\
       getFilename sBitmapList tracking_id = mFilename unit /\
       getWorldID sBitmapList tracking_id = mWorldID unit).
Proof.
  assert (forall old_rows,
            feedScrollList (Some old_rows) sBitmapList
            = Some ((fun unit => (mShortName unit, mTrackingID unit)) <$> sBitmapList))
    as Hrows.
  { intros old_rows. unfold feedScrollList.
    destruct (decide (sBitmapList = [])) as [->|]; [reflexivity|].
    now rewrite feed_rows. }
  split; [reflexivity|]. split; [exact Hrows|].
  intros old_rows rows name tracking_id Hfeed Hin.
  rewrite Hrows in Hfeed. injection Hfeed as <-.
  apply list_elem_of_fmap in Hin as (shown & [= _ ->] & Hshown).
  destruct (queries_follow_last_match sBitmapList (mTrackingID shown)) as [Hw Hf].
  destruct (last_match sBitmapList (mTrackingID shown)) as [unit|] eqn:Hlast.
  - destruct (last_match_split _ _ _ Hlast) as (before & after & Hsplit & Hid & Hafter).
    exists before, unit, after. repeat split; assumption.
  - unfold last_match in Hlast. apply last_None in Hlast.
    assert (shown ∈ filter (fun unit => mTrackingID unit = mTrackingID shown) sBitmapList)
      as Hempty by (apply list_elem_of_filter; now split).
    rewrite Hlast in Hempty. now apply elem_of_nil in Hempty.
Qed.

Lemma feedScrollList_lists_the_registry_witness :
  let a := mkLLLocalBitmap "/tmp/a.png" "a" 7%N 100%N true "0" LS_ON ET_IMG_PNG 5 in
  let b := mkLLLocalBitmap "/tmp/b.png" "b" 7%N 500%N true "0" LS_ON ET_IMG_PNG 5 in
  feedScrollList (Some [("stale", 1%N)]) [a; b] = Some [("a", 7%N); ("b", 7%N)] /\
  getFilename [a; b] 7%N = "/tmp/b.png" /\ getWorldID [a; b] 7%N = 500%N.
Proof.
  intros a b.
  destruct (feedScrollList_lists_the_registry [a; b]) as (_ & Hrows & Hfound).
  split; [apply Hrows|].
  destruct (Hfound [("stale", 1%N)] [("a", 7%N); ("b", 7%N)] "a" 7%N)
    as (before & unit & after & Hsplit & Hid & Hafter & Hname & Hworld).
  - apply Hrows.
  - apply list_elem_of_here.
  - rewrite Hname, Hworld.
    destruct after as [|other after].
    + apply (f_equal (@last LLLocalBitmap)) in Hsplit.
      rewrite last_snoc in Hsplit. injection Hsplit as <-. now split.
    + exfalso. apply Forall_cons in Hafter as [Hother Hafter].
      assert (other ∈ [a; b]) as Hin
        by (rewrite Hsplit; apply elem_of_app; right;
            apply list_elem_of_further, list_elem_of_here).
      apply elem_of_cons in Hin as [->|Hin]; [now apply Hother|].
      apply elem_of_cons in Hin as [->|Hin]; [now apply Hother|].
      now apply elem_of_nil in Hin.
Defined.

(** ** The URI parser *)

Lemma find_None_iff (needle s : list Ascii.ascii) :
  LLUriParser.find needle s = None <-> forall l1 l2, s <> l1 ++ needle ++ l2.
Proof.
  induction s as [|c rest IH]; simpl.
  - case_decide as Hpre.
    + split; [discriminate|]. intros Hno. exfalso.
      apply prefix_nil_inv in Hpre. subst needle. now apply (Hno [] []).
    + split; [|reflexivity]. intros _ l1 l2 Heq. apply Hpre.
      symmetry in Heq. apply app_eq_nil in Heq as [_ Heq].
      apply app_eq_nil in Heq as [-> _]. reflexivity.
  - case_decide as Hpre.
    + split; [discriminate|]. intros Hno. exfalso.
      destruct Hpre as [l2 Hl2]. now apply (Hno [] l2).
    + rewrite fmap_None, IH. split.
      * intros Hno [|c' l1] l2 Heq.
        -- apply Hpre. exists l2. exact Heq.
        -- injection Heq as _ Heq. now apply (Hno l1 l2).
      * intros Hno l1 l2 ->. now apply (Hno (c :: l1) l2).
Qed.

Lemma c_str_no_NUL (s : list Ascii.ascii) : LLUriParser.NUL ∉ LLUriParser.c_str s.
Proof.
  induction s as [|c rest IH]; simpl.
  - apply not_elem_of_nil.
  - case_decide as Hc; [apply not_elem_of_nil|].
    apply not_elem_of_cons. split; [congruence | exact IH].
Qed.

Lemma c_str_id (s : list Ascii.ascii) :
  LLUriParser.NUL ∉ s -> LLUriParser.c_str s = s.
Proof.
  induction s as [|c rest IH]; simpl; [reflexivity|].
  intros Hno. apply not_elem_of_cons in Hno as [Hc Hrest].
  case_decide; [congruence|]. now rewrite IH.
Qed.

Lemma path_of_foldl (mem : nat -> Ascii.ascii) (segments : list LLUriParser.UriTextRangeA)
    (path : list Ascii.ascii) :
  foldl (fun path segment =>
           (path ++ LLUriParser.lit "/") ++ LLUriParser.textRangeToString mem segment)
        path segments
  = path ++ LLUriParser.path_of mem segments.
Proof.
  revert path. induction segments as [|segment segments IH]; intros path; simpl.
  - now rewrite app_nil_r.
  - rewrite IH. unfold LLUriParser.path_of. simpl. now rewrite <- !app_assoc.
Qed.

(** X25. [glue] writes, one after the other: the scheme and [://] in
    place of what the string held, or nothing new when the scheme is empty;
    the host; a colon and the port when the port is not empty; the path; a
    question mark and the query when the query is not empty, and only then
    a hash and the fragment when the fragment is not empty. So with a
    scheme the old content of [uri] is overwritten and without one the
    parts are appended to it, and a parser with an empty query glues the
    same string whatever its fragment is. *)
Theorem glue_overwrites_or_appends (p : LLUriParser.t) (uri : list Ascii.ascii) :
  LLUriParser.glue p uri
  = (if decide (LLUriParser.mScheme p = []) then uri
     else LLUriParser.mScheme p ++ LLUriParser.lit "://")
    ++ LLUriParser.mHost p
    ++ (if decide (LLUriParser.mPort p = []) then []
        else LLUriParser.lit ":" ++ LLUriParser.mPort p)
    ++ LLUriParser.mPath p
    ++ (if decide (LLUriParser.mQuery p = []) then []
        else LLUriParser.lit "?" ++ LLUriParser.mQuery p
             ++ (if decide (LLUriParser.mFragment p = []) then []
                 else LLUriParser.lit "#" ++ LLUriParser.mFragment p)) /\
  (LLUriParser.mScheme p <> [] -> LLUriParser.glue p uri = LLUriParser.glue p []) /\
  (LLUriParser.mScheme p = [] -> LLUriParser.glue p uri = uri ++ LLUriParser.glue p []) /\
  (LLUriParser.mQuery p = [] ->
   forall fragment,
     LLUriParser.glue (LLUriParser.fragment fragment p) uri = LLUriParser.glue p uri).
Proof.
  destruct p as [scheme port host path query fragment normalized tmp res parsed].
  unfold LLUriParser.glue, LLUriParser.fragment, LLUriParser.with_parts. simpl.
  split; [|split; [|split]].
  - destruct scheme, port, query, fragment; simpl;
      rewrite ?app_nil_r, <- ?app_assoc; simpl; rewrite <- ?app_assoc; reflexivity.
  - intros Hscheme. destruct scheme; [congruence|]. reflexivity.
  - intros ->. simpl.
    repeat case_decide; rewrite <- ?app_assoc; reflexivity.
  - intros -> fragment'. reflexivity.
Qed.

Lemma glue_overwrites_or_appends_witness :
  let none := LLUriParser.mkUriTextRangeA None None in
  let p := LLUriParser.mk (LLUriParser.lit "https") (LLUriParser.lit "8080")
             (LLUriParser.lit "example.org") (LLUriParser.lit "/a") (LLUriParser.lit "q=1")
             (LLUriParser.lit "top") [] false 0%Z
             (LLUriParser.mkUriUriA none none none none none []) in
  LLUriParser.glue p (LLUriParser.lit "old")
  = LLUriParser.lit "https://example.org:8080/a?q=1#top" /\
  LLUriParser.glue (LLUriParser.sheme [] p) (LLUriParser.lit "old")
  = LLUriParser.lit "oldexample.org:8080/a?q=1#top" /\
  LLUriParser.glue (LLUriParser.query [] p) []
  = LLUriParser.lit "https://example.org:8080/a".
Proof.
  intros none p.
  destruct (glue_overwrites_or_appends p (LLUriParser.lit "old")) as (Hall & Hover & _ & _).
  destruct (glue_overwrites_or_appends (LLUriParser.sheme [] p) (LLUriParser.lit "old"))
    as (_ & _ & Happ & _).
  destruct (glue_overwrites_or_appends (LLUriParser.query [] p) []) as (_ & _ & _ & Hfrag).
  split; [|split].
  - rewrite Hover; [reflexivity | discriminate].
  - rewrite Happ; reflexivity.
  - rewrite <- (Hfrag eq_refl (LLUriParser.lit "other")). reflexivity.
Defined.

(** X26. The string taken from a text
    range is empty when either pointer is null or the range is empty or
    inverted; otherwise it has exactly [afterLast - first] characters, the
    ones the memory holds from [first] on. Memory outside the range is never
    looked at, so no terminating NUL is needed. *)
Theorem textRangeToString_reads_the_range (mem : nat -> Ascii.ascii)
    (textRange : LLUriParser.UriTextRangeA) :
  (forall first afterLast,
     LLUriParser.first textRange = Some first ->
     LLUriParser.afterLast textRange = Some afterLast ->
     first < afterLast ->
     length (LLUriParser.textRangeToString mem textRange) = afterLast - first /\
     forall k, k < afterLast - first ->
               LLUriParser.textRangeToString mem textRange !! k = Some (mem (first + k))) /\
  (LLUriParser.first textRange = None \/ LLUriParser.afterLast textRange = None \/
   (exists first afterLast,
      LLUriParser.first textRange = Some first /\
      LLUriParser.afterLast textRange = Some afterLast /\ afterLast <= first) ->
   LLUriParser.textRangeToString mem textRange = []) /\
  (forall mem',
     (forall first afterLast k,
        LLUriParser.first textRange = Some first ->
        LLUriParser.afterLast textRange = Some afterLast ->
        first <= k < afterLast -> mem' k = mem k) ->
     LLUriParser.textRangeToString mem' textRange
     = LLUriParser.textRangeToString mem textRange).
Proof.
  destruct textRange as [[first|] [afterLast|]];
    unfold LLUriParser.textRangeToString; simpl.
  2-4: (split; [intros ? ? ? ?; discriminate|]; split; reflexivity).
  split; [|split].
  - intros ? ? [= <-] [= <-] Hlt.
    case_decide; [lia|]. case_decide; [|lia].
    split; [now rewrite length_fmap, length_seq|].
    intros k Hk. rewrite list_lookup_fmap, lookup_seq_lt by exact Hk. reflexivity.
  - intros [|[|(? & ? & [= <-] & [= <-] & Hle)]]; try discriminate.
    case_decide; [reflexivity | lia].
  - intros mem' Hsame. case_decide; [reflexivity|]. case_decide; [|reflexivity].
    apply list_fmap_ext. intros i k Hk. apply lookup_seq in Hk as [-> Hi].
    apply (Hsame first afterLast); [reflexivity | reflexivity | lia].
Qed.

Lemma textRangeToString_reads_the_range_witness :
  let mem := fun k => nth k (LLUriParser.lit "http://example.org/a b") LLUriParser.NUL in
  (LLUriParser.textRangeToString mem (LLUriParser.mkUriTextRangeA (Some 7) (Some 18)))
  !! 0 = Some (mem 7) /\
  LLUriParser.textRangeToString mem (LLUriParser.mkUriTextRangeA (Some 18) (Some 7)) = [].
Proof.
  intros mem. split.
  - destruct (textRangeToString_reads_the_range mem
                (LLUriParser.mkUriTextRangeA (Some 7) (Some 18))) as (Hread & _ & _).
    destruct (Hread 7 18) as [_ Hk]; [reflexivity | reflexivity | lia |].
    apply (Hk 0). lia.
  - destruct (textRangeToString_reads_the_range mem
                (LLUriParser.mkUriTextRangeA (Some 18) (Some 7))) as (_ & Hempty & _).
    apply Hempty. right. right. exists 18, 7. repeat split. lia.
Defined.

(** X27. [extractParts] overwrites host, port, query and fragment with
    the text of their ranges and the scheme with the text of its range, or
    with the empty string when the parser has the temporary scheme; it
    leaves the normalized URI, the flag, the result and the parsed URI
    alone. To the path it appends: a slash and the text of every segment
    go behind what [mPath] held. Extracting a second time therefore leaves
    the other parts as they are and appends the segments again; it changes
    nothing exactly when there is no path segment. *)
Theorem extractParts_appends_to_the_path (mem : nat -> Ascii.ascii) (p : LLUriParser.t) :
  let once := LLUriParser.extractParts mem p in
  let text := LLUriParser.textRangeToString mem in
  let segments := LLUriParser.path_of mem (LLUriParser.uri_pathHead (LLUriParser.mUri p)) in
  LLUriParser.mScheme once
  = (if LLUriParser.mTmpScheme p then []
     else text (LLUriParser.uri_scheme (LLUriParser.mUri p))) /\
  LLUriParser.mHost once = text (LLUriParser.uri_hostText (LLUriParser.mUri p)) /\
  LLUriParser.mPort once = text (LLUriParser.uri_portText (LLUriParser.mUri p)) /\
  LLUriParser.mQuery once = text (LLUriParser.uri_query (LLUriParser.mUri p)) /\
  LLUriParser.mFragment once = text (LLUriParser.uri_fragment (LLUriParser.mUri p)) /\
  LLUriParser.mPath once = LLUriParser.mPath p ++ segments /\
  (LLUriParser.mNormalizedUri once = LLUriParser.mNormalizedUri p /\
   LLUriParser.mTmpScheme once = LLUriParser.mTmpScheme p /\
   LLUriParser.mRes once = LLUriParser.mRes p /\
   LLUriParser.mUri once = LLUriParser.mUri p) /\
  LLUriParser.extractParts mem once
  = LLUriParser.path (LLUriParser.mPath once ++ segments) once /\
  (LLUriParser.extractParts mem once = once <->
   LLUriParser.uri_pathHead (LLUriParser.mUri p) = []).
Proof.
  destruct p as [scheme port host path query fragment normalized tmp res parsed].
  unfold LLUriParser.extractParts, LLUriParser.path, LLUriParser.with_parts. simpl.
  rewrite !path_of_foldl.
  do 6 (split; [reflexivity|]). split; [now repeat split|]. split; [reflexivity|].
  split.
  - intros Heq. injection Heq as Heq.
    destruct (LLUriParser.uri_pathHead parsed) as [|segment segments]; [reflexivity|].
    exfalso. apply (f_equal length) in Heq. revert Heq.
    unfold LLUriParser.path_of. simpl. rewrite !length_app. simpl. lia.
  - intros ->. unfold LLUriParser.path_of. simpl. now rewrite !app_nil_r.
Qed.

Lemma extractParts_appends_to_the_path_witness :
  let mem := fun k => nth k (LLUriParser.lit "http://example.org/a/b") LLUriParser.NUL in
  let none := LLUriParser.mkUriTextRangeA None None in
  let parsed :=
    LLUriParser.mkUriUriA (LLUriParser.mkUriTextRangeA (Some 0) (Some 4))
      (LLUriParser.mkUriTextRangeA (Some 7) (Some 18)) none none none
      [LLUriParser.mkUriTextRangeA (Some 19) (Some 20);
       LLUriParser.mkUriTextRangeA (Some 21) (Some 22)] in
  let p := LLUriParser.mk (LLUriParser.lit "ftp") [] (LLUriParser.lit "old.host") [] []
             (LLUriParser.lit "old") (LLUriParser.lit "example.org/a/b") true 0%Z
             parsed in
  LLUriParser.mScheme (LLUriParser.extractParts mem p) = [] /\
  LLUriParser.mHost (LLUriParser.extractParts mem p) = LLUriParser.lit "example.org" /\
  LLUriParser.mFragment (LLUriParser.extractParts mem p) = [] /\
  LLUriParser.mPath (LLUriParser.extractParts mem p) = LLUriParser.lit "/a/b" /\
  LLUriParser.mPath (LLUriParser.extractParts mem (LLUriParser.extractParts mem p))
  = LLUriParser.lit "/a/b/a/b".
Proof.
  intros mem none parsed p.
  destruct (extractParts_appends_to_the_path mem p)
    as (Hscheme & Hhost & _ & _ & Hfragment & Hpath & _ & Htwice & _).
  split; [rewrite Hscheme; reflexivity|]. split; [rewrite Hhost; reflexivity|].
  split; [rewrite Hfragment; reflexivity|]. split.
  - rewrite Hpath. reflexivity.
  - rewrite Htwice. reflexivity.
Defined.

Lemma find_occurs (needle s : list Ascii.ascii) :
  LLUriParser.find needle s <> None <-> exists l1 l2, s = l1 ++ needle ++ l2.
Proof.
  split.
  - induction s as [|c rest IH]; simpl.
    + case_decide as Hpre; [|congruence]. intros _.
      apply prefix_nil_inv in Hpre. subst needle. now exists [], [].
    + case_decide as Hpre.
      * intros _. destruct Hpre as [l2 Hl2]. now exists [], l2.
      * intros Hfind. destruct IH as (l1 & l2 & Hrest).
        -- intros Hnone. apply Hfind. now rewrite Hnone.
        -- exists (c :: l1), l2. now rewrite Hrest.
  - intros (l1 & l2 & Hs) Hnone. now apply (proj1 (find_None_iff needle s) Hnone l1 l2).
Qed.

(** X28. A new parser gets the temporary scheme exactly when [://] occurs
    nowhere in the string it is made from, and its normalized URI is that
    string up to its first NUL, behind [http://] in the temporary case. The
    normalized URI holds no NUL, so [parse] hands all of it to the library.
    All parts start empty, so [test] on a new parser succeeds only in one
    case: the string contains [://] and has nothing before its first NUL,
    which leaves the normalized URI empty. For a string without NUL the
    normalized URI always contains [://] and [test] fails until the parts
    are extracted. *)
Theorem new_parser_has_a_scheme (lib : LLUriParser.UriLib) (u : list Ascii.ascii) :
  let p := LLUriParser.new lib u in
  let separator := LLUriParser.lit "://" in
  (LLUriParser.mTmpScheme p = true <-> forall l1 l2, u <> l1 ++ separator ++ l2) /\
  (LLUriParser.mTmpScheme p = false <-> exists l1 l2, u = l1 ++ separator ++ l2) /\
  LLUriParser.mNormalizedUri p
  = (if LLUriParser.mTmpScheme p then LLUriParser.lit "http://" else [])
      ++ LLUriParser.c_str u /\
  (LLUriParser.NUL ∉ LLUriParser.mNormalizedUri p) /\
  (LLUriParser.mRes p, LLUriParser.mUri p)
  = LLUriParser.uriParseUriA lib (LLUriParser.mNormalizedUri p) /\
  LLUriParser.parse lib p = (p, LLUriParser.mRes p) /\
  LLUriParser.glue p [] = [] /\
  (LLUriParser.test p = true <->
   LLUriParser.c_str u = [] /\ exists l1 l2, u = l1 ++ separator ++ l2) /\
  (LLUriParser.NUL ∉ u ->
   (exists l1 l2, LLUriParser.mNormalizedUri p = l1 ++ separator ++ l2) /\
   LLUriParser.test p = false).
Proof.
  intros p separator.
  assert (bool_decide (LLUriParser.find separator u = None) = false
          <-> exists l1 l2, u = l1 ++ separator ++ l2) as Hocc.
  { rewrite bool_decide_eq_false. apply find_occurs. }
  subst p. unfold LLUriParser.new, LLUriParser.parse, LLUriParser.test. fold separator.
  match goal with
  | |- context [LLUriParser.c_str (?prefix ++ LLUriParser.c_str u)] =>
      assert (LLUriParser.NUL ∉ prefix ++ LLUriParser.c_str u) as Hnul
  end.
  { intros Hin. apply elem_of_app in Hin as [Hin|Hin].
    - case_bool_decide.
      + unfold LLUriParser.lit in Hin. simpl in Hin.
        repeat (apply elem_of_cons in Hin as [Hin|Hin]; [discriminate|]).
        now apply elem_of_nil in Hin.
      + now apply elem_of_nil in Hin.
    - now apply c_str_no_NUL in Hin. }
  rewrite (c_str_id _ Hnul).
  destruct (LLUriParser.uriParseUriA lib _) as [res parsed] eqn:Hparse.
  cbn -[LLUriParser.lit LLUriParser.c_str LLUriParser.glue].
  rewrite (c_str_id _ Hnul), Hparse.
  change (LLUriParser.glue _ []) with (@nil Ascii.ascii).
  assert (bool_decide
            ([] = (if bool_decide (LLUriParser.find separator u = None)
                   then LLUriParser.lit "http://" else []) ++ LLUriParser.c_str u) = true
          <-> LLUriParser.c_str u = [] /\ exists l1 l2, u = l1 ++ separator ++ l2)
    as Htest.
  { rewrite bool_decide_eq_true, <- Hocc.
    destruct (bool_decide (LLUriParser.find separator u = None)).
    - split; [discriminate | now intros [_ ?]].
    - simpl. split; [now intros <- | now intros [-> _]]. }
  split; [rewrite bool_decide_eq_true; apply find_None_iff|].
  split; [exact Hocc|]. split; [reflexivity|]. split; [exact Hnul|].
  split; [reflexivity|]. split; [reflexivity|]. split; [reflexivity|].
  split; [exact Htest|].
  intros Hu.
  assert (exists l1 l2,
            (if bool_decide (LLUriParser.find separator u = None)
             then LLUriParser.lit "http://" else []) ++ LLUriParser.c_str u
            = l1 ++ separator ++ l2) as Hsep.
  { rewrite (c_str_id _ Hu).
    destruct (bool_decide (LLUriParser.find separator u = None)) eqn:Hfind.
    - exists (LLUriParser.lit "http"), u. reflexivity.
    - now apply Hocc. }
  split; [exact Hsep|].
  destruct (bool_decide ([] = _)) eqn:Hempty; [|reflexivity].
  exfalso. apply bool_decide_eq_true in Hempty.
  destruct Hsep as (l1 & l2 & Hsep). rewrite Hsep in Hempty.
  apply (f_equal length) in Hempty. revert Hempty.
  rewrite !length_app. simpl. lia.
Qed.

Lemma new_parser_has_a_scheme_witness :
  let none := LLUriParser.mkUriTextRangeA None None in
  let lib :=
    LLUriParser.mkUriLib
      (fun s => (0%Z, LLUriParser.mkUriUriA none none none none none []))
      (fun uri => (0%Z, uri)) (fun uri => (0%Z, 0%Z)) (fun uri buf => (0%Z, buf)) in
  ((exists l1 l2,
      LLUriParser.mNormalizedUri (LLUriParser.new lib (LLUriParser.lit "example.org"))
      = l1 ++ LLUriParser.lit "://" ++ l2) /\
   LLUriParser.test (LLUriParser.new lib (LLUriParser.lit "example.org")) = false) /\
  LLUriParser.test (LLUriParser.new lib (LLUriParser.NUL :: LLUriParser.lit "://x")) = true.
Proof.
  intros none lib. split.
  - destruct (new_parser_has_a_scheme lib (LLUriParser.lit "example.org"))
      as (_ & _ & _ & _ & _ & _ & _ & _ & Hsep).
    apply Hsep.
    unfold LLUriParser.lit. simpl. intros Hin.
    repeat (apply elem_of_cons in Hin as [Hin|Hin]; [discriminate|]).
    now apply elem_of_nil in Hin.
  - destruct (new_parser_has_a_scheme lib (LLUriParser.NUL :: LLUriParser.lit "://x"))
      as (_ & _ & _ & _ & _ & _ & _ & Htest & _).
    apply Htest. split; [reflexivity|].
    exists [LLUriParser.NUL], (LLUriParser.lit "x"). reflexivity.
Defined.

(** X29. [normalize] is a chain of three library calls that stops at the
    first failure. A parser whose last result was a failure is left as it
    is. Whenever the call returns, the code it returns is the one stored in
    [mRes]; scheme, port, host, path, query, fragment and the
    temporary-scheme flag are untouched: nothing but the result, the parsed
    URI and the normalized URI can differ; the normalized URI has changed
    only if the code is zero, and a normalized URI without NUL stays
    without NUL. When the parser stood at zero and the code is zero, all
    three calls gave zero and the normalized URI is the C string in the
    buffer of [uriToStringA], from the eighth character on when the parser
    has the temporary scheme and from the first one otherwise. *)
Theorem normalize_keeps_the_uri_on_failure (lib : LLUriParser.UriLib) (p : LLUriParser.t) :
  (LLUriParser.mRes p <> 0%Z ->
   LLUriParser.normalize lib p = Some (p, LLUriParser.mRes p)) /\
  (forall p' code,
     LLUriParser.normalize lib p = Some (p', code) ->
     code = LLUriParser.mRes p' /\
     p' = LLUriParser.with_normalized (LLUriParser.mNormalizedUri p')
            (LLUriParser.with_result code (LLUriParser.mUri p') p) /\
     (LLUriParser.mScheme p' = LLUriParser.mScheme p /\
      LLUriParser.mPort p' = LLUriParser.mPort p /\
      LLUriParser.mHost p' = LLUriParser.mHost p /\
      LLUriParser.mPath p' = LLUriParser.mPath p /\
      LLUriParser.mQuery p' = LLUriParser.mQuery p /\
      LLUriParser.mFragment p' = LLUriParser.mFragment p /\
      LLUriParser.mTmpScheme p' = LLUriParser.mTmpScheme p) /\
     (code <> 0%Z -> LLUriParser.mNormalizedUri p' = LLUriParser.mNormalizedUri p) /\
     (LLUriParser.NUL ∉ LLUriParser.mNormalizedUri p ->
      LLUriParser.NUL ∉ LLUriParser.mNormalizedUri p') /\
     (LLUriParser.mRes p = 0%Z -> code = 0%Z ->
      exists uri chars_required label_buf,
        LLUriParser.uriNormalizeSyntaxExA lib (LLUriParser.mUri p) = (0%Z, uri) /\
        LLUriParser.uriToStringCharsRequiredA lib uri = (0%Z, chars_required) /\
        LLUriParser.uriToStringA lib uri
          (replicate (Z.to_nat (S32_wrap (chars_required + 1))) LLUriParser.NUL)
        = (0%Z, label_buf) /\
        LLUriParser.mUri p' = uri /\
        LLUriParser.mNormalizedUri p'
        = LLUriParser.c_str
            (drop (if LLUriParser.mTmpScheme p then 7 else 0) label_buf))).
Proof.
  split.
  - intros Hres. unfold LLUriParser.normalize. case_decide; [congruence | reflexivity].
  - intros p' code. unfold LLUriParser.normalize.
    destruct p as [scheme port host path query fragment normalized tmp res parsed].
    simpl.
    case_decide as Hres;
      [|intros [= <- <-]; simpl; repeat split; auto; congruence].
    destruct (LLUriParser.uriNormalizeSyntaxExA lib parsed) as [res1 uri1] eqn:Hnormalize.
    simpl.
    case_decide as Hres1;
      [|intros [= <- <-]; simpl; repeat split; auto; congruence].
    destruct (LLUriParser.uriToStringCharsRequiredA lib uri1) as [res2 chars_required]
      eqn:Hrequired.
    simpl.
    case_decide as Hres2;
      [|intros [= <- <-]; simpl; repeat split; auto; congruence].
    case_decide as Hpos; [|discriminate].
    destruct (LLUriParser.uriToStringA lib uri1 _) as [res3 label_buf] eqn:Hstring. simpl.
    case_decide as Hres3;
      [|intros [= <- <-]; simpl; repeat split; auto; congruence].
    unfold LLUriParser.c_str_at.
    case_decide; [|discriminate]. case_decide; [|discriminate].
    intros [= <- <-]. simpl. subst res res1 res2 res3.
    split; [reflexivity|]. split; [reflexivity|]. split; [now repeat split|].
    split; [congruence|]. split; [intros _; apply c_str_no_NUL|].
    intros _ _. exists uri1, chars_required, label_buf. simpl. now repeat split.
Qed.

Lemma normalize_keeps_the_uri_on_failure_witness :
  let none := LLUriParser.mkUriTextRangeA None None in
  let parsed := LLUriParser.mkUriUriA none none none none none [] in
  let lib :=
    LLUriParser.mkUriLib (fun s => (0%Z, parsed)) (fun uri => (0%Z, uri))
      (fun uri => (0%Z, 18%Z))
      (fun uri buf => (0%Z, LLUriParser.lit "http://example.org" ++ [LLUriParser.NUL])) in
  let p := LLUriParser.new lib (LLUriParser.lit "EXAMPLE.org") in
  let failed := LLUriParser.with_result 1%Z parsed p in
  LLUriParser.normalize lib failed = Some (failed, 1%Z) /\
  LLUriParser.normalize lib p
  = Some (LLUriParser.with_normalized (LLUriParser.lit "example.org") p, 0%Z) /\
  (LLUriParser.NUL ∉ LLUriParser.lit "example.org").
Proof.
  intros none parsed lib p failed.
  destruct (normalize_keeps_the_uri_on_failure lib failed) as [Hfailed _].
  destruct (normalize_keeps_the_uri_on_failure lib p) as [_ Hrun].
  split; [apply Hfailed; discriminate|].
  assert (LLUriParser.normalize lib p
          = Some (LLUriParser.with_normalized (LLUriParser.lit "example.org") p, 0%Z))
    as Hnorm by (vm_compute; reflexivity).
  split; [exact Hnorm|].
  destruct (Hrun _ _ Hnorm) as (_ & _ & _ & _ & Hnul & _).
  apply Hnul. vm_compute. intros Hin.
  repeat (apply elem_of_cons in Hin as [Hin|Hin]; [discriminate|]).
  now apply elem_of_nil in Hin.
Defined.
